(** * Verification of the Magma process driver (package [proc] and [proc/parse])

    The development embeds the protocol decoder of [proc] (tag framer, field
    decoders, response multiplexer, [Quit]) and the line-oriented parsers of
    [proc/parse] (traceback, error position) as Rocq functions, and states
    the properties of the design document over them.

    Part I holds the embedding: the fragment of the Go runtime and standard
    library the code relies on, then the program, function by function.
    Part II holds the definitions the properties are stated with.
    Part III holds the lemmas and the theorems. *)

From Stdlib Require Import ZArith NArith String Ascii List Bool Lia.
Import ListNotations.

Set Implicit Arguments.

(* ================================================================== *)
(** * Part I.  The embedding *)
(* ================================================================== *)

(** ** The Go substrate: results, slices, strings *)

Module Go.

(** A Go [string] and a Go [[]byte] are both sequences of bytes. *)
Definition bytes := list ascii.

Definition str (s : string) : bytes := list_ascii_of_string s.

Definition byteval (c : ascii) : N := N_of_ascii c.

Definition bytes_eqb (a b : bytes) : bool :=
  if list_eq_dec ascii_dec a b then true else false.

(** A call either returns or panics; a panic of the decoder goroutine or of
    a parser goroutine brings the whole program down. *)
Inductive result (A : Type) : Type :=
| Ok (a : A)
| Panic (msg : string).
Arguments Ok {A} a.
Arguments Panic {A} msg.

Definition bind {A B} (r : result A) (k : A -> result B) : result B :=
  match r with
  | Ok a => k a
  | Panic m => Panic m
  end.

Definition len {A} (l : list A) : Z := Z.of_nat (length l).

(** [l[i]]: run-time panic when the index is out of range. *)
Definition index {A} (l : list A) (i : Z) : result A :=
  if (i <? 0)%Z then Panic "index out of range"
  else match nth_error l (Z.to_nat i) with
       | Some a => Ok a
       | None => Panic "index out of range"
       end.

(** [l[i:]] and [l[:j]].  The slices and strings sliced by the program have
    their capacity equal to their length: strings always, and the field
    slices because [bytes.Fields] allocates exactly as many elements as it
    returns. *)
Definition slice_from {A} (l : list A) (i : Z) : result (list A) :=
  if (i <? 0)%Z || (len l <? i)%Z then Panic "slice bounds out of range"
  else Ok (skipn (Z.to_nat i) l).

Definition slice_to {A} (l : list A) (j : Z) : result (list A) :=
  if (j <? 0)%Z || (len l <? j)%Z then Panic "slice bounds out of range"
  else Ok (firstn (Z.to_nat j) l).

Definition slice {A} (l : list A) (i j : Z) : result (list A) :=
  if (i <? 0)%Z || (j <? i)%Z || (len l <? j)%Z
  then Panic "slice bounds out of range"
  else Ok (firstn (Z.to_nat j - Z.to_nat i) (skipn (Z.to_nat i) l)).

(** *** unicode/utf8 *)

Definition rune := N.
Definition RuneError : rune := 0xFFFD%N.
Definition RuneSelf : N := 0x80%N.
Definition UTFMax : Z := 4%Z.

(** The table [first] of package utf8: what a leading byte announces. *)
Inductive firstInfo : Type :=
| fASCII
| fInvalid
| fLead (size : nat) (lo hi : N).

Definition first (p0 : N) : firstInfo :=
  (if p0 <? 0x80 then fASCII
   else if p0 <? 0xC2 then fInvalid
   else if p0 <? 0xE0 then fLead 2 0x80 0xBF
   else if p0 =? 0xE0 then fLead 3 0xA0 0xBF
   else if p0 <? 0xED then fLead 3 0x80 0xBF
   else if p0 =? 0xED then fLead 3 0x80 0x9F
   else if p0 <? 0xF0 then fLead 3 0x80 0xBF
   else if p0 =? 0xF0 then fLead 4 0x90 0xBF
   else if p0 <? 0xF4 then fLead 4 0x80 0xBF
   else if p0 =? 0xF4 then fLead 4 0x80 0x8F
   else fInvalid)%N.

Definition inRange (lo hi b : N) : bool := ((lo <=? b) && (b <=? hi))%N.

Definition isCont (b : N) : bool := inRange 0x80 0xBF b.

Definition DecodeRune (p : bytes) : rune * nat :=
  match p with
  | [] => (RuneError, 0)
  | c0 :: t =>
    let p0 := byteval c0 in
    match first p0 with
    | fASCII => (p0, 1)
    | fInvalid => (RuneError, 1)
    | fLead sz lo hi =>
      if length p <? sz then (RuneError, 1) else
      match t with
      | [] => (RuneError, 1)
      | c1 :: t1 =>
        let b1 := byteval c1 in
        if negb (inRange lo hi b1) then (RuneError, 1) else
        if sz <=? 2
        then (N.lor (N.shiftl (N.land p0 0x1F) 6) (N.land b1 0x3F), 2) else
        match t1 with
        | [] => (RuneError, 1)
        | c2 :: t2 =>
          let b2 := byteval c2 in
          if negb (isCont b2) then (RuneError, 1) else
          if sz <=? 3
          then (N.lor (N.shiftl (N.land p0 0x0F) 12)
                 (N.lor (N.shiftl (N.land b1 0x3F) 6) (N.land b2 0x3F)), 3) else
          match t2 with
          | [] => (RuneError, 1)
          | c3 :: _ =>
            let b3 := byteval c3 in
            if negb (isCont b3) then (RuneError, 1) else
            (N.lor (N.shiftl (N.land p0 0x07) 18)
               (N.lor (N.shiftl (N.land b1 0x3F) 12)
                  (N.lor (N.shiftl (N.land b2 0x3F) 6) (N.land b3 0x3F))), 4)
          end
        end
      end
    end
  end.

Definition RuneStart (c : ascii) : bool :=
  negb (N.land (byteval c) 0xC0 =? 0x80)%N.

(** The backward scan of [DecodeLastRune]: from [start] down to [lim], stop
    at the first byte that can start a rune.  The body runs at most
    [UTFMax - 1] times, so four unfoldings always reach the exit. *)
Fixpoint lastRuneScan (p : bytes) (lim start : Z) (fuel : nat) : Z :=
  match fuel with
  | O => start
  | S k =>
    if (start <? lim)%Z then start
    else if RuneStart (nth (Z.to_nat start) p zero) then start
    else lastRuneScan p lim (start - 1) k
  end.

Definition DecodeLastRune (p : bytes) : rune * nat :=
  let end_ := len p in
  if (end_ =? 0)%Z then (RuneError, 0) else
  let start := (end_ - 1)%Z in
  let r := byteval (nth (Z.to_nat start) p zero) in
  if (r <? RuneSelf)%N then (r, 1) else
  let lim := Z.max 0 (end_ - UTFMax) in
  let start := lastRuneScan p lim (start - 1) 4 in
  let start := Z.max 0 start in
  let '(r, size) := DecodeRune (skipn (Z.to_nat start) p) in
  if (start + Z.of_nat size =? end_)%Z then (r, size) else (RuneError, 1).

(** [for i, r := range s]: the runes of [s] from the left, each with the
    bytes it was decoded from.  [skip] counts the bytes still belonging to
    the rune decoded last. *)
Fixpoint rangeFrom (skip : nat) (s : bytes) : list (rune * bytes) :=
  match s with
  | [] => []
  | _ :: t =>
    match skip with
    | S k => rangeFrom k t
    | O => let '(r, n) := DecodeRune s in (r, firstn n s) :: rangeFrom (n - 1) t
    end
  end.

Definition rangeString (s : bytes) : list (rune * bytes) := rangeFrom 0 s.

(** *** unicode *)

Definition IsSpace (r : rune) : bool :=
  (if r <=? 0xFF then
     (r =? 0x09) || (r =? 0x0A) || (r =? 0x0B) || (r =? 0x0C) || (r =? 0x0D)
     || (r =? 0x20) || (r =? 0x85) || (r =? 0xA0)
   else
     (r =? 0x1680) || inRange 0x2000 0x200A r || (r =? 0x2028) || (r =? 0x2029)
     || (r =? 0x202F) || (r =? 0x205F) || (r =? 0x3000))%N.

(** *** strings and bytes (the two packages agree function by function) *)

Definition HasPrefix (s prefix : bytes) : bool :=
  (length prefix <=? length s) && bytes_eqb (firstn (length prefix) s) prefix.

Definition HasSuffix (s suffix : bytes) : bool :=
  (length suffix <=? length s)
  && bytes_eqb (skipn (length s - length suffix) s) suffix.

Definition TrimPrefix (s prefix : bytes) : bytes :=
  if HasPrefix s prefix then skipn (length prefix) s else s.

Definition TrimSuffix (s suffix : bytes) : bytes :=
  if HasSuffix s suffix then firstn (length s - length suffix) s else s.

(** [Index]: offset of the first occurrence of [sep], [None] for -1. *)
Fixpoint IndexFrom (i : nat) (s sep : bytes) : option nat :=
  if HasPrefix s sep then Some i
  else match s with
       | [] => None
       | _ :: t => IndexFrom (S i) t sep
       end.

Definition Index (s sep : bytes) : option nat := IndexFrom 0 s sep.

(** [LastIndex]: offset of the last occurrence. *)
Fixpoint LastIndexFrom (i : nat) (s sep : bytes) (found : option nat)
  : option nat :=
  let found' := if HasPrefix s sep then Some i else found in
  match s with
  | [] => found'
  | _ :: t => LastIndexFrom (S i) t sep found'
  end.

Definition LastIndex (s sep : bytes) : option nat := LastIndexFrom 0 s sep None.

(** [genSplit] for a non-empty separator: cut at most [n] times.  Every cut
    removes at least one byte, so [Split] cuts at most [length s] times. *)
Fixpoint genSplit (n : nat) (s sep : bytes) : list bytes :=
  match n with
  | O => [s]
  | S k =>
    match Index s sep with
    | None => [s]
    | Some m => firstn m s :: genSplit k (skipn (m + length sep) s) sep
    end
  end.

Definition Split (s sep : bytes) : list bytes := genSplit (length s) s sep.

(** [SplitN(s, sep, 2)] *)
Definition SplitN2 (s sep : bytes) : list bytes := genSplit 1 s sep.

(** [FieldsFunc]: the maximal runs of runes that do not satisfy [f]. *)
Fixpoint fieldsOf (f : rune -> bool) (rs : list (rune * bytes))
  (cur : option bytes) : list bytes :=
  match rs with
  | [] => match cur with Some w => [w] | None => [] end
  | (r, w) :: rest =>
    if f r
    then match cur with
         | Some c => c :: fieldsOf f rest None
         | None => fieldsOf f rest None
         end
    else fieldsOf f rest (Some (match cur with Some c => c ++ w | None => w end))
  end.

Definition FieldsFunc (s : bytes) (f : rune -> bool) : list bytes :=
  fieldsOf f (rangeString s) None.

Definition Fields (s : bytes) : list bytes := FieldsFunc s IsSpace.

(** [indexFunc(s, f, truth)] *)
Fixpoint indexFuncFrom (f : rune -> bool) (truth : bool) (skip i : nat)
  (s : bytes) : option nat :=
  match s with
  | [] => None
  | _ :: t =>
    match skip with
    | S k => indexFuncFrom f truth k (S i) t
    | O =>
      let '(r, n) := DecodeRune s in
      if Bool.eqb (f r) truth then Some i
      else indexFuncFrom f truth (n - 1) (S i) t
    end
  end.

Definition indexFunc (s : bytes) (f : rune -> bool) (truth : bool)
  : option nat := indexFuncFrom f truth 0 0 s.

(** [lastIndexFunc(s, f, truth)]: every turn moves [i] down by the width of
    a rune, which is at least one, so [length s] turns reach [i = 0]. *)
Fixpoint lastIndexLoop (f : rune -> bool) (truth : bool) (fuel : nat)
  (s : bytes) (i : nat) : option nat :=
  match fuel with
  | O => None
  | S k =>
    if i =? 0 then None else
    let '(r, size) := DecodeLastRune (firstn i s) in
    let i := i - size in
    if Bool.eqb (f r) truth then Some i else lastIndexLoop f truth k s i
  end.

Definition lastIndexFunc (s : bytes) (f : rune -> bool) (truth : bool)
  : option nat := lastIndexLoop f truth (length s) s (length s).

Definition TrimLeftFunc (s : bytes) (f : rune -> bool) : bytes :=
  match indexFunc s f false with
  | None => []
  | Some i => skipn i s
  end.

Definition TrimRightFunc (s : bytes) (f : rune -> bool) : bytes :=
  match lastIndexFunc s f false with
  | Some i =>
    if (RuneSelf <=? byteval (nth i s zero))%N
    then firstn (i + snd (DecodeRune (skipn i s))) s
    else firstn (i + 1) s
  | None => []
  end.

Definition TrimFunc (s : bytes) (f : rune -> bool) : bytes :=
  TrimRightFunc (TrimLeftFunc s f) f.

Definition TrimSpace (s : bytes) : bytes := TrimFunc s IsSpace.

(** *** strconv *)

Definition isDigit (c : ascii) : bool := inRange 48 57 (byteval c).

Definition maxUint64 : Z := (2 ^ 64 - 1)%Z.
Definition minInt : Z := (- 2 ^ 63)%Z.
Definition maxInt : Z := (2 ^ 63 - 1)%Z.

(** The two errors of a conversion, [ErrSyntax] and [ErrRange]. *)
Inductive numError : Type :=
| ErrSyntax
| ErrRange.

(** The loop of [ParseUint] in base 10 on 64 bits: the bytes from the left,
    [n] the value so far.  A byte that is no digit is a syntax error, with
    the value 0; a value past [maxUint64] is a range error, with the value
    [maxUint64], found at the digit that makes it so and before the bytes
    after it are looked at. *)
Fixpoint parseUint (s : bytes) (n : Z) : Z * option numError :=
  match s with
  | [] => (n, None)
  | c :: t =>
    if negb (isDigit c) then (0%Z, Some ErrSyntax)
    else if (maxUint64 / 10 + 1 <=? n)%Z then (maxUint64, Some ErrRange)
    else
      let n1 := (n * 10 + (Z.of_N (byteval c) - 48))%Z in
      if (maxUint64 <? n1)%Z then (maxUint64, Some ErrRange)
      else parseUint t n1
  end.

(** [ParseUint] on the empty string is a syntax error. *)
Definition ParseUint (s : bytes) : Z * option numError :=
  match s with
  | [] => (0%Z, Some ErrSyntax)
  | _ :: _ => parseUint s 0
  end.

(** Errors are known by their message. *)
Definition error := string.

(** [strconv.Atoi] on a 64-bit platform, which is [ParseInt(s, 10, 0)]: the
    value and the error (the text the input is quoted in is left out of the
    message).  The sign is picked off and the rest converted unsigned; a
    syntax error gives 0; a value out of the range of [int], or a range
    error of the unsigned conversion, gives the nearest bound. *)
Definition Atoi (s : bytes) : Z * option error :=
  match s with
  | [] => (0%Z, Some "strconv.Atoi: invalid syntax"%string)
  | c :: t =>
    let neg := Ascii.eqb c "-" in
    let body := if neg || Ascii.eqb c "+" then t else s in
    match ParseUint body with
    | (_, Some ErrSyntax) => (0%Z, Some "strconv.Atoi: invalid syntax"%string)
    | (un, _) =>
      if negb neg && (2 ^ 63 <=? un)%Z
      then (maxInt, Some "strconv.Atoi: value out of range"%string)
      else if neg && (2 ^ 63 <? un)%Z
      then (minInt, Some "strconv.Atoi: value out of range"%string)
      else ((if neg then - un else un)%Z, None)
    end
  end.

(** *** Channels with a buffer

    A buffered channel as one goroutine sees it between two of its own
    steps: the values queued, the capacity, whether it was closed. *)
Record buffered (A : Type) : Type :=
  { buf : list A; cap : nat; closed : bool }.

Definition makeBuffered (A : Type) (n : nat) : buffered A :=
  {| buf := []; cap := n; closed := false |}.

Inductive sent (A : Type) : Type :=
| Sent (c : buffered A)
| Full
| SendOnClosed.
Arguments Sent {A} c.
Arguments Full {A}.
Arguments SendOnClosed {A}.

(** [ch <- x] with no receiver waiting: a panic on a closed channel, else
    queued when there is room. *)
Definition trySend {A} (c : buffered A) (x : A) : sent A :=
  if closed c then SendOnClosed
  else if length (buf c) <? cap c
       then Sent {| buf := buf c ++ [x]; cap := cap c; closed := closed c |}
       else Full.

Inductive received (A : Type) : Type :=
| Got (x : A) (c : buffered A)
| Drained          (* closed and empty: the zero value, [ok = false] *)
| Empty.
Arguments Got {A} x c.
Arguments Drained {A}.
Arguments Empty {A}.

(** [<-ch] with no sender waiting. *)
Definition tryRecv {A} (c : buffered A) : received A :=
  match buf c with
  | x :: t => Got x {| buf := t; cap := cap c; closed := closed c |}
  | [] => if closed c then Drained else Empty
  end.

End Go.

(** ** Package [proc]: tags, chunks and the response multiplexer *)

Module Proc.
Import Go.

(** *** Tags (tags.go) *)

Definition tag := bytes.
Definition statusTag := bytes.

Definition TagOutput : tag := str "OUT".
Definition TagList : tag := str "LST".
Definition TagSignature : tag := str "SIG".
Definition TagErrorSyntax : tag := str "ENE".
Definition TagErrorInternal : tag := str "EI".
Definition TagErrorUser : tag := str "EU".
Definition TagErrorRuntime : tag := str "ER".
Definition TagTraceback : tag := str "TB".
Definition TagErrorHistoryPosition : tag := str "POS".
Definition TagErrorPosition : tag := str "EPO".
Definition TagReadPrompt : tag := str "RD_PR".
Definition TagReadInput : tag := str "RD_IN".
Definition TagReadIntPrompt : tag := str "RDI_PR".
Definition TagReadIntInput : tag := str "RDI_IN".
Definition TagReadIntError : tag := str "RDI_ER".

Definition TagReady : statusTag := str "RDY".
Definition TagInputReceived : statusTag := str "IR".
Definition TagRun : statusTag := str "RUN".
Definition TagErrorParse : statusTag := str "ERP".
Definition TagInterrupt : statusTag := str "INT".
Definition TagQuit : statusTag := str "QUIT".
Definition TagReset : statusTag := str "RES".
Definition TagDebugReady : statusTag := str "DRDY".

(** Channels are known by the order of their creation. *)
Abbreviation chan := nat (only parsing).

Record Status : Type := { status_tag : statusTag }.

Record Ready : Type :=
  { Ident : bool; Frame : bool; Verbose : bool; Set_ : bool; Types : Z }.

Record Line : Type :=
  { line_tag : tag; Continuation : bool; Indent : Z; Data : bytes }.

Record Position : Type := { Row : Z; Column : Z }.

Record ReadRequest : Type :=
  { read_tag : tag; Prompt : bytes; Output_ : chan; Err : chan }.

(** The implementations of interface [Tagged]. *)
Inductive Tagged : Type :=
| OfTag (t : tag)
| OfStatus (s : Status)
| OfReady (r : Ready)
| OfLine (l : Line)
| OfPosition (p : Position)
| OfReadRequest (r : ReadRequest).

Definition Tag (t : Tagged) : tag :=
  match t with
  | OfTag t => t
  | OfStatus s => status_tag s
  | OfReady _ => TagReady
  | OfLine l => line_tag l
  | OfPosition _ => TagErrorHistoryPosition
  | OfReadRequest r => read_tag r
  end.

Definition IsError (t : Tagged) : bool :=
  let x := Tag t in
  if bytes_eqb x TagErrorSyntax || bytes_eqb x TagTraceback
     || bytes_eqb x TagErrorHistoryPosition || bytes_eqb x TagErrorPosition
     || bytes_eqb x TagErrorInternal || bytes_eqb x TagErrorRuntime
     || bytes_eqb x TagErrorUser || bytes_eqb x TagReadIntError
  then true
  else false.

(** *** Chunks (response.go) *)

Record chunk : Type := { start_ : Position; end_ : Position }.

Definition zeroPosition : Position := {| Row := 0; Column := 0 |}.
Definition zeroChunk : chunk := {| start_ := zeroPosition; end_ := zeroPosition |}.

Definition newline : bytes := [ascii_of_N 10].

(** The loop [for i := c.start.Row + 1; i < c.end.Row; i++] of [get], with
    [n] the number of turns left. *)
Fixpoint get_loop (lines : list bytes) (i : Z) (n : nat) (cmd : bytes)
  : result bytes :=
  match n with
  | O => Ok cmd
  | S k =>
    bind (index lines i) (fun li =>
    get_loop lines (i + 1) k (cmd ++ newline ++ li))
  end.

Definition get (c : chunk) (input : bytes) : result bytes :=
  let lines := Split input newline in
  if (len lines <=? Row (start_ c))%Z || (len lines <=? Row (end_ c))%Z
  then Ok (str "Invalid chunk")
  else
    bind (index lines (Row (start_ c))) (fun l0 =>
    bind (slice_from l0 (Column (start_ c))) (fun cmd =>
    bind (get_loop lines (Row (start_ c) + 1)
            (Z.to_nat (Row (end_ c) - (Row (start_ c) + 1))) cmd) (fun cmd =>
    bind (index lines (Row (end_ c))) (fun l1 =>
    bind (slice_to l1 (Column (end_ c))) (fun tl =>
    Ok (cmd ++ tl)))))).

(** What the design document asks of [get], in its words: the substring of
    the command from the start position to the end position, half-open at
    the end.  A position (row, column) lies [column] bytes into line [row],
    and every earlier line takes its length and its newline. *)
Definition offsetOf (lines : list bytes) (p : Position) : nat :=
  fold_right (fun l acc => length l + 1 + acc) 0 (firstn (Z.to_nat (Row p)) lines)
  + Z.to_nat (Column p).

Definition spanOf (c : chunk) (input : bytes) : bytes :=
  let lines := Split input newline in
  let s := offsetOf lines (start_ c) in
  let e := offsetOf lines (end_ c) in
  firstn (e - s) (skipn s input).

(** *** Outputs and responses *)

Record Output : Type := { o_cmd : bytes; o_ch : chan }.

Record Seed : Type := { seed_Seed : Z; seed_Step : Z }.

(** The implementations of interface [responser]: a plain [*response], a
    [Run], a [ParseError], an [*InternalError]; each embeds a [response]. *)
Inductive variant : Type :=
| PlainResponse
| Run (s : option Seed)
| ParseError
| InternalError.

Record responser : Type := { kind : variant; cmd : bytes; ch : chan }.

(** What the multiplexer does to channels, in program order.  An operation
    on a channel is recorded when the code reaches it, whatever the state of
    the channel. *)
Inductive event : Type :=
| Publish (o : chan) (r : responser)   (* h.r.ch <- h.c *)
| Send (c : chan) (t : Tagged)         (* s.ch <- t *)
| CloseResponse (c : chan)             (* close(s.ch) *)
| CloseOutput (o : chan).              (* close(o.ch) *)

(** The [rhandler], with the allocator of response channels and the record
    of channel operations. *)
Record rhandler : Type :=
  { r : option Output;
    c : option responser;
    nextch : chan;
    trace : list event }.

(** A step of the decoder goroutine ends normally or in a panic; either way
    the state reached is kept. *)
Inductive outcome (A : Type) : Type :=
| Done (a : A) (h : rhandler)
| Crash (msg : string) (h : rhandler).
Arguments Done {A} a h.
Arguments Crash {A} msg h.

Definition stateOf {A} (o : outcome A) : rhandler :=
  match o with
  | Done _ h => h
  | Crash _ h => h
  end.

Definition set_r (x : option Output) (h : rhandler) : rhandler :=
  {| r := x; c := c h; nextch := nextch h; trace := trace h |}.

Definition set_c (x : option responser) (h : rhandler) : rhandler :=
  {| r := r h; c := x; nextch := nextch h; trace := trace h |}.

Definition log (e : event) (h : rhandler) : rhandler :=
  {| r := r h; c := c h; nextch := nextch h; trace := trace h ++ [e] |}.

(** [make(chan Tagged)] *)
Definition makeChan (h : rhandler) : chan * rhandler :=
  (nextch h,
   {| r := r h; c := c h; nextch := S (nextch h); trace := trace h |}).

Definition closeCurrent (h : rhandler) : rhandler :=
  match c h with
  | Some x => log (CloseResponse (ch x)) h
  | None => h
  end.

Definition ready (h : rhandler) : outcome bool :=
  let h := match c h with
           | Some x => set_c None (log (CloseResponse (ch x)) h)
           | None => h
           end in
  match r h with
  | Some o => Done true (set_r None (log (CloseOutput (o_ch o)) h))
  | None => Done false h
  end.

Definition init (e : Output) (h : rhandler) : outcome unit :=
  match r h with
  | Some _ => Crash "should not have r set here" h
  | None => Done tt (set_r (Some e) h)
  end.

Definition newResponse (chk : chunk) (x : responser) (h : rhandler)
  : outcome unit :=
  let h := closeCurrent h in
  let h := set_c (Some x) h in
  match r h with
  | None => Crash "invalid memory address or nil pointer dereference" h
  | Some o => Done tt (log (Publish (o_ch o) x) h)
  end.

Definition start (h : rhandler) : outcome unit :=
  let '(k, h) := makeChan h in
  newResponse zeroChunk {| kind := PlainResponse; cmd := []; ch := k |} h.

Definition run (chk : chunk) (s : option Seed) (h : rhandler) : outcome unit :=
  let '(k, h) := makeChan h in
  newResponse chk {| kind := Run s; cmd := []; ch := k |} h.

Definition parseError (chk : chunk) (h : rhandler) : outcome unit :=
  let '(k, h) := makeChan h in
  newResponse chk {| kind := ParseError; cmd := []; ch := k |} h.

Definition newInternalError (h : rhandler) : responser * rhandler :=
  let '(k, h) := makeChan h in
  ({| kind := InternalError; cmd := []; ch := k |}, h).

Definition internalError (h : rhandler) : outcome unit :=
  match c h with
  | None => let '(x, h) := newInternalError h in newResponse zeroChunk x h
  | Some _ => Done tt h
  end.

Definition close (h : rhandler) : outcome unit :=
  let h := closeCurrent h in
  match r h with
  | Some o => Done tt (log (CloseOutput (o_ch o)) h)
  | None => Done tt h
  end.

Definition send (t : Tagged) (h : rhandler) : outcome unit :=
  match c h with
  | None => Crash "no current output" h
  | Some x => Done tt (log (Send (ch x) t) h)
  end.

(** The operations the decoder [parseStdoutLines] performs on its handler
    (it never calls [close]). *)
Inductive op : Type :=
| OpInit (e : Output)
| OpStart
| OpRun (chk : chunk) (s : option Seed)
| OpParseError (chk : chunk)
| OpInternalError
| OpSend (t : Tagged)
| OpReady.

Definition forget {A} (o : outcome A) : outcome unit :=
  match o with
  | Done _ h => Done tt h
  | Crash m h => Crash m h
  end.

Definition perform (o : op) (h : rhandler) : outcome unit :=
  match o with
  | OpInit e => init e h
  | OpStart => start h
  | OpRun chk s => run chk s h
  | OpParseError chk => parseError chk h
  | OpInternalError => internalError h
  | OpSend t => send t h
  | OpReady => forget (ready h)
  end.

(** A sequence of operations, cut short by the first panic. *)
Fixpoint performAll (ops : list op) (h : rhandler) : outcome unit :=
  match ops with
  | [] => Done tt h
  | o :: rest =>
    match perform o h with
    | Done _ h' => performAll rest h'
    | Crash m h' => Crash m h'
    end
  end.

(** [h := &rhandler{}] *)
Definition newHandler : rhandler :=
  {| r := None; c := None; nextch := 0; trace := [] |}.

(** *** The tag framer and the field decoders (parse.go) *)

Definition newTagChar : ascii := ascii_of_N 129.
Definition runCommandChar : ascii := ascii_of_N 4.
Definition newTagSlice : bytes := [newTagChar].

(** The three results of [parseTagLine].  Only [tagName] is ever compared
    with [nil], so it alone keeps the difference between [nil] and a slice;
    a [nil] list of fields or [nil] data is the empty one. *)
Record tagLine : Type :=
  { tagName : option bytes; tagFields : list bytes; data : bytes }.

Definition noTag : tagLine := {| tagName := None; tagFields := []; data := [] |}.

Definition parseTagLine (line : bytes) : tagLine :=
  match line with
  | l0 :: rest =>
    if (1 <? length line) && Ascii.eqb l0 newTagChar then
      let lineSplit := SplitN2 rest newTagSlice in
      let fields := Fields (hd [] lineSplit) in
      match fields with
      | f0 :: more =>
        {| tagName := Some (TrimSpace f0);
           tagFields := more;
           data := match lineSplit with
                   | [_; d] => TrimSpace d
                   | _ => []
                   end |}
      | [] => noTag
      end
    else noTag
  | [] => noTag
  end.

(** The framer in the words of the design document: a line that does not
    begin with the sentinel carries no tag; otherwise the rest is split at
    the next sentinel into a header and an optional data segment, and the
    header is tokenized on whitespace into the tag name and the auxiliary
    fields. *)
Fixpoint splitAtSentinel (s : bytes) : bytes * option bytes :=
  match s with
  | [] => ([], None)
  | x :: t =>
    if Ascii.eqb x newTagChar then ([], Some t)
    else let '(header, d) := splitAtSentinel t in (x :: header, d)
  end.

Definition frame (line : bytes) : tagLine :=
  match line with
  | [] => noTag
  | l0 :: rest =>
    if Ascii.eqb l0 newTagChar then
      let '(header, segment) := splitAtSentinel rest in
      match Fields header with
      | [] => noTag
      | name :: aux =>
        {| tagName := Some name;
           tagFields := aux;
           data := match segment with
                   | Some d => TrimSpace d
                   | None => []
                   end |}
      end
    else noTag
  end.

Definition errorf (prefix : string) (e : error) : error :=
  String.append prefix e.

Definition isOne (b : bytes) : bool := bytes_eqb b (str "1").

Definition zeroReady : Ready :=
  {| Ident := false; Frame := false; Verbose := false; Set_ := false; Types := 0 |}.

(** [parseReady]; the [*Ready] is [nil] when the number of fields is wrong. *)
Definition parseReady (tagFields : list bytes) : result (option Ready * option error) :=
  if negb (len tagFields =? 5)%Z
  then Ok (None, Some "parsing RDY: require 5 parameters"%string)
  else
    bind (index tagFields 0) (fun f0 =>
    bind (index tagFields 1) (fun f1 =>
    bind (index tagFields 2) (fun f2 =>
    bind (index tagFields 3) (fun f3 =>
    bind (index tagFields 4) (fun f4 =>
    let rdy := {| Ident := isOne f0; Frame := isOne f1; Verbose := isOne f2;
                  Set_ := isOne f3; Types := 0 |} in
    match Atoi f4 with
    | (_, Some e) =>
      Ok (Some rdy, Some (errorf "RDY parsing number of types: " e))
    | (types, None) =>
      Ok (Some {| Ident := Ident rdy; Frame := Frame rdy; Verbose := Verbose rdy;
                  Set_ := Set_ rdy; Types := types |}, None)
    end))))).

Definition parseHistoryPosition (tagFields : list bytes)
  : result (Position * option error) :=
  if negb (len tagFields =? 2)%Z
  then Ok (zeroPosition, Some "position output not of required form"%string)
  else
    bind (index tagFields 0) (fun f0 =>
    let '(row, err) := Atoi f0 in
    match err with
    | Some e => Ok ({| Row := row; Column := 0 |}, Some e)
    | None =>
      bind (index tagFields 1) (fun f1 =>
      let '(col, err) := Atoi f1 in
      Ok ({| Row := row; Column := col |}, err))
    end).

(** [parseResponse].  The error of the length test is assigned and not
    returned: the next assignment to [err] overwrites it. *)
Definition parseResponse (tagFields : list bytes)
  : result (chunk * option error) :=
  let err : option error :=
    if negb (len tagFields =? 4)%Z
    then Some "response output not of required form"%string
    else None in
  bind (slice_to tagFields 2) (fun head2 =>
  bind (parseHistoryPosition head2) (fun '(cstart, err) =>
  match err with
  | Some e => Ok ({| start_ := cstart; end_ := zeroPosition |}, Some e)
  | None =>
    bind (slice_from tagFields 2) (fun from2 =>
    bind (parseHistoryPosition from2) (fun '(cend, err) =>
    Ok ({| start_ := cstart; end_ := cend |}, err)))
  end)).

(** The conversions [uint(seed)] and [uint64(step)]. *)
Definition toUint64 (z : Z) : Z := (z mod 2 ^ 64)%Z.

Definition parseRun (tagFields : list bytes)
  : result (chunk * option Seed * option error) :=
  if negb (len tagFields =? 6)%Z
  then Ok (zeroChunk, None, Some "parsing RUN: require 6 parameters"%string)
  else
    bind (index tagFields 0) (fun f0 =>
    let '(seed, err) := Atoi f0 in
    match err with
    | Some e => Ok (zeroChunk, None, Some e)
    | None =>
      bind (index tagFields 1) (fun f1 =>
      let '(step, err) := Atoi f1 in
      match err with
      | Some e => Ok (zeroChunk, None, Some e)
      | None =>
        let s := {| seed_Seed := toUint64 seed; seed_Step := toUint64 step |} in
        bind (slice_from tagFields 2) (fun from2 =>
        bind (parseResponse from2) (fun '(c, err) =>
        Ok (c, Some s, err)))
      end)
    end).

Definition parseOutput (t : tag) (tagFields : list bytes) (data : bytes)
  : result (option Line * option error) :=
  if negb (len tagFields =? 1)%Z
  then Ok (None, Some "output tag not of required form"%string)
  else
    bind (index tagFields 0) (fun param =>
    if bytes_eqb param (str "C")
    then Ok (Some {| line_tag := t; Continuation := true; Indent := 0;
                     Data := TrimRightFunc data IsSpace |}, None)
    else
      let '(indent, err) := Atoi param in
      match err with
      | Some e =>
        Ok (Some {| line_tag := t; Continuation := false; Indent := indent;
                    Data := [] |}, Some e)
      | None =>
        Ok (Some {| line_tag := t; Continuation := false; Indent := indent;
                    Data := TrimRightFunc data IsSpace |}, None)
      end).

(** *** The process and its channels (proc.go) *)

(** The [Process] as its goroutines see it.  [p.status] is unbuffered and
    always has a reader (the caller of [StatusTags] or the default drain),
    so it is kept as the list of values sent.  The remaining fields of the
    model stand for what the channels lead to: the bytes written to the
    standard input of the child, the Outputs queued in handshake channels,
    the acknowledgment and handshake channels closed so far. *)
Record Process : Type :=
  { p_cmd : bool;                       (* p.cmd != nil *)
    p_cmd_Process : bool;               (* p.cmd.Process != nil *)
    p_ready : buffered chan;
    p_response : buffered Output;
    p_writer : buffered unit;
    p_status : list Tagged;
    p_interrupt : buffered chan;
    p_quit : buffered chan;
    stdin : bytes;
    stdin_err : option error;           (* what [Write] on the pipe returns *)
    handshakes : list (chan * Output);
    closedChans : list chan;
    fresh : chan }.

Definition with_ready (x : buffered chan) (p : Process) : Process :=
  {| p_cmd := p_cmd p; p_cmd_Process := p_cmd_Process p; p_ready := x;
     p_response := p_response p; p_writer := p_writer p; p_status := p_status p;
     p_interrupt := p_interrupt p; p_quit := p_quit p; stdin := stdin p;
     stdin_err := stdin_err p; handshakes := handshakes p;
     closedChans := closedChans p; fresh := fresh p |}.

Definition with_response (x : buffered Output) (p : Process) : Process :=
  {| p_cmd := p_cmd p; p_cmd_Process := p_cmd_Process p; p_ready := p_ready p;
     p_response := x; p_writer := p_writer p; p_status := p_status p;
     p_interrupt := p_interrupt p; p_quit := p_quit p; stdin := stdin p;
     stdin_err := stdin_err p; handshakes := handshakes p;
     closedChans := closedChans p; fresh := fresh p |}.

Definition with_writer (x : buffered unit) (p : Process) : Process :=
  {| p_cmd := p_cmd p; p_cmd_Process := p_cmd_Process p; p_ready := p_ready p;
     p_response := p_response p; p_writer := x; p_status := p_status p;
     p_interrupt := p_interrupt p; p_quit := p_quit p; stdin := stdin p;
     stdin_err := stdin_err p; handshakes := handshakes p;
     closedChans := closedChans p; fresh := fresh p |}.

Definition with_status (x : list Tagged) (p : Process) : Process :=
  {| p_cmd := p_cmd p; p_cmd_Process := p_cmd_Process p; p_ready := p_ready p;
     p_response := p_response p; p_writer := p_writer p; p_status := x;
     p_interrupt := p_interrupt p; p_quit := p_quit p; stdin := stdin p;
     stdin_err := stdin_err p; handshakes := handshakes p;
     closedChans := closedChans p; fresh := fresh p |}.

Definition with_interrupt (x : buffered chan) (p : Process) : Process :=
  {| p_cmd := p_cmd p; p_cmd_Process := p_cmd_Process p; p_ready := p_ready p;
     p_response := p_response p; p_writer := p_writer p; p_status := p_status p;
     p_interrupt := x; p_quit := p_quit p; stdin := stdin p;
     stdin_err := stdin_err p; handshakes := handshakes p;
     closedChans := closedChans p; fresh := fresh p |}.

Definition with_quit (x : buffered chan) (p : Process) : Process :=
  {| p_cmd := p_cmd p; p_cmd_Process := p_cmd_Process p; p_ready := p_ready p;
     p_response := p_response p; p_writer := p_writer p; p_status := p_status p;
     p_interrupt := p_interrupt p; p_quit := x; stdin := stdin p;
     stdin_err := stdin_err p; handshakes := handshakes p;
     closedChans := closedChans p; fresh := fresh p |}.

Definition with_stdin (x : bytes) (p : Process) : Process :=
  {| p_cmd := p_cmd p; p_cmd_Process := p_cmd_Process p; p_ready := p_ready p;
     p_response := p_response p; p_writer := p_writer p; p_status := p_status p;
     p_interrupt := p_interrupt p; p_quit := p_quit p; stdin := x;
     stdin_err := stdin_err p; handshakes := handshakes p;
     closedChans := closedChans p; fresh := fresh p |}.

Definition with_handshakes (x : list (chan * Output)) (p : Process) : Process :=
  {| p_cmd := p_cmd p; p_cmd_Process := p_cmd_Process p; p_ready := p_ready p;
     p_response := p_response p; p_writer := p_writer p; p_status := p_status p;
     p_interrupt := p_interrupt p; p_quit := p_quit p; stdin := stdin p;
     stdin_err := stdin_err p; handshakes := x;
     closedChans := closedChans p; fresh := fresh p |}.

Definition with_closed (x : list chan) (p : Process) : Process :=
  {| p_cmd := p_cmd p; p_cmd_Process := p_cmd_Process p; p_ready := p_ready p;
     p_response := p_response p; p_writer := p_writer p; p_status := p_status p;
     p_interrupt := p_interrupt p; p_quit := p_quit p; stdin := stdin p;
     stdin_err := stdin_err p; handshakes := handshakes p;
     closedChans := x; fresh := fresh p |}.

(** [make(chan ...)] outside the multiplexer. *)
Definition makeChannel (p : Process) : chan * Process :=
  (fresh p,
   {| p_cmd := p_cmd p; p_cmd_Process := p_cmd_Process p; p_ready := p_ready p;
      p_response := p_response p; p_writer := p_writer p; p_status := p_status p;
      p_interrupt := p_interrupt p; p_quit := p_quit p; stdin := stdin p;
      stdin_err := stdin_err p; handshakes := handshakes p;
      closedChans := closedChans p; fresh := S (fresh p) |}).

Definition newOutput (input : bytes) (p : Process) : Output * Process :=
  let '(k, p) := makeChannel p in ({| o_cmd := input; o_ch := k |}, p).

(** [w.Write(b)] on the pipe to the child. *)
Definition Write (b : bytes) (p : Process) : option error * Process :=
  match stdin_err p with
  | Some e => (Some e, p)
  | None => (None, with_stdin (stdin p ++ b) p)
  end.

(** The first Output queued in handshake channel [k], and the rest. *)
Fixpoint takeHandshake (k : chan) (l : list (chan * Output))
  : option (Output * list (chan * Output)) :=
  match l with
  | [] => None
  | (k', o) :: t =>
    if Nat.eqb k k' then Some (o, t)
    else match takeHandshake k t with
         | Some (o', t') => Some (o', (k', o) :: t')
         | None => None
         end
  end.

(** *** The calls of the process API

    A call returns, or is suspended on a channel until another goroutine
    moves, or panics.  The state is the one reached at that point. *)
Inductive called (A : Type) : Type :=
| Returned (a : A) (p : Process)
| Suspended (at_ : string) (p : Process)
| Panicked (msg : string) (p : Process).
Arguments Returned {A} a p.
Arguments Suspended {A} at_ p.
Arguments Panicked {A} msg p.

Definition checkRunning (p : Process) : option error :=
  if negb (p_cmd p) then Some "magma/proc: process not started"%string
  else if negb (p_cmd_Process p) then Some "magma/proc: process is not running"%string
  else None.

(** The deferred [p.writer <- w] of [Execute]. *)
Definition giveBackWriter {A} (a : A) (p : Process) : called A :=
  match trySend (p_writer p) tt with
  | Sent w => Returned a (with_writer w p)
  | Full => Suspended "p.writer <- w" p
  | SendOnClosed => Panicked "send on closed channel" p
  end.

Definition Execute (s : bytes) (p : Process) : called (option Output * option error) :=
  match checkRunning p with
  | Some e => Returned (None, Some e) p
  | None =>
    match tryRecv (p_ready p) with
    | Empty => Suspended "<-p.ready" p
    | Drained =>
      Returned (None, Some "magma/proc: Execute() called after process has completed"%string) p
    | Got rch q =>
      let p := with_ready q p in
      let '(o, p) := newOutput s p in
      if existsb (Nat.eqb rch) (closedChans p) then Panicked "send on closed channel" p
      else if existsb (fun x => Nat.eqb rch (fst x)) (handshakes p)
      then Suspended "rch <- newOutput(s)" p
      else
        let p := with_handshakes (handshakes p ++ [(rch, o)]) p in
        match tryRecv (p_writer p) with
        | Empty => Suspended "<-p.writer" p
        | Drained => Panicked "invalid memory address or nil pointer dereference" p
        | Got _ w =>
          let p := with_writer w p in
          match Write s p with
          | (Some e, p) => giveBackWriter (None, Some e) p
          | (None, p) =>
            match Write [runCommandChar] p with
            | (Some e, p) => giveBackWriter (None, Some e) p
            | (None, p) =>
              match tryRecv (p_response p) with
              | Empty => Suspended "<-p.response" p
              | Drained =>
                giveBackWriter
                  (None, Some "magma/proc: Execute() response not returned before process completed"%string) p
              | Got r q => giveBackWriter (Some r, None) (with_response q p)
              end
            end
          end
        end
    end
  end.

(** [Quit].  The decoder takes from [p.quit] only in a [select] with a
    [default] branch, so no receiver ever waits on that channel: the send
    of the [select] goes through exactly when the queue has room.
    [Discard(o.Output())] only starts goroutines that drain the Output,
    which leaves the state of the process as it is. *)
Definition Quit (p : Process) : called (option chan * option error) :=
  match checkRunning p with
  | Some e => Returned (None, Some e) p
  | None =>
    let '(q, p) := makeChannel p in
    match trySend (p_quit p) q with
    | SendOnClosed => Panicked "send on closed channel" p
    | Full => Returned (None, Some "magma/proc: Quit() has already been called"%string) p
    | Sent qs =>
      match Execute (str "quit;") (with_quit qs p) with
      | Returned (_, Some e) p => Returned (None, Some e) p
      | Returned (_, None) p => Returned (Some q, None) p
      | Suspended a p => Suspended a p
      | Panicked m p => Panicked m p
      end
    end
  end.

(** The process as [Start] has set it up when the child is launched and the
    decoder is let go: every queue of capacity one and empty, but for the
    writer queue, which holds the pipe. *)
Definition launched : Process :=
  {| p_cmd := true; p_cmd_Process := true;
     p_ready := makeBuffered chan 1;
     p_response := makeBuffered Output 1;
     p_writer := {| buf := [tt]; cap := 1; closed := false |};
     p_status := [];
     p_interrupt := makeBuffered chan 1;
     p_quit := makeBuffered chan 1;
     stdin := []; stdin_err := None; handshakes := []; closedChans := [];
     fresh := 0 |}.

(** *** The decoder [parseStdoutLines] (parse.go) *)

(** The state of the decoder goroutine: the process, the handler [h], the
    local [rch], and the replies the readers of [ReadRequest]s will give, in
    order (a string on [r.Output] or an error on [r.Err]). *)
Record decoder : Type :=
  { proc : Process;
    h : rhandler;
    rch : option chan;
    replies : list (bytes + error) }.

Definition with_proc (x : Process) (d : decoder) : decoder :=
  {| proc := x; h := h d; rch := rch d; replies := replies d |}.

Definition with_h (x : rhandler) (d : decoder) : decoder :=
  {| proc := proc d; h := x; rch := rch d; replies := replies d |}.

Definition with_rch (x : option chan) (d : decoder) : decoder :=
  {| proc := proc d; h := h d; rch := x; replies := replies d |}.

Definition with_replies (x : list (bytes + error)) (d : decoder) : decoder :=
  {| proc := proc d; h := h d; rch := rch d; replies := x |}.

(** The decoder is either in the main loop or inside [parseReadPrompt],
    building the request [r]. *)
Inductive mode : Type :=
| Main
| ReadPrompt (r : ReadRequest).

(** What handling one line leads to. *)
Inductive flow : Type :=
| Next (m : mode)                  (* read the next line *)
| Undone                           (* [done = false]: on to the second switch *)
| Return (err : option error)      (* [parseStdoutLines] returns *)
| Blocked (at_ : string)           (* suspended until another goroutine moves *)
| Panics (msg : string).

(** [p.status <- x] *)
Definition sendStatus (x : Tagged) (d : decoder) : decoder :=
  with_proc (with_status (p_status (proc d) ++ [x]) (proc d)) d.

(** Run a multiplexer operation on [h]. *)
Definition onHandler (o : outcome unit) (d : decoder) : flow * decoder :=
  match o with
  | Done _ h' => (Next Main, with_h h' d)
  | Crash m h' => (Panics m, with_h h' d)
  end.

(** [case TagReady].  ([parseReady] returns a [Ready] whenever it returns
    no error, so the third branch is never taken.) *)
Definition caseTagReady (tagFields : list bytes) (d : decoder) : flow * decoder :=
  match parseReady tagFields with
  | Panic m => (Panics m, d)
  | Ok (_, Some e) => (Return (Some e), d)
  | Ok (None, None) => (Panics "invalid memory address or nil pointer dereference", d)
  | Ok (Some rdy, None) =>
    let d := sendStatus (OfReady rdy) d in
    match ready (h d) with
    | Crash m h' => (Panics m, with_h h' d)
    | Done false h' => (Next Main, with_h h' d)
    | Done true h' =>
      let d := with_h h' d in
      let '(k, p) := makeChannel (proc d) in
      let d := with_rch (Some k) (with_proc p d) in
      match trySend (p_ready (proc d)) k with
      | Sent q => (Next Main, with_proc (with_ready q (proc d)) d)
      | Full => (Blocked "p.ready <- rch", d)
      | SendOnClosed => (Panics "send on closed channel", d)
      end
    end
  end.

Definition caseTagInputReceived (d : decoder) : flow * decoder :=
  let d := sendStatus (OfStatus {| status_tag := TagInputReceived |}) d in
  let default :=
    (Return (Some "expected Output to be waiting"%string), d) in
  match rch d with
  | None => default
  | Some k =>
    match takeHandshake k (handshakes (proc d)) with
    | None => default
    | Some (o, rest) =>
      let d := with_proc (with_handshakes rest (proc d)) d in
      match init o (h d) with
      | Crash m h' => (Panics m, with_h h' d)
      | Done _ h' =>
        let d := with_h h' d in
        let d := with_proc (with_closed (closedChans (proc d) ++ [k]) (proc d)) d in
        let d := with_rch None d in
        match trySend (p_response (proc d)) o with
        | Sent q => (Next Main, with_proc (with_response q (proc d)) d)
        | Full => (Blocked "p.response <- r", d)
        | SendOnClosed => (Panics "send on closed channel", d)
        end
      end
    end
  end.

(** [select { case x := <-ch: close(x); default: }] for the two
    acknowledgment queues. *)
Definition acknowledge (q : buffered chan) (d : decoder)
  : result (buffered chan * decoder) :=
  match tryRecv q with
  | Got k q' =>
    Ok (q', with_proc (with_closed (closedChans (proc d) ++ [k]) (proc d)) d)
  | Drained => Panic "close of nil channel"
  | Empty => Ok (q, d)
  end.

Definition caseTagQuit (d : decoder) : flow * decoder :=
  let d := sendStatus (OfStatus {| status_tag := TagQuit |}) d in
  match acknowledge (p_quit (proc d)) d with
  | Ok (q, d) => (Return None, with_proc (with_quit q (proc d)) d)
  | Panic m => (Panics m, d)
  end.

Definition caseTagInterrupt (d : decoder) : flow * decoder :=
  let d := sendStatus (OfStatus {| status_tag := TagInterrupt |}) d in
  match acknowledge (p_interrupt (proc d)) d with
  | Ok (q, d) => (Next Main, with_proc (with_interrupt q (proc d)) d)
  | Panic m => (Panics m, d)
  end.

Definition caseTagRun (tagFields : list bytes) (d : decoder) : flow * decoder :=
  let d := sendStatus (OfStatus {| status_tag := TagRun |}) d in
  match parseRun tagFields with
  | Panic m => (Panics m, d)
  | Ok (_, _, Some e) => (Return (Some e), d)
  | Ok (chk, seed, None) => onHandler (run chk seed (h d)) d
  end.

Definition caseTagErrorParse (tagFields : list bytes) (d : decoder) : flow * decoder :=
  let d := sendStatus (OfStatus {| status_tag := TagErrorParse |}) d in
  match parseResponse tagFields with
  | Panic m => (Panics m, d)
  | Ok (_, Some e) => (Return (Some (errorf "ERP parsing Response: " e)), d)
  | Ok (chk, None) => onHandler (parseError chk (h d)) d
  end.

(** The switch on status tags. *)
Definition statusSwitch (t : bytes) (tagFields : list bytes) (d : decoder)
  : flow * decoder :=
  if bytes_eqb t TagReady then caseTagReady tagFields d
  else if bytes_eqb t TagInputReceived then caseTagInputReceived d
  else if bytes_eqb t TagReset
  then (Next Main, sendStatus (OfStatus {| status_tag := TagReset |}) d)
  else if bytes_eqb t TagQuit then caseTagQuit d
  else if bytes_eqb t TagInterrupt then caseTagInterrupt d
  else if bytes_eqb t TagRun then caseTagRun tagFields d
  else if bytes_eqb t TagErrorParse then caseTagErrorParse tagFields d
  else (Undone, d).

Definition isLineTag (t : tag) : bool :=
  bytes_eqb t TagOutput || bytes_eqb t TagList || bytes_eqb t TagErrorUser
  || bytes_eqb t TagErrorRuntime || bytes_eqb t TagErrorInternal
  || bytes_eqb t TagErrorPosition || bytes_eqb t TagTraceback
  || bytes_eqb t TagSignature.

(** The switch on output tags.  A tag of neither switch is passed over. *)
Definition outputSwitch (t : bytes) (tagFields : list bytes) (data : bytes)
  (d : decoder) : flow * decoder :=
  if bytes_eqb t TagErrorHistoryPosition then
    match parseHistoryPosition tagFields with
    | Panic m => (Panics m, d)
    | Ok (_, Some e) => (Return (Some e), d)
    | Ok (pos, None) => onHandler (send (OfPosition pos) (h d)) d
    end
  else if isLineTag t then
    match parseOutput t tagFields data with
    | Panic m => (Panics m, d)
    | Ok (_, Some e) => (Return (Some e), d)
    | Ok (None, None) => (Panics "invalid memory address or nil pointer dereference", d)
    | Ok (Some o, None) =>
      let step :=
        if bytes_eqb t TagErrorInternal then onHandler (internalError (h d)) d
        else (Next Main, d) in
      match step with
      | (Next _, d) => onHandler (send (OfLine o) (h d)) d
      | stopped => stopped
      end
    end
  else if bytes_eqb t TagErrorSyntax then
    onHandler
      (send (OfLine {| line_tag := t; Continuation := false; Indent := 0; Data := [] |})
         (h d)) d
  else if bytes_eqb t TagReadPrompt || bytes_eqb t TagReadIntPrompt then
    let '(out, p) := makeChannel (proc d) in
    let '(err, p) := makeChannel p in
    (Next (ReadPrompt {| read_tag := t; Prompt := data; Output_ := out; Err := err |}),
     with_proc p d)
  else (Next Main, d).

(** One turn of the loop of [parseReadPrompt], on a line already read. *)
Definition readPromptLine (r : ReadRequest) (output : bytes) (d : decoder)
  : flow * decoder :=
  let tl := parseTagLine output in
  match tagName tl with
  | None => (Return (Some "expected tag line (RD_PR or RD_IN tag line)"%string), d)
  | Some t =>
    if bytes_eqb t TagReadPrompt || bytes_eqb t TagReadIntPrompt then
      match index (tagFields tl) 0 with
      | Panic m => (Panics m, d)
      | Ok f0 =>
        let prompt :=
          if bytes_eqb f0 (str "C") then Prompt r else Prompt r ++ newline in
        (Next (ReadPrompt {| read_tag := read_tag r; Prompt := prompt ++ data tl;
                             Output_ := Output_ r; Err := Err r |}), d)
      end
    else if bytes_eqb t TagReadInput || bytes_eqb t TagReadIntInput then
      match send (OfReadRequest r) (h d) with
      | Crash m h' => (Panics m, with_h h' d)
      | Done _ h' =>
        let d := with_h h' d in
        match replies d with
        | [] => (Blocked "select on r.Output and r.Err", d)
        | inr e :: rest => (Return (Some e), with_replies rest d)
        | inl response :: rest =>
          let d := with_replies rest d in
          match tryRecv (p_writer (proc d)) with
          | Empty => (Blocked "<-p.writer", d)
          | Drained => (Panics "invalid memory address or nil pointer dereference", d)
          | Got _ w =>
            let p := with_writer w (proc d) in
            let '(_, p) := Write response p in
            let '(err, p) := Write newline p in
            match trySend (p_writer p) tt with
            | Full => (Blocked "p.writer <- w", with_proc p d)
            | SendOnClosed => (Panics "send on closed channel", with_proc p d)
            | Sent w =>
              let d := with_proc (with_writer w p) d in
              match err with
              | Some e => (Return (Some e), d)
              | None => (Next Main, d)
              end
            end
          end
        end
      end
    else (Return (Some "expected RD_PR or RD_IN tag"%string), d)
  end.

(** One line of output, in either loop. *)
Definition handleLine (m : mode) (output : bytes) (d : decoder) : flow * decoder :=
  match m with
  | ReadPrompt r => readPromptLine r output d
  | Main =>
    let tl := parseTagLine output in
    match tagName tl with
    | None => (Next Main, d)
    | Some t =>
      match statusSwitch t (tagFields tl) d with
      | (Undone, d) => outputSwitch t (tagFields tl) (data tl) d
      | stopped => stopped
      end
    end
  end.

(** The lines of [ch] in order; the channel is closed after the last. *)
Fixpoint decodeLines (m : mode) (lines : list bytes) (d : decoder) : flow * decoder :=
  match lines with
  | [] =>
    (Return (Some match m with
                  | Main => "waiting for tag line"%string
                  | ReadPrompt _ => "expected tag line (RD or RD_END)"%string
                  end), d)
  | l :: rest =>
    match handleLine m l d with
    | (Next m', d') => decodeLines m' rest d'
    | stopped => stopped
    end
  end.

(** [parseStdoutLines]: bind the startup Output, publish it, open the first
    response, then decode. *)
Definition parseStdoutLines (lines : list bytes) (p : Process)
  (replies : list (bytes + error)) : flow * decoder :=
  let d := {| proc := p; h := newHandler; rch := None; replies := replies |} in
  let '(o, p) := newOutput (str "<startup>") (proc d) in
  let d := with_proc p d in
  match init o (h d) with
  | Crash m h' => (Panics m, with_h h' d)
  | Done _ h' =>
    let d := with_h h' d in
    match trySend (p_response (proc d)) o with
    | Full => (Blocked "p.response <- r", d)
    | SendOnClosed => (Panics "send on closed channel", d)
    | Sent q =>
      let d := with_proc (with_response q (proc d)) d in
      match start (h d) with
      | Crash m h' => (Panics m, with_h h' d)
      | Done _ h' => decodeLines Main lines (with_h h' d)
      end
    end
  end.

End Proc.

(** ** Package [parse]: the line consumer and the state-machine parsers *)

Module Parse.
Import Go.

(** *** The line consumer (line_consumer.go)

    The source channel is the list of lines still to come; the sender closes
    it after the last one. *)
Record lineConsumer : Type :=
  { source : list bytes; line : bytes; processed : bool }.

Definition newLineConsumer (src : list bytes) : lineConsumer :=
  {| source := src; line := []; processed := true |}.

Definition fetchNextLine (p : lineConsumer) : bool * lineConsumer :=
  if processed p then
    match source p with
    | [] => (false, p)
    | x :: rest =>
      (true, {| source := rest; line := TrimSpace x; processed := false |})
    end
  else (true, p).

Definition consumeLine (p : lineConsumer) : lineConsumer :=
  {| source := source p; line := line p; processed := true |}.

Definition leftParam : bytes := str "(".
Definition rightParam : bytes := str ")".

(** How a parser goroutine ends: it closes its output channel, or it
    panics.  [Unfinished] is the driver stopped by its bound on the number
    of transitions. *)
Inductive ran (P : Type) : Type :=
| Closed (p : P)
| Crashed (msg : string) (p : P)
| Unfinished (p : P).
Arguments Closed {P} p.
Arguments Crashed {P} msg p.
Arguments Unfinished {P} p.

(** What a state function does: it returns the next state function ([None]
    for [nil]) or panics.  A loop [for p.fetchNextLine() { ... }] inside a
    state function takes one turn per call: to take the next turn the
    state function returns itself. *)
Inductive moved (St P : Type) : Type :=
| Goto (next : option St) (p : P)
| Panicking (msg : string) (p : P).
Arguments Goto {St P} next p.
Arguments Panicking {St P} msg p.

(** [for state != nil { state = state(p) }], at most [fuel] transitions. *)
Fixpoint drive {St P} (step : St -> P -> moved St P) (fuel : nat)
  (state : option St) (p : P) : ran P :=
  match state with
  | None => Closed p
  | Some st =>
    match fuel with
    | O => Unfinished p
    | S k =>
      match step st p with
      | Goto next p' => drive step k next p'
      | Panicking m p' => Crashed m p'
      end
    end
  end.

(** The bound the two parsers are driven with.  It is never what stops
    them (lemmas [tracebackRun_finishes] and [ep_run_finishes]): every
    transition but two takes a line off the source, and those two (into the
    error state, and from the parameters to the location of a traceback)
    are followed by one that does, or by the end. *)
Definition transitionBound (c : lineConsumer) : nat := 2 * length (source c) + 6.

(** *** The traceback parser (tb.go) *)

Record ParamValue : Type := { pv_Name : bytes; pv_Value : bytes }.

Record Location : Type := { loc_File : bytes; loc_Row : Z; loc_Glue : bytes }.

Record Traceback : Type :=
  { Index : Z;
    Current : bool;
    Name : bytes;
    Params : list ParamValue;
    Location_ : Location }.

Definition NoIndex : Z := (-1)%Z.

Definition zeroLocation : Location := {| loc_File := []; loc_Row := 0; loc_Glue := [] |}.

Definition zeroTraceback : Traceback :=
  {| Index := 0; Current := false; Name := []; Params := []; Location_ := zeroLocation |}.

(** The values sent on the output channel are records and errors. *)
Record TracebackParser : Type :=
  { tb_lines : lineConsumer;
    tb_err : option error;
    tb_current : Traceback;
    tb_output : list (Traceback + error) }.

Definition tb_with_lines (c : lineConsumer) (p : TracebackParser) : TracebackParser :=
  {| tb_lines := c; tb_err := tb_err p; tb_current := tb_current p;
     tb_output := tb_output p |}.

Definition tb_with_err (e : option error) (p : TracebackParser) : TracebackParser :=
  {| tb_lines := tb_lines p; tb_err := e; tb_current := tb_current p;
     tb_output := tb_output p |}.

Definition tb_with_current (t : Traceback) (p : TracebackParser) : TracebackParser :=
  {| tb_lines := tb_lines p; tb_err := tb_err p; tb_current := t;
     tb_output := tb_output p |}.

Definition tb_emit (p : TracebackParser) : TracebackParser :=
  {| tb_lines := tb_lines p; tb_err := tb_err p; tb_current := tb_current p;
     tb_output := tb_output p ++ [inl (tb_current p)] |}.

Inductive tracebackState : Type :=
| parseTracebackSt
| parseTracebackParamSt
| parseTracebackLocationSt
| parseTracebackErrorSt.

Definition tb_fetch (p : TracebackParser) : bool * TracebackParser :=
  let '(ok, c) := fetchNextLine (tb_lines p) in (ok, tb_with_lines c p).

Definition tb_consume (p : TracebackParser) : TracebackParser :=
  tb_with_lines (consumeLine (tb_lines p)) p.

Definition parseTraceback (p : TracebackParser)
  : moved tracebackState TracebackParser :=
  let '(ok, p) := tb_fetch p in
  if negb ok then Goto None p else
  let l := line (tb_lines p) in
  let name := TrimSuffix l leftParam in
  if length name <? length l then
    let p := tb_with_current
               {| Index := NoIndex; Current := false; Name := name; Params := [];
                  Location_ := zeroLocation |} p in
    let levelName := TrimPrefix name (str "#") in
    if length levelName <? length name then
      let levelNameFields := Fields levelName in
      if negb (length levelNameFields =? 2)
      then (* the result of [fmt.Errorf] is dropped: [p.err] stays as it was *)
        Goto (Some parseTracebackErrorSt) p
      else
        let f0 := nth 0 levelNameFields [] in
        let f1 := nth 1 levelNameFields [] in
        match Atoi f0 with
        | (_, Some e) => Goto (Some parseTracebackErrorSt) (tb_with_err (Some e) p)
        | (index, None) =>
          let nameWithoutMarker := TrimPrefix f1 (str "*") in
          let p := tb_with_current
                     {| Index := index;
                        Current := length nameWithoutMarker <? length f1;
                        Name := nameWithoutMarker;
                        Params := [];
                        Location_ := zeroLocation |} p in
          Goto (Some parseTracebackParamSt) (tb_consume p)
        end
    else Goto (Some parseTracebackParamSt) (tb_consume p)
  else Goto (Some parseTracebackSt) (tb_consume p).

Definition parseTracebackParam (p : TracebackParser)
  : moved tracebackState TracebackParser :=
  let '(ok, p) := tb_fetch p in
  if negb ok then Panicking "should not get here" p else
  let l := line (tb_lines p) in
  if HasPrefix l rightParam then Goto (Some parseTracebackLocationSt) p else
  match SplitN2 l (str ": ") with
  | [f0; f1] =>
    let cur := tb_current p in
    let p := tb_with_current
               {| Index := Index cur; Current := Current cur; Name := Name cur;
                  Params := Params cur
                            ++ [{| pv_Name := f0; pv_Value := TrimSuffix f1 (str ",") |}];
                  Location_ := Location_ cur |} p in
    Goto (Some parseTracebackParamSt) (tb_consume p)
  | _ =>
    Goto (Some parseTracebackErrorSt)
         (tb_with_err (Some "expected a split of 2"%string) p)
  end.

Definition parseTracebackLocation (p : TracebackParser)
  : moved tracebackState TracebackParser :=
  let '(ok, p) := tb_fetch p in
  if negb ok then Panicking "should not get here" p else
  let l := line (tb_lines p) in
  if HasPrefix l rightParam then
    let p := tb_consume p in
    match SplitN2 l (str " at ") with
    | [_; loc] =>
      match LastIndex loc (str ":") with
      | None =>
        Goto (Some parseTracebackErrorSt)
             (tb_with_err (Some "expected ':', but did not find one"%string) p)
      | Some index =>
        match Atoi (skipn (index + 1) loc) with
        | (_, Some e) => Goto (Some parseTracebackErrorSt) (tb_with_err (Some e) p)
        | (row, None) =>
          let cur := tb_current p in
          let p := tb_with_current
                     {| Index := Index cur; Current := Current cur; Name := Name cur;
                        Params := Params cur;
                        Location_ := {| loc_File := firstn index loc; loc_Row := row;
                                        loc_Glue := [] |} |} p in
          Goto (Some parseTracebackSt) (tb_emit p)
        end
      end
    | _ => Goto (Some parseTracebackSt) (tb_emit p)
    end
  else Goto (Some parseTracebackLocationSt) (tb_consume p).

Definition parseTracebackError (p : TracebackParser)
  : moved tracebackState TracebackParser :=
  match tb_err p with
  | None => Panicking "parser error triggered but error value not set" p
  | Some e =>
    Goto None
         {| tb_lines := tb_lines p; tb_err := tb_err p; tb_current := tb_current p;
            tb_output := tb_output p ++ [inr e] |}
  end.

Definition tracebackStep (st : tracebackState) (p : TracebackParser)
  : moved tracebackState TracebackParser :=
  match st with
  | parseTracebackSt => parseTraceback p
  | parseTracebackParamSt => parseTracebackParam p
  | parseTracebackLocationSt => parseTracebackLocation p
  | parseTracebackErrorSt => parseTracebackError p
  end.

(** [start] followed by [run], on a parser whose [err] is [err0] (a
    [&TracebackParser{}] has none). *)
Definition tracebackRun (err0 : option error) (consumer : lineConsumer)
  : ran TracebackParser :=
  drive tracebackStep (transitionBound consumer) (Some parseTracebackSt)
    {| tb_lines := consumer; tb_err := err0; tb_current := zeroTraceback;
       tb_output := [] |}.

(** *** The error position parser (epo.go, util.go) *)

Definition matchCommaRune (r : rune) : bool := (r =? 44)%N.

(** The integers [row] and [col] are returned beside the error, as in Go. *)
Definition extractRowColumnFromFieldsSplit (fields : list bytes)
  : result (Z * Z * option error) :=
  if negb (len fields =? 2)%Z
  then Ok (0%Z, 0%Z,
           Some "expect 2 elements in expansion of line/column location data"%string)
  else
    bind (index fields 0) (fun f0 =>
    let lineSplit := Fields f0 in
    bind (index lineSplit (len lineSplit - 1)) (fun last =>
    let '(row, err) := Atoi last in
    match err with
    | Some e => Ok (row, 0%Z, Some e)
    | None =>
      bind (index fields 1) (fun f1 =>
      bind (index (Fields f1) 1) (fun c =>
      let '(col, err) := Atoi c in
      Ok (row, col, err)))
    end)).

Definition extractRowColumnFromString (input : bytes)
  : result (Z * Z * option error) :=
  extractRowColumnFromFieldsSplit (FieldsFunc input matchCommaRune).

(** [extractFileRowColumn].  The error of the length test is assigned and
    not returned: the last assignment overwrites it. *)
Definition extractFileRowColumn (input : bytes)
  : result (bytes * Z * Z * option error) :=
  let commaSplit := FieldsFunc input matchCommaRune in
  let err : option error :=
    if (len commaSplit <? 3)%Z
    then Some "expected at least 3 (file, line, column) in comma split"%string
    else None in
  bind (index commaSplit 0) (fun file =>
  bind (slice commaSplit (len commaSplit - 2) (len commaSplit)) (fun last2 =>
  bind (extractRowColumnFromFieldsSplit last2) (fun '(row, col, err) =>
  Ok (file, row, col, err)))).

(** The records live in a store and are known by their address, so that the
    two pointers of the parser, and the [LocatedIn] links, may name the same
    record. *)
Abbreviation ptr := nat (only parsing).

Record ErrorPosition : Type :=
  { File : bytes;
    Eval : bool;
    Row : Z;
    Column : Z;
    SourceFragment : bytes;
    LocatedIn : option ptr }.

Definition zeroErrorPosition : ErrorPosition :=
  {| File := []; Eval := false; Row := 0; Column := 0; SourceFragment := [];
     LocatedIn := None |}.

Definition store := list ErrorPosition.

(** [&ErrorPosition{...}] *)
Definition alloc (n : ErrorPosition) (m : store) : ptr * store :=
  (length m, m ++ [n]).

Fixpoint update (a : ptr) (f : ErrorPosition -> ErrorPosition) (m : store) : store :=
  match m, a with
  | [], _ => []
  | n :: rest, O => f n :: rest
  | n :: rest, S a' => n :: update a' f rest
  end.

Definition setSourceFragment (x : bytes) (n : ErrorPosition) : ErrorPosition :=
  {| File := File n; Eval := Eval n; Row := Row n; Column := Column n;
     SourceFragment := x; LocatedIn := LocatedIn n |}.

Definition setLocatedIn (x : option ptr) (n : ErrorPosition) : ErrorPosition :=
  {| File := File n; Eval := Eval n; Row := Row n; Column := Column n;
     SourceFragment := SourceFragment n; LocatedIn := x |}.

Record ErrorPositionParser : Type :=
  { ep_lines : lineConsumer;
    ep_err : option error;
    current : option ptr;
    currentSub : option ptr;
    ep_output : list (ptr + error);
    heap : store }.

Definition ep_with_lines (c : lineConsumer) (p : ErrorPositionParser) :=
  {| ep_lines := c; ep_err := ep_err p; current := current p;
     currentSub := currentSub p; ep_output := ep_output p; heap := heap p |}.

Definition ep_with_err (e : option error) (p : ErrorPositionParser) :=
  {| ep_lines := ep_lines p; ep_err := e; current := current p;
     currentSub := currentSub p; ep_output := ep_output p; heap := heap p |}.

Definition ep_with_current (x : option ptr) (p : ErrorPositionParser) :=
  {| ep_lines := ep_lines p; ep_err := ep_err p; current := x;
     currentSub := currentSub p; ep_output := ep_output p; heap := heap p |}.

Definition ep_with_currentSub (x : option ptr) (p : ErrorPositionParser) :=
  {| ep_lines := ep_lines p; ep_err := ep_err p; current := current p;
     currentSub := x; ep_output := ep_output p; heap := heap p |}.

Definition ep_with_heap (m : store) (p : ErrorPositionParser) :=
  {| ep_lines := ep_lines p; ep_err := ep_err p; current := current p;
     currentSub := currentSub p; ep_output := ep_output p; heap := m |}.

Definition ep_send (x : ptr + error) (p : ErrorPositionParser) :=
  {| ep_lines := ep_lines p; ep_err := ep_err p; current := current p;
     currentSub := currentSub p; ep_output := ep_output p ++ [x]; heap := heap p |}.

Definition ep_fetch (p : ErrorPositionParser) : bool * ErrorPositionParser :=
  let '(ok, c) := fetchNextLine (ep_lines p) in (ok, ep_with_lines c p).

Definition ep_consume (p : ErrorPositionParser) : ErrorPositionParser :=
  ep_with_lines (consumeLine (ep_lines p)) p.

Inductive errorPositionState : Type :=
| parseTopLevelSt
| parseSourceFragmentSt
| parseLocatedInExpressionSt
| parseErrorPositionErrorSt.

(** What a state function makes of the line before it: not a line of its
    kind, a line it fails on, or the record the line describes. *)
Inductive reading : Type :=
| NotMine
| Fails (e : error)
| Describes (n : ErrorPosition).

Definition evalPosition (row col : Z) : ErrorPosition :=
  {| File := []; Eval := true; Row := row; Column := col; SourceFragment := [];
     LocatedIn := None |}.

Definition filePosition (file : bytes) (row col : Z) : ErrorPosition :=
  {| File := file; Eval := false; Row := row; Column := col; SourceFragment := [];
     LocatedIn := None |}.

(** The chain of tests of [parseTopLevel] on the current line. *)
Definition readTopLevel (pline : bytes) : result reading :=
  let l := TrimPrefix pline (str "In eval expression, ") in
  if length l <? length pline then
    bind (slice_to l (len l - 1)) (fun arg =>
    bind (extractRowColumnFromString arg) (fun '(row, col, err) =>
    match err with
    | Some e => Ok (Fails e)
    | None => Ok (Describes (evalPosition row col))
    end))
  else
    let l := TrimPrefix pline (str "In file ") in
    if length l <? length pline then
      bind (extractFileRowColumn l) (fun '(file, row, col, err) =>
      match err with
      | Some e => Ok (Fails e)
      | None =>
        bind (slice file 1 (len file - 1)) (fun name =>
        Ok (Describes (filePosition name row col)))
      end)
    else Ok NotMine.

(** The chain of tests of [parseLocatedInExpression] on the current line. *)
Definition readLocatedIn (pline : bytes) : result reading :=
  let l := TrimPrefix pline (str "Located in") in
  if length l <? length pline then
    let l2 := TrimPrefix l (str " enclosing eval expression, at ") in
    if length l2 <? length l then
      bind (slice_to l2 (len l2 - 1)) (fun arg =>
      bind (extractRowColumnFromString arg) (fun '(row, col, err) =>
      match err with
      | Some e => Ok (Fails e)
      | None => Ok (Describes (evalPosition row col))
      end))
    else
      let l2 := TrimPrefix l (str " file ") in
      if length l2 <? length l then
        bind (slice_to l2 (len l2 - 1)) (fun arg =>
        bind (extractFileRowColumn arg) (fun '(file, row, col, err) =>
        match err with
        | Some e => Ok (Fails e)
        | None =>
          bind (slice file 1 (len file - 1)) (fun name =>
          Ok (Describes (filePosition name row col)))
        end))
      else if bytes_eqb l (str ":") then Ok (Describes zeroErrorPosition)
      else Ok (Fails "`Located in` line with unrecognised suffix"%string)
  else Ok NotMine.

Definition parseTopLevel (p : ErrorPositionParser)
  : moved errorPositionState ErrorPositionParser :=
  let '(ok, p) := ep_fetch p in
  if negb ok then Goto None p else
  match readTopLevel (line (ep_lines p)) with
  | Panic m => Panicking m p
  | Ok NotMine => Goto None p
  | Ok (Fails e) => Goto (Some parseErrorPositionErrorSt) (ep_with_err (Some e) p)
  | Ok (Describes n) =>
    let '(a, m) := alloc n (heap p) in
    let p := ep_with_current (Some a) (ep_with_heap m p) in
    Goto (Some parseSourceFragmentSt) (ep_consume p)
  end.

Definition parseSourceFragment (p : ErrorPositionParser)
  : moved errorPositionState ErrorPositionParser :=
  let '(ok, p) := ep_fetch p in
  let pline := line (ep_lines p) in
  let l := TrimPrefix pline (str ">> ") in
  if ok && (length l <? length pline) then
    match (match currentSub p with Some a => Some a | None => current p end) with
    | None => Panicking "invalid memory address or nil pointer dereference" p
    | Some a =>
      let p := ep_with_heap (update a (setSourceFragment l) (heap p)) p in
      Goto (Some parseLocatedInExpressionSt) (ep_consume p)
    end
  else
    Goto (Some parseErrorPositionErrorSt)
         (ep_with_err (Some "expected source fragment line"%string) p).

Definition parseLocatedInExpression (p : ErrorPositionParser)
  : moved errorPositionState ErrorPositionParser :=
  let '(ok, p) := ep_fetch p in
  if negb ok then Goto None p else
  match readLocatedIn (line (ep_lines p)) with
  | Panic m => Panicking m p
  | Ok NotMine => Goto None p
  | Ok (Fails e) => Goto (Some parseErrorPositionErrorSt) (ep_with_err (Some e) p)
  | Ok (Describes n) =>
    let '(s, m) := alloc n (heap p) in
    let p := ep_with_heap m p in
    match current p with
    | None => Panicking "invalid memory address or nil pointer dereference" p
    | Some cur =>
      let linked :=
        match LocatedIn (nth cur (heap p) zeroErrorPosition) with
        | None => Ok (update cur (setLocatedIn (Some s)) (heap p))
        | Some _ =>
          match currentSub p with
          | None => Panic "invalid memory address or nil pointer dereference"
          | Some sub => Ok (update sub (setLocatedIn (Some s)) (heap p))
          end
        end in
      match linked with
      | Panic msg => Panicking msg p
      | Ok m =>
        let p := ep_with_currentSub (Some s) (ep_with_heap m p) in
        Goto (Some parseSourceFragmentSt) (ep_consume p)
      end
    end
  end.

Definition parseErrorPositionError (p : ErrorPositionParser)
  : moved errorPositionState ErrorPositionParser :=
  match ep_err p with
  | None => Panicking "parser error triggered but error value not set" p
  | Some e => Goto None (ep_send (inr e) p)
  end.

Definition errorPositionStep (st : errorPositionState) (p : ErrorPositionParser)
  : moved errorPositionState ErrorPositionParser :=
  match st with
  | parseTopLevelSt => parseTopLevel p
  | parseSourceFragmentSt => parseSourceFragment p
  | parseLocatedInExpressionSt => parseLocatedInExpression p
  | parseErrorPositionErrorSt => parseErrorPositionError p
  end.

(** [&ErrorPositionParser{}], before [start] gives it its lines. *)
Definition newErrorPositionParser : ErrorPositionParser :=
  {| ep_lines := newLineConsumer []; ep_err := None; current := None;
     currentSub := None; ep_output := []; heap := [] |}.

(** [start]: the parser gets its line consumer and a new output channel and
    keeps its other fields. *)
Definition ep_start (consumer : lineConsumer) (p : ErrorPositionParser)
  : ErrorPositionParser :=
  {| ep_lines := consumer; ep_err := ep_err p; current := current p;
     currentSub := currentSub p; ep_output := []; heap := heap p |}.

(** [run]: the state machine, then the record if there is one and no error,
    then [close(p.output)]. *)
Definition ep_run (p : ErrorPositionParser) : ran ErrorPositionParser :=
  match drive errorPositionStep (transitionBound (ep_lines p))
          (Some parseTopLevelSt) p with
  | Closed p =>
    match current p, ep_err p with
    | Some a, None => Closed (ep_send (inl a) p)
    | _, _ => Closed p
    end
  | other => other
  end.

(** The addresses met from [a] along the [LocatedIn] links, at most [fuel]
    of them. *)
Fixpoint chain (m : store) (fuel : nat) (a : ptr) : list ptr :=
  match fuel with
  | O => []
  | S k =>
    a :: match nth_error m a with
         | Some n =>
           match LocatedIn n with
           | Some b => chain m k b
           | None => []
           end
         | None => []
         end
  end.

End Parse.

(** ** Package [proc], continued: signals (proc.go) *)

Module Signals.
Import Go Proc.

(** [os.Interrupt] and [os.Kill]. *)
Inductive signal : Type :=
| os_Interrupt
| os_Kill.

(** The child process as the operating system has it: the signals
    delivered to it, and what [p.cmd.Process.Signal] returns (an error once
    the child has finished). *)
Record child : Type :=
  { delivered : list signal; signal_err : option error }.

Definition Signal (s : signal) (k : child) : option error * child :=
  match signal_err k with
  | Some e => (Some e, k)
  | None => (None, {| delivered := delivered k ++ [s]; signal_err := None |})
  end.

(** [InterruptExecution].  As for [Quit], the decoder takes from
    [p.interrupt] only in a [select] with a [default] branch, so the send of
    the [select] goes through exactly when the queue has room. *)
Definition InterruptExecution (p : Process) (k : child)
  : called (option chan * option error) * child :=
  match checkRunning p with
  | Some e => (Returned (None, Some e) p, k)
  | None =>
    let '(c, p) := makeChannel p in
    match trySend (p_interrupt p) c with
    | SendOnClosed => (Panicked "send on closed channel" p, k)
    | Full =>
      (Returned (None, Some "magma/proc: InterruptExecution() has already been called"%string) p,
       k)
    | Sent q =>
      let p := with_interrupt q p in
      match Signal os_Interrupt k with
      | (Some e, k) => (Returned (None, Some e) p, k)
      | (None, k) => (Returned (Some c, None) p, k)
      end
    end
  end.

Definition Kill (p : Process) (k : child) : option error * child :=
  match checkRunning p with
  | Some e => (Some e, k)
  | None => Signal os_Kill k
  end.

End Signals.

(** ** Package [proc], continued: writing lines out (write.go) *)

Module Writers.
Import Go Proc.

(** An [io.Writer]: what has been written to it, and how many more bytes
    it takes before it fails ([None]: it never fails, as a [bytes.Buffer]). *)
Record Writer : Type := { sink : bytes; room : option nat }.

(** [w.Write(b)]: the number of bytes written, the error, the writer. *)
Definition io_Write (b : bytes) (w : Writer) : Z * option error * Writer :=
  match room w with
  | None => (len b, None, {| sink := sink w ++ b; room := None |})
  | Some n =>
    if length b <=? n
    then (len b, None, {| sink := sink w ++ b; room := Some (n - length b) |})
    else (Z.of_nat n, Some "short write"%string,
          {| sink := sink w ++ firstn n b; room := Some 0 |})
  end.

Definition nl : bytes := [ascii_of_N 10].
Definition indent : bytes := str "    ".

(** The loop [for i := 0; i < o.Indent; i++] of [WriteTo], with [turns] the
    number of turns left. *)
Fixpoint writeIndent (turns : nat) (n : Z) (w : Writer) : Z * option error * Writer :=
  match turns with
  | O => (n, None, w)
  | S k =>
    let '(c, err, w) := io_Write indent w in
    let n := (n + c)%Z in
    match err with
    | Some e => (n, Some e, w)
    | None => writeIndent k n w
    end
  end.

(** [WriteTo] of a [Line] *)
Definition WriteTo (o : Line) (w : Writer) : Z * option error * Writer :=
  let '(c, err, w) :=
    if negb (Continuation o) then io_Write nl w else (0%Z, None, w) in
  match err with
  | Some e => (c, Some e, w)
  | None =>
    let '(n, err, w) :=
      if (0 <? Indent o)%Z then writeIndent (Z.to_nat (Indent o)) 0 w
      else (0%Z, None, w) in
    match err with
    | Some e => (n, Some e, w)
    | None =>
      let '(c, err, w) := io_Write (Data o) w in
      ((n + c)%Z, err, w)
    end
  end.

Definition setContinuation (b : bool) (o : Line) : Line :=
  {| line_tag := line_tag o; Continuation := b; Indent := Indent o; Data := Data o |}.

(** [FlushTaggedToWriter] on the values of [ch] in order, the channel closed
    after the last.  The [Line]s are reached through pointers: the result
    gives them as the call leaves them.  Of the implementations of [Tagged]
    only [*Line] has a [WriteTo].  (The type and value the message of the
    error ends with are left out.) *)
Fixpoint flushFrom (first : bool) (xs : list Tagged) (w : Writer)
  : option error * Writer * list Tagged :=
  match xs with
  | [] => (None, w, [])
  | OfLine x :: rest =>
    let x := if first then setContinuation true x else x in
    let '(_, _, w) := WriteTo x w in
    let '(err, w, rest) := flushFrom false rest w in
    (err, w, OfLine x :: rest)
  | other :: rest =>
    (Some "given type does not implement WriterTo"%string, w, other :: rest)
  end.

Definition FlushTaggedToWriter (ch : list Tagged) (w : Writer)
  : option error * Writer * list Tagged :=
  flushFrom true ch w.

End Writers.

(** ** Package [parse], continued: the dispatcher (util.go) *)

Module Dispatch.
Import Go Proc Parse.

(** Interface [TaggedParser], as far as the dispatcher and the line source
    look at it: the method [Accepts]. *)
Record TaggedParser : Type := { Accepts : Tagged -> bool }.

Definition tracebackParser : TaggedParser :=
  {| Accepts := fun x => bytes_eqb (Tag x) TagTraceback |}.

Definition errorPositionParser : TaggedParser :=
  {| Accepts := fun x => bytes_eqb (Tag x) TagErrorPosition |}.

(** [taggedOutputSourceForLineConsumer]: of the values sent on [source],
    the data of the [Line]s that [p] accepts, in order. *)
Fixpoint taggedOutputSourceForLineConsumer (source : list Tagged) (p : TaggedParser)
  : list bytes :=
  match source with
  | [] => []
  | OfLine x :: rest =>
    if Accepts p (OfLine x) then Data x :: taggedOutputSourceForLineConsumer rest p
    else taggedOutputSourceForLineConsumer rest p
  | _ :: rest => taggedOutputSourceForLineConsumer rest p
  end.

(** What [ParseTagged] does, in program order. *)
Inductive action : Type :=
| RunParser (i : nat)      (* src = make(...); parsers[i].Run(src); cur = parsers[i] *)
| Feed (x : Tagged)        (* src <- x *)
| EndRun                   (* close(src); <-done *)
| Pass (x : Tagged)        (* out <- x *)
| CloseOut.                (* close(out) *)

(** [for _, p := range parsers { if p.Accepts(x) ... }] *)
Fixpoint firstAccepting (parsers : list TaggedParser) (i : nat) (x : Tagged)
  : option (nat * TaggedParser) :=
  match parsers with
  | [] => None
  | p :: rest =>
    if Accepts p x then Some (i, p) else firstAccepting rest (S i) x
  end.

(** The loop [for x := range in] of [ParseTagged], and what follows it. *)
Fixpoint dispatch (parsers : list TaggedParser) (cur : option TaggedParser)
  (input : list Tagged) : list action :=
  match input with
  | [] =>
    match cur with
    | Some _ => [EndRun; CloseOut]
    | None => [CloseOut]
    end
  | x :: rest =>
    let choose :=
      match firstAccepting parsers 0 x with
      | Some (i, p) => RunParser i :: dispatch parsers (Some p) rest
      | None => Pass x :: dispatch parsers None rest
      end in
    match cur with
    | Some p =>
      if Accepts p x then Feed x :: dispatch parsers (Some p) rest
      else EndRun :: choose
    | None => choose
    end
  end.

Definition ParseTagged (input : list Tagged) (parsers : list TaggedParser)
  : list action :=
  dispatch parsers None input.

End Dispatch.

(* ================================================================== *)
(** * Part II.  The properties stated *)
(* ================================================================== *)

(** ** Of runes and fields *)

Module Utf8Spec.
Import Go.

Definition isContByte (c : ascii) : Prop := isCont (byteval c) = true.

(** [c] is made of whole runes of [c ++ t], as [range] meets them, and none
    of them satisfies [f]. *)
Inductive wholeRunes (f : rune -> bool) : bytes -> bytes -> Prop :=
| wr_nil : forall t, wholeRunes f [] t
| wr_cons : forall c t,
    c <> [] ->
    snd (DecodeRune (c ++ t)) <= length c ->
    f (fst (DecodeRune (c ++ t))) = false ->
    wholeRunes f (skipn (snd (DecodeRune (c ++ t))) c) t ->
    wholeRunes f c t.

Definition wholeField (f : rune -> bool) (w : bytes) : Prop :=
  w <> [] /\ wholeRunes f w [].

End Utf8Spec.

(** ** Of the response multiplexer *)

Module MultiplexerSpec.
Import Go Proc.

Definition closedIn (k : chan) (tr : list event) : Prop := In (CloseResponse k) tr.

(** No value is sent on a response channel after the channel was closed. *)
Definition noSendAfterClose (tr : list event) : Prop :=
  forall before after k t,
    tr = before ++ Send k t :: after -> ~ closedIn k before.

(** No response channel is closed twice. *)
Definition noCloseAfterClose (tr : list event) : Prop :=
  forall before after k,
    tr = before ++ CloseResponse k :: after -> ~ closedIn k before.

(** The current response is open, and it is the only open one: every other
    response channel made so far has been closed. *)
Definition currentIsOpen (h : rhandler) : Prop :=
  forall x, c h = Some x -> ch x < nextch h /\ ~ closedIn (ch x) (trace h).

Definition onlyCurrentIsOpen (h : rhandler) : Prop :=
  forall k, k < nextch h -> ~ closedIn k (trace h) ->
            exists x, c h = Some x /\ ch x = k.

Record wellFormed (h : rhandler) : Prop :=
  { wf_made : forall k, closedIn k (trace h) -> k < nextch h;
    wf_current : currentIsOpen h;
    wf_others : onlyCurrentIsOpen h;
    wf_sends : noSendAfterClose (trace h);
    wf_closes : noCloseAfterClose (trace h) }.

(** The events [ready] adds: the close of the current response, then the
    close of the current Output. *)
Definition closesOf (h : rhandler) : list event :=
  match c h with Some x => [CloseResponse (ch x)] | None => [] end
  ++ match r h with Some o => [CloseOutput (o_ch o)] | None => [] end.

Definition hasOutput (h : rhandler) : bool :=
  match r h with Some _ => true | None => false end.

End MultiplexerSpec.

(** ** Of the process API *)

Module ProcessSpec.
Import Go Proc.

(** The process just launched, with a handshake offer waiting, as after the
    first RDY. *)
Definition offered : Process :=
  with_ready {| buf := [7]; cap := 1; closed := false |} launched.

(** The first [Quit] registers channel 0, takes the offer, writes the
    command and the run byte and waits for the Output; the second finds the
    registration pending. *)
Definition afterFirstQuit : Process :=
  match Quit offered with
  | Returned _ p => p
  | Suspended _ p => p
  | Panicked _ p => p
  end.

End ProcessSpec.

(** ** Of the drivers of the parsers *)

Module DriverSpec.
Import Go Parse.

(** The lines a parser may still take: those of the source and the one
    fetched and not consumed. *)
Definition linesLeft (c : lineConsumer) : nat :=
  length (source c) + (if processed c then 0 else 1).

(** What bounds the transitions left: two per line, and the state. *)
Definition tracebackWeight (st : tracebackState) : nat :=
  match st with
  | parseTracebackSt => 3
  | parseTracebackParamSt => 3
  | parseTracebackLocationSt => 2
  | parseTracebackErrorSt => 1
  end.

Definition tracebackMeasure (st : tracebackState) (p : TracebackParser) : nat :=
  2 * linesLeft (tb_lines p) + tracebackWeight st.

Definition errorPositionWeight (st : errorPositionState) : nat :=
  match st with
  | parseErrorPositionErrorSt => 1
  | _ => 2
  end.

Definition errorPositionMeasure (st : errorPositionState)
  (p : ErrorPositionParser) : nat :=
  2 * linesLeft (ep_lines p) + errorPositionWeight st.

End DriverSpec.

(** ** Of the traceback parser *)

Module TracebackSpec.
Import Go Parse.

(** A line that opens a frame: trimmed, it ends with the left parenthesis. *)
Definition isHeader (x : bytes) : bool :=
  let l := TrimSpace x in
  length (TrimSuffix l leftParam) <? length l.

(** A header with the level mark whose rest does not split in two fields. *)
Definition isBadLevelHeader (x : bytes) : bool :=
  let l := TrimSpace x in
  let name := TrimSuffix l leftParam in
  let levelName := TrimPrefix name (str "#") in
  (length name <? length l) && (length levelName <? length name)
  && negb (length (Fields levelName) =? 2).

End TracebackSpec.

(** ** Of the error position parser *)

Module ErrorPositionSpec.
Import Go Parse.

(** The text of a source fragment line, if the line is one. *)
Definition fragmentOf (x : bytes) : option bytes :=
  let l := TrimSpace x in
  let f := TrimPrefix l (str ">> ") in
  if length f <? length l then Some f else None.

(** The record a top-level position line describes, if the parser
    recognizes the line. *)
Definition topLevelOf (x : bytes) : option ErrorPosition :=
  match readTopLevel (TrimSpace x) with
  | Ok (Describes n) => Some n
  | _ => None
  end.

(** The same for a "Located in" line. *)
Definition locatedInOf (x : bytes) : option ErrorPosition :=
  match readLocatedIn (TrimSpace x) with
  | Ok (Describes n) => Some n
  | _ => None
  end.

(** The records and fragments of a run of "Located in" lines, each with
    its source fragment line, if all are recognized. *)
Fixpoint linksOf (links : list (bytes * bytes))
  : option (list (ErrorPosition * bytes)) :=
  match links with
  | [] => Some []
  | (loc, frag) :: rest =>
    match locatedInOf loc, fragmentOf frag, linksOf rest with
    | Some n, Some f, Some ns => Some ((n, f) :: ns)
    | _, _, _ => None
    end
  end.

(** The lines of such a run, in the order of the stream. *)
Fixpoint linesOf (links : list (bytes * bytes)) : list bytes :=
  match links with
  | [] => []
  | (loc, frag) :: rest => loc :: frag :: linesOf rest
  end.

(** What may follow the run: the end of the stream, or a line that is not
    a "Located in" line. *)
Definition endsTheChain (rest : list bytes) : Prop :=
  match rest with
  | [] => True
  | x :: _ => readLocatedIn (TrimSpace x) = Ok NotMine
  end.

(** The record at the end of its construction: the position read from its
    line, the fragment of the line after, the link to the next record. *)
Definition node (n : ErrorPosition) (f : bytes) (next : option ptr) : ErrorPosition :=
  {| File := File n; Eval := Eval n; Row := Row n; Column := Column n;
     SourceFragment := f; LocatedIn := next |}.

(** Records laid out from address [a] on, each linked to the next, the last
    to nothing. *)
Fixpoint linked (a : ptr) (ns : list (ErrorPosition * bytes)) : store :=
  match ns with
  | [] => []
  | (n, f) :: rest =>
    node n f (match rest with [] => None | _ :: _ => Some (S a) end)
    :: linked (S a) rest
  end.

(** The parser between two links: the records so far are [H] and a last one
    not linked yet; [current] is the root; [currentSub] is the last record
    unless that is the root itself. *)
Record linking (p : ErrorPositionParser) (H : store) (last : ErrorPosition)
  (more : list bytes) : Prop :=
  { lk_processed : processed (ep_lines p) = true;
    lk_source : source (ep_lines p) = more;
    lk_err : ep_err p = None;
    lk_current : current p = Some 0;
    lk_output : ep_output p = [];
    lk_heap : heap p = H ++ [last];
    lk_last : LocatedIn last = None;
    lk_sub : match H with
             | [] => currentSub p = None
             | root :: _ => LocatedIn root <> None /\ currentSub p = Some (length H)
             end }.

Definition quote : ascii := ascii_of_N 34.

End ErrorPositionSpec.

(** ** Of texts: ASCII bytes, decimal numerals, pieces between separators *)

Module TextSpec.
Import Go.

(** A byte of the ASCII range. *)
Definition ascii7 (c : ascii) : Prop := (byteval c < RuneSelf)%N.

(** The value of a string of decimal digits read from the left. *)
Definition valueOf (ds : bytes) (n : Z) : Z :=
  fold_left (fun a c => (a * 10 + (Z.of_N (byteval c) - 48))%Z) ds n.

(** The digit of a number below ten. *)
Definition digitChar (d : Z) : ascii := ascii_of_N (Z.to_N (48 + d)).

(** The decimal digits of a number that is not negative, most significant
    first; the fuel is the number of digits at most. *)
Fixpoint digitsOf (fuel : nat) (n : Z) : bytes :=
  match fuel with
  | O => []
  | S k => (if (n <? 10)%Z then [] else digitsOf k (n / 10)) ++ [digitChar (n mod 10)]
  end.

(** The decimal numeral of an integer, as [strconv.Itoa] writes it: a minus
    sign when the integer is negative, then the digits.  An [int] has at
    most 19 of them. *)
Definition decimal (i : Z) : bytes :=
  if (i <? 0)%Z then "-"%char :: digitsOf 20 (- i) else digitsOf 20 i.

(** A byte of the ASCII range that [f] does not take for a separator. *)
Definition plain (f : rune -> bool) (c : ascii) : Prop :=
  ascii7 c /\ f (byteval c) = false.

(** A piece between separators: not empty, of plain bytes. *)
Definition piece (f : rune -> bool) (w : bytes) : Prop :=
  w <> [] /\ Forall (plain f) w.

(** The pieces in a row, each after the separator [sep]. *)
Definition joined (sep : ascii) (ps : list bytes) : bytes :=
  concat (map (cons sep) ps).

(** A byte of the ASCII range as [range] over a string gives it: the rune
    and the byte it was decoded from. *)
Definition asRune (c : ascii) : rune * bytes := (byteval c, [c]).

(** A byte that [TrimSpace] leaves at either end of a string. *)
Definition visible (c : ascii) : Prop := plain IsSpace c.

End TextSpec.

(** ** Of the lines of an error position, as Magma writes them *)

Module PlaceSpec.
Import Go Parse TextSpec ErrorPositionSpec.

(** A row or a column: a number an [int] holds, not negative. *)
Definition natural (i : Z) : Prop := (0 <= i <= maxInt)%Z.

(** The text "line R, column C". *)
Definition lineColumn (r c : Z) : bytes :=
  str "line " ++ decimal r ++ str ", column " ++ decimal c.

(** The name of a file: ASCII bytes, none a comma. *)
Definition fileName (f : bytes) : Prop := Forall (plain matchCommaRune) f.

(** A name between double quotes. *)
Definition quoted (f : bytes) : bytes := quote :: f ++ [quote].

(** The positions Magma reports: in the text of an eval expression, or in
    a file. *)
Inductive position : Type :=
| EvalAt (r c : Z)
| FileAt (f : bytes) (r c : Z).

(** A position Magma can report: a file name without a comma, a row and a
    column an [int] holds. *)
Definition wellPlaced (p : position) : Prop :=
  match p with
  | EvalAt r c => natural r /\ natural c
  | FileAt f r c => fileName f /\ natural r /\ natural c
  end.

(** The line that opens an error position. *)
Definition topLine (p : position) : bytes :=
  match p with
  | EvalAt r c => str "In eval expression, " ++ lineColumn r c ++ str ":"
  | FileAt f r c => str "In file " ++ quoted f ++ str ", " ++ lineColumn r c ++ str ":"
  end.

(** A "Located in" line, for an enclosing position or for none. *)
Definition locatedLine (p : option position) : bytes :=
  match p with
  | Some (EvalAt r c) =>
    str "Located in enclosing eval expression, at " ++ lineColumn r c ++ str ":"
  | Some (FileAt f r c) =>
    str "Located in file " ++ quoted f ++ str ", at " ++ lineColumn r c ++ str ":"
  | None => str "Located in:"
  end.

(** The line of a source fragment. *)
Definition fragmentLine (f : bytes) : bytes := str ">> " ++ f.

(** The record of a position, before its fragment and its link. *)
Definition positionRecord (p : option position) : ErrorPosition :=
  match p with
  | Some (EvalAt r c) => evalPosition r c
  | Some (FileAt f r c) => filePosition f r c
  | None => zeroErrorPosition
  end.

(** A text that ends with a byte [TrimSpace] keeps. *)
Definition endsVisibly (f : bytes) : Prop :=
  exists m l, f = m ++ [l] /\ visible l.

(** A link of the chain: the enclosing position, or none for the line
    "Located in:", and the text of the source fragment. *)
Definition link : Type := (option position * bytes)%type.

(** A link whose two lines are well formed. *)
Definition wellLinked (l : link) : Prop :=
  match fst l with
  | Some q => wellPlaced q
  | None => True
  end /\ endsVisibly (snd l).

(** The two lines of each link, in the order of the stream. *)
Definition linkLines (links : list link) : list bytes :=
  flat_map (fun l => [locatedLine (fst l); fragmentLine (snd l)]) links.

(** The record and the fragment of each link. *)
Definition linkRecords (links : list link) : list (ErrorPosition * bytes) :=
  map (fun l => (positionRecord (fst l), snd l)) links.

(** What may follow the links: the end of the stream, or a line that does
    not begin with "Located in". *)
Definition staysOut (rest : list bytes) : Prop :=
  match rest with
  | [] => True
  | x :: _ => HasPrefix (TrimSpace x) (str "Located in") = false
  end.

(** A line that opens no error position. *)
Definition opensNothing (x : bytes) : Prop :=
  HasPrefix (TrimSpace x) (str "In eval expression, ") = false
  /\ HasPrefix (TrimSpace x) (str "In file ") = false.

End PlaceSpec.

(** ** Of a session: the decoder and the calls of the API *)

Module SessionSpec.
Import Go Proc.

(** A field that [strconv.Atoi] reads as an integer. *)
Definition integer (f : bytes) : Prop := snd (Atoi f) = None.

(** What [init] panics with. *)
Definition initPanic : string := "should not have r set here".

(** While a handshake channel is kept in [rch], no Output is bound. *)
Definition handshakeInOrder (d : decoder) : Prop :=
  rch d <> None -> r (h d) = None.

(** The decoder once [Start] has taken the startup Output from
    [p.response]. *)
Definition started : decoder :=
  let d := snd (parseStdoutLines [] launched []) in
  with_proc (with_response (makeBuffered Output 1) (proc d)) d.

(** A process on which [Execute] and [Quit] return at once: a handshake is
    offered on channel 7, and the Output of the command is already
    published. *)
Definition answered : Process :=
  with_response {| buf := [{| o_cmd := str "1;"; o_ch := 3 |}]; cap := 1;
                   closed := false |}
    (with_ready {| buf := [7]; cap := 1; closed := false |} launched).

Definition stateOfCall (A : Type) (x : called A) : Process :=
  match x with
  | Returned _ p => p
  | Suspended _ p => p
  | Panicked _ p => p
  end.

End SessionSpec.

(** ** Of read prompts *)

Module PromptSpec.
Import Go Proc.

Definition isPromptTag (t : bytes) : bool :=
  bytes_eqb t TagReadPrompt || bytes_eqb t TagReadIntPrompt.

Definition isInputTag (t : bytes) : bool :=
  bytes_eqb t TagReadInput || bytes_eqb t TagReadIntInput.

(** A line that goes on with the prompt: it has the tag of a prompt and at
    least one field. *)
Definition continuesPrompt (l : bytes) : Prop :=
  exists t f more,
    tagName (parseTagLine l) = Some t /\ isPromptTag t = true
    /\ tagFields (parseTagLine l) = f :: more.

(** The prompt with one more line: joined as it stands when the first field
    is C, after a newline otherwise. *)
Definition extendPrompt (prompt l : bytes) : bytes :=
  (if bytes_eqb (hd [] (tagFields (parseTagLine l))) (str "C")
   then prompt else prompt ++ newline)
  ++ data (parseTagLine l).

Definition promptOf (first : bytes) (conts : list bytes) : bytes :=
  fold_left extendPrompt conts (data (parseTagLine first)).

End PromptSpec.

(** ** Of the text written for lines *)

Module WriterSpec.
Import Go Proc Writers.

(** The text of a line: a newline unless the line continues the one before,
    four spaces for each level of indentation, the data. *)
Definition textOf (o : Line) : bytes :=
  (if Continuation o then [] else nl)
  ++ concat (repeat indent (Z.to_nat (Indent o))) ++ Data o.

(** A writer that never fails, holding [b]. *)
Definition buffer (b : bytes) : Writer := {| sink := b; room := None |}.

Definition isLine (x : Tagged) : bool :=
  match x with
  | OfLine _ => true
  | _ => false
  end.

(** The lines a stream begins with, up to the first value of another
    type. *)
Fixpoint leadingLines (xs : list Tagged) : list Line :=
  match xs with
  | OfLine x :: rest => x :: leadingLines rest
  | _ => []
  end.

(** The same lines as a flush leaves them: the first is made a
    continuation. *)
Definition asFlushed (ls : list Line) : list Line :=
  match ls with
  | x :: rest => setContinuation true x :: rest
  | [] => []
  end.

End WriterSpec.

(** ** Of the dispatcher *)

Module DispatchSpec.
Import Go Proc Parse Dispatch.

Definition passed (tr : list action) : list Tagged :=
  flat_map (fun a => match a with Pass x => [x] | _ => [] end) tr.

Definition fed (tr : list action) : list Tagged :=
  flat_map (fun a => match a with Feed x => [x] | _ => [] end) tr.

Definition runs (tr : list action) : nat :=
  length (filter (fun a => match a with RunParser _ => true | _ => false end) tr).

(** Some parser of the list accepts the value. *)
Definition accepted (parsers : list TaggedParser) (x : Tagged) : bool :=
  existsb (fun p => Accepts p x) parsers.

(** The dispatcher may go on after the values [post]: there is none, or the
    parser does not accept the first. *)
Definition endsTheRun (p : TaggedParser) (post : list Tagged) : Prop :=
  match post with
  | [] => True
  | y :: _ => Accepts p y = false
  end.

Definition tracebackLine (s : string) : Tagged :=
  OfLine {| line_tag := TagTraceback; Continuation := false; Indent := 0;
            Data := str s |}.

End DispatchSpec.

(** ** Of the frames of a traceback *)

Module FrameSpec.
Import Go Parse.

(** The frame a header line opens, if the parser takes the line for one. *)
Definition headerOf (x : bytes) : option Traceback :=
  let l := TrimSpace x in
  let name := TrimSuffix l leftParam in
  if length name <? length l then
    let levelName := TrimPrefix name (str "#") in
    if length levelName <? length name then
      match Fields levelName with
      | [f0; f1] =>
        match Atoi f0 with
        | (i, None) =>
          Some {| Index := i;
                  Current := length (TrimPrefix f1 (str "*")) <? length f1;
                  Name := TrimPrefix f1 (str "*");
                  Params := [];
                  Location_ := zeroLocation |}
        | (_, Some _) => None
        end
      | _ => None
      end
    else Some {| Index := NoIndex; Current := false; Name := name; Params := [];
                 Location_ := zeroLocation |}
  else None.

(** The parameter a line gives, if it is a parameter line. *)
Definition paramOf (x : bytes) : option ParamValue :=
  let l := TrimSpace x in
  if HasPrefix l rightParam then None
  else match SplitN2 l (str ": ") with
       | [f0; f1] => Some {| pv_Name := f0; pv_Value := TrimSuffix f1 (str ",") |}
       | _ => None
       end.

Fixpoint paramsOf (xs : list bytes) : option (list ParamValue) :=
  match xs with
  | [] => Some []
  | x :: rest =>
    match paramOf x, paramsOf rest with
    | Some v, Some vs => Some (v :: vs)
    | _, _ => None
    end
  end.

(** What the line that closes a frame gives: a location, or none when the
    line has no part after " at "; nothing when the parser fails on it. *)
Definition closingOf (x : bytes) : option (option Location) :=
  let l := TrimSpace x in
  if HasPrefix l rightParam then
    match SplitN2 l (str " at ") with
    | [_; loc] =>
      match LastIndex loc (str ":") with
      | Some i =>
        match Atoi (skipn (i + 1) loc) with
        | (row, None) =>
          Some (Some {| loc_File := firstn i loc; loc_Row := row; loc_Glue := [] |})
        | (_, Some _) => None
        end
      | None => None
      end
    | _ => Some None
    end
  else None.

(** A frame in the stream: lines that open no frame, the header, the
    parameter lines, the closing line. *)
Record frame : Type :=
  { before : list bytes; header : bytes; params : list bytes; closing : bytes }.

Definition frameLines (f : frame) : list bytes :=
  before f ++ header f :: params f ++ [closing f].

Definition withFrame (t : Traceback) (vs : list ParamValue) (loc : option Location)
  : Traceback :=
  {| Index := Index t; Current := Current t; Name := Name t;
     Params := Params t ++ vs;
     Location_ := match loc with Some l => l | None => Location_ t end |}.

Definition recordOf (f : frame) : option Traceback :=
  match headerOf (header f), paramsOf (params f), closingOf (closing f) with
  | Some t, Some vs, Some loc => Some (withFrame t vs loc)
  | _, _, _ => None
  end.

Definition opensNoFrame (x : bytes) : Prop :=
  TracebackSpec.isHeader x = false.

Definition describes (f : frame) (t : Traceback) : Prop :=
  Forall opensNoFrame (before f) /\ recordOf f = Some t.

(** The parser between two lines. *)
Definition between (src : list bytes) (l : bytes) (e : option error)
  (cur : Traceback) (out : list (Traceback + error)) : TracebackParser :=
  {| tb_lines := {| source := src; line := l; processed := true |};
     tb_err := e; tb_current := cur; tb_output := out |}.

Definition cost (f : frame) : nat := length (before f) + length (params f) + 3.

Definition costs (fs : list frame) : nat := list_sum (map cost fs).

End FrameSpec.

(** ** Of a parser run again *)

Module RerunSpec.
Import Go Parse.

Definition isRecord (x : ptr + error) : bool :=
  match x with inl _ => true | inr _ => false end.

Definition stateOfRun (P : Type) (r : ran P) : P :=
  match r with
  | Closed p => p
  | Crashed _ p => p
  | Unfinished p => p
  end.

(** A parser that has failed: its error is set, and it has sent no record. *)
Definition failed (p : ErrorPositionParser) : Prop :=
  ep_err p <> None /\ existsb isRecord (ep_output p) = false.

End RerunSpec.

(* ================================================================== *)
(** * Part III.  Lemmas and theorems *)
(* ================================================================== *)

(** ** Byte strings *)

Section BytesFacts.
Import Go.

Lemma bytes_eqb_true (a b : bytes) : bytes_eqb a b = true <-> a = b.
Proof.
  unfold bytes_eqb. destruct (list_eq_dec ascii_dec a b); split; congruence.
Qed.

Lemma bytes_eqb_false (a b : bytes) : bytes_eqb a b = false <-> a <> b.
Proof.
  unfold bytes_eqb. destruct (list_eq_dec ascii_dec a b); split; congruence.
Qed.

Lemma bytes_eqb_refl (a : bytes) : bytes_eqb a a = true.
Proof. now apply bytes_eqb_true. Qed.

End BytesFacts.

(** ** The tags of error output *)

Module TagFacts.
Import Go Proc.

(** C10.  [IsError] answers true exactly on the eight error tags ENE, EI,
    EU, ER, TB, POS, EPO and RDI_ER, whatever the implementation of
    [Tagged] that carries the tag, and false on every other tag: among them
    OUT, LST, SIG, the four read tags and the eight status tags. *)
Theorem IsError_exactly_the_error_tags :
  (forall t : Tagged,
      IsError t = true <->
      In (Tag t) [str "ENE"; str "EI"; str "EU"; str "ER"; str "TB"; str "POS";
                  str "EPO"; str "RDI_ER"])
  /\ (forall t : Tagged,
         In (Tag t) [str "OUT"; str "LST"; str "SIG"; str "RD_PR"; str "RD_IN";
                     str "RDI_PR"; str "RDI_IN"; str "RDY"; str "IR"; str "RUN";
                     str "ERP"; str "INT"; str "QUIT"; str "RES"; str "DRDY"] ->
         IsError t = false).
Proof.
  assert (E : forall t : Tagged,
             IsError t = true <->
             In (Tag t) [str "ENE"; str "EI"; str "EU"; str "ER"; str "TB";
                         str "POS"; str "EPO"; str "RDI_ER"]).
  { intro t. unfold IsError.
    change TagErrorSyntax with (str "ENE"). change TagTraceback with (str "TB").
    change TagErrorHistoryPosition with (str "POS").
    change TagErrorPosition with (str "EPO").
    change TagErrorInternal with (str "EI").
    change TagErrorRuntime with (str "ER").
    change TagErrorUser with (str "EU").
    change TagReadIntError with (str "RDI_ER").
    generalize (Tag t); intro x. split.
    - intro H.
      destruct (bytes_eqb x (str "ENE")) eqn:E1;
        [apply bytes_eqb_true in E1; subst; simpl; tauto|].
      destruct (bytes_eqb x (str "TB")) eqn:E2;
        [apply bytes_eqb_true in E2; subst; simpl; tauto|].
      destruct (bytes_eqb x (str "POS")) eqn:E3;
        [apply bytes_eqb_true in E3; subst; simpl; tauto|].
      destruct (bytes_eqb x (str "EPO")) eqn:E4;
        [apply bytes_eqb_true in E4; subst; simpl; tauto|].
      destruct (bytes_eqb x (str "EI")) eqn:E5;
        [apply bytes_eqb_true in E5; subst; simpl; tauto|].
      destruct (bytes_eqb x (str "ER")) eqn:E6;
        [apply bytes_eqb_true in E6; subst; simpl; tauto|].
      destruct (bytes_eqb x (str "EU")) eqn:E7;
        [apply bytes_eqb_true in E7; subst; simpl; tauto|].
      destruct (bytes_eqb x (str "RDI_ER")) eqn:E8;
        [apply bytes_eqb_true in E8; subst; simpl; tauto|].
      discriminate H.
    - intro H. simpl in H.
      repeat (destruct H as [H | H]; [subst x; reflexivity|]).
      contradiction. }
  split; [exact E|].
  intros t H.
  destruct (IsError t) eqn:Et; [|reflexivity].
  apply E in Et. exfalso. revert H Et. generalize (Tag t). intros x H Et.
  simpl in H, Et.
  repeat (destruct H as [H | H];
          [subst x;
           repeat (destruct Et as [Et | Et]; [discriminate Et|]); contradiction|]).
  contradiction.
Qed.

End TagFacts.

(** ** The response multiplexer *)

Module MultiplexerFacts.
Import Go Proc MultiplexerSpec.

Lemma split_last (A : Type) (tr before after : list A) (e x : A) :
  tr ++ [e] = before ++ x :: after ->
  (after = [] /\ before = tr /\ e = x)
  \/ (exists after', after = after' ++ [e] /\ tr = before ++ x :: after').
Proof.
  intro H. destruct (exists_last (l := x :: after)) as [l' [y Hy]];
    [discriminate|].
  destruct after as [|a after].
  - left. apply app_inj_tail in H. destruct H; subst. auto.
  - right. destruct (exists_last (l := a :: after)) as [m [z Hz]];
      [discriminate|].
    rewrite Hz in H.
    change (before ++ x :: m ++ [z]) with (before ++ (x :: m) ++ [z]) in H.
    rewrite app_assoc in H. apply app_inj_tail in H. destruct H as [H1 H2].
    subst z. exists m. split; [exact Hz | exact H1].
Qed.

Lemma noSend_log_other (tr : list event) (e : event) :
  noSendAfterClose tr -> (forall k t, e <> Send k t) ->
  noSendAfterClose (tr ++ [e]).
Proof.
  intros H He before after k t Heq.
  apply split_last in Heq. destruct Heq as [[_ [_ E]] | [after' [_ E]]].
  - exfalso. exact (He k t E).
  - exact (H _ _ _ _ E).
Qed.

Lemma noSend_log_send (tr : list event) (k : chan) (t : Tagged) :
  noSendAfterClose tr -> ~ closedIn k tr ->
  noSendAfterClose (tr ++ [Send k t]).
Proof.
  intros H Hk before after k' t' Heq.
  apply split_last in Heq. destruct Heq as [[_ [Hb E]] | [after' [_ E]]].
  - inversion E; subst. exact Hk.
  - exact (H _ _ _ _ E).
Qed.

Lemma noClose_log_other (tr : list event) (e : event) :
  noCloseAfterClose tr -> (forall k, e <> CloseResponse k) ->
  noCloseAfterClose (tr ++ [e]).
Proof.
  intros H He before after k Heq.
  apply split_last in Heq. destruct Heq as [[_ [_ E]] | [after' [_ E]]].
  - exfalso. exact (He k E).
  - exact (H _ _ _ E).
Qed.

Lemma noClose_log_close (tr : list event) (k : chan) :
  noCloseAfterClose tr -> ~ closedIn k tr ->
  noCloseAfterClose (tr ++ [CloseResponse k]).
Proof.
  intros H Hk before after k' Heq.
  apply split_last in Heq. destruct Heq as [[_ [Hb E]] | [after' [_ E]]].
  - inversion E; subst. exact Hk.
  - exact (H _ _ _ E).
Qed.

Lemma closedIn_log (k : chan) (tr : list event) (e : event) :
  closedIn k (tr ++ [e]) <-> closedIn k tr \/ e = CloseResponse k.
Proof.
  unfold closedIn. rewrite in_app_iff. simpl. tauto.
Qed.

Lemma wellFormed_newHandler : wellFormed newHandler.
Proof.
  constructor; simpl.
  - intros k [].
  - intros x H; discriminate H.
  - intros k H; inversion H.
  - intros before after k t H. destruct before; discriminate H.
  - intros before after k H. destruct before; discriminate H.
Qed.

Lemma nextch_closeCurrent (h : rhandler) : nextch (closeCurrent h) = nextch h.
Proof. unfold closeCurrent. destruct (c h); reflexivity. Qed.

(** Closing the current response leaves no response open. *)
Lemma wellFormed_closeCurrent (h : rhandler) :
  wellFormed h ->
  wellFormed (set_c None (closeCurrent h))
  /\ (forall k, k < nextch h -> closedIn k (trace (closeCurrent h))).
Proof.
  intros [Hm Hc Ho Hs Hd]. unfold closeCurrent.
  destruct (c h) as [x|] eqn:Ex.
  - destruct (Hc x Ex) as [Hlt Hopen].
    assert (All : forall k, k < nextch h ->
                            closedIn k (trace h ++ [CloseResponse (ch x)])).
    { intros k Hk. apply closedIn_log.
      destruct (Nat.eq_dec k (ch x)) as [->|Hne]; [now right|].
      left. destruct (in_dec (fun a b : event => ltac:(repeat decide equality))
                       (CloseResponse k) (trace h)) as [Hin|Hnin].
      - exact Hin.
      - exfalso. destruct (Ho k Hk Hnin) as [y [Hy Hky]].
        rewrite Ex in Hy. inversion Hy; subst. now apply Hne. }
    split; [|exact All].
    constructor; simpl.
    + intros k Hk. apply closedIn_log in Hk. destruct Hk as [Hk|Hk].
      * now apply Hm.
      * inversion Hk; subst. exact Hlt.
    + intros y Hy; discriminate Hy.
    + intros k Hk Hn. exfalso. apply Hn. now apply All.
    + apply noSend_log_other; [exact Hs | intros; discriminate].
    + apply noClose_log_close; assumption.
  - assert (All : forall k, k < nextch h -> closedIn k (trace h)).
    { intros k Hk.
      destruct (in_dec (fun a b : event => ltac:(repeat decide equality))
                  (CloseResponse k) (trace h)) as [Hin|Hnin]; [exact Hin|].
      exfalso. destruct (Ho k Hk Hnin) as [y [Hy _]]. rewrite Ex in Hy.
      discriminate Hy. }
    split; [|exact All].
    constructor; simpl; auto.
    + intros y Hy; discriminate Hy.
    + intros k Hk Hn. exfalso. apply Hn. now apply All.
Qed.

(** Opening a response on a fresh channel, as [start], [run], [parseError]
    and [internalError] do: the previous one is closed first. *)
Lemma wellFormed_newResponse (h : rhandler) (chk : chunk) (x : responser) :
  wellFormed h -> ch x = nextch h ->
  wellFormed (stateOf (newResponse chk x (snd (makeChan h)))).
Proof.
  intros W Hx.
  destruct (wellFormed_closeCurrent W) as [[Hm _ _ Hs Hd] All].
  simpl in Hm, Hs, Hd. rewrite nextch_closeCurrent in Hm.
  assert (Fresh : ~ closedIn (ch x) (trace (closeCurrent h))).
  { intro Hin. apply Hm in Hin. rewrite Hx in Hin. lia. }
  assert (Tr : trace (closeCurrent (snd (makeChan h))) = trace (closeCurrent h)).
  { unfold closeCurrent, makeChan. simpl. destruct (c h); reflexivity. }
  assert (Nx : nextch (closeCurrent (snd (makeChan h))) = S (nextch h)).
  { unfold closeCurrent, makeChan. simpl. destruct (c h); reflexivity. }
  assert (R : r (closeCurrent (snd (makeChan h))) = r h).
  { unfold closeCurrent, makeChan. simpl. destruct (c h); reflexivity. }
  unfold newResponse. cbn [set_c r]. rewrite R.
  destruct (r h) as [o|]; cbn [stateOf log set_c r c nextch trace];
    rewrite ?Tr, ?Nx.
  - constructor; unfold currentIsOpen, onlyCurrentIsOpen;
      cbn [set_c log r c nextch trace]; rewrite ?Tr, ?Nx.
    + intros k Hk. apply closedIn_log in Hk. destruct Hk as [Hk|Hk];
        [|discriminate Hk].
      apply Hm in Hk. lia.
    + intros y Hy. inversion Hy; subst y. split; [lia|].
      intro Hin. apply closedIn_log in Hin. destruct Hin as [Hin|Hin];
        [now apply Fresh | discriminate Hin].
    + intros k Hk Hn. exists x. split; [reflexivity|].
      destruct (Nat.eq_dec k (nextch h)) as [->|Hne]; [now symmetry|].
      exfalso. apply Hn. apply closedIn_log. left. apply All. lia.
    + apply noSend_log_other; [exact Hs | intros; discriminate].
    + apply noClose_log_other; [exact Hd | intros; discriminate].
  - constructor; unfold currentIsOpen, onlyCurrentIsOpen;
      cbn [set_c log r c nextch trace]; rewrite ?Tr, ?Nx.
    + intros k Hk. apply Hm in Hk. lia.
    + intros y Hy. inversion Hy; subst y. split; [lia | exact Fresh].
    + intros k Hk Hn. exists x. split; [reflexivity|].
      destruct (Nat.eq_dec k (nextch h)) as [->|Hne]; [now symmetry|].
      exfalso. apply Hn. apply All. lia.
    + exact Hs.
    + exact Hd.
Qed.

Lemma wellFormed_ready (h : rhandler) :
  wellFormed h -> wellFormed (stateOf (ready h)).
Proof.
  intro W. destruct (wellFormed_closeCurrent W) as [W' _].
  assert (E : (match c h with
               | Some x => set_c None (log (CloseResponse (ch x)) h)
               | None => h
               end) = set_c None (closeCurrent h)).
  { unfold closeCurrent. destruct (c h) eqn:Ec; [reflexivity|].
    destruct h; simpl in *; subst; reflexivity. }
  unfold ready. rewrite E.
  destruct (r (set_c None (closeCurrent h))) as [o|]; cbn [stateOf]; [|exact W'].
  destruct W' as [Hm Hc Ho Hs Hd].
  constructor; cbn [set_r log r c nextch trace] in *.
  - intros k Hk. apply closedIn_log in Hk.
    destruct Hk as [Hk|Hk]; [now apply Hm | discriminate Hk].
  - intros y Hy. destruct (Hc y Hy) as [H1 H2]. split; [exact H1|].
    intro Hin. apply closedIn_log in Hin.
    destruct Hin as [Hin|Hin]; [now apply H2 | discriminate Hin].
  - intros k Hk Hn. apply Ho; [exact Hk|].
    intro Hin. apply Hn. apply closedIn_log. now left.
  - apply noSend_log_other; [exact Hs | intros; discriminate].
  - apply noClose_log_other; [exact Hd | intros; discriminate].
Qed.

Lemma wellFormed_init (h : rhandler) (e : Output) :
  wellFormed h -> wellFormed (stateOf (init e h)).
Proof.
  intros W. unfold init. destruct (r h); cbn [stateOf]; [exact W|].
  destruct W as [Hm Hc Ho Hs Hd]. constructor; assumption.
Qed.

Lemma wellFormed_send (h : rhandler) (t : Tagged) :
  wellFormed h -> wellFormed (stateOf (send t h)).
Proof.
  intros W. unfold send. destruct (c h) as [x|] eqn:Ex; cbn [stateOf]; [|exact W].
  destruct W as [Hm Hc Ho Hs Hd]. destruct (Hc x Ex) as [Hlt Hopen].
  constructor; cbn [log r c nextch trace].
  - intros k Hk. apply closedIn_log in Hk.
    destruct Hk as [Hk|Hk]; [now apply Hm | discriminate Hk].
  - intros y Hy. destruct (Hc y Hy) as [H1 H2]. split; [exact H1|].
    intro Hin. apply closedIn_log in Hin.
    destruct Hin as [Hin|Hin]; [now apply H2 | discriminate Hin].
  - intros k Hk Hn. apply Ho; [exact Hk|].
    intro Hin. apply Hn. apply closedIn_log. now left.
  - apply noSend_log_send; assumption.
  - apply noClose_log_other; [exact Hd | intros; discriminate].
Qed.

Lemma wellFormed_internalError (h : rhandler) :
  wellFormed h -> wellFormed (stateOf (internalError h)).
Proof.
  intros W. unfold internalError. destruct (c h) eqn:Ec; cbn [stateOf]; [exact W|].
  unfold newInternalError.
  change (makeChan h) with (nextch h, snd (makeChan h)). cbv iota beta.
  now apply wellFormed_newResponse.
Qed.

Lemma wellFormed_perform (o : op) (h : rhandler) :
  wellFormed h -> wellFormed (stateOf (perform o h)).
Proof.
  intro W. destruct o; cbn [perform].
  - now apply wellFormed_init.
  - unfold start. change (makeChan h) with (nextch h, snd (makeChan h)).
    cbv iota beta. now apply wellFormed_newResponse.
  - unfold run. change (makeChan h) with (nextch h, snd (makeChan h)).
    cbv iota beta. now apply wellFormed_newResponse.
  - unfold parseError. change (makeChan h) with (nextch h, snd (makeChan h)).
    cbv iota beta. now apply wellFormed_newResponse.
  - now apply wellFormed_internalError.
  - now apply wellFormed_send.
  - assert (E : stateOf (forget (ready h)) = stateOf (ready h))
      by (destruct (ready h); reflexivity).
    rewrite E. now apply wellFormed_ready.
Qed.

Lemma wellFormed_performAll (ops : list op) (h : rhandler) :
  wellFormed h -> wellFormed (stateOf (performAll ops h)).
Proof.
  revert h. induction ops as [|o ops IH]; intros h W; cbn [performAll].
  - exact W.
  - pose proof (wellFormed_perform o W) as W'.
    destruct (perform o h) as [u h'|m h']; cbn [stateOf] in *.
    + now apply IH.
    + exact W'.
Qed.

(** What opening a response adds to the record of channel operations. *)
Lemma newResponse_closes_first (h : rhandler) (chk : chunk) (x old : responser) :
  c h = Some old ->
  exists rest,
    trace (stateOf (newResponse chk x (snd (makeChan h))))
    = trace h ++ CloseResponse (ch old) :: rest
    /\ (forall k t, ~ In (Send k t) rest).
Proof.
  intro Hc. unfold newResponse, closeCurrent, makeChan. cbn [snd c].
  rewrite Hc. cbn [set_c log r c nextch trace].
  destruct (r h) as [o|]; cbn [stateOf log trace].
  - exists [Publish (o_ch o) x]. simpl. rewrite <- app_assoc.
    split; [reflexivity|].
    intros k t [H|[]]; discriminate H.
  - exists []. split; [reflexivity|]. intros k t [].
Qed.

(** C5.  [internalError] called while a response is open returns with the
    multiplexer as it was: no channel is made, nothing is closed, published
    or sent, and the current response stays.  It opens an [InternalError]
    response when no response is open, and changes the state in that case
    only. *)
Theorem internalError_keeps_the_open_response :
  forall h : rhandler,
    (forall x, c h = Some x -> internalError h = Done tt h)
    /\ (c h = None ->
        c (stateOf (internalError h))
        = Some {| kind := InternalError; cmd := []; ch := nextch h |})
    /\ (stateOf (internalError h) <> h -> c h = None).
Proof.
  intro h. unfold internalError. destruct (c h) as [x|] eqn:Ec.
  - split; [reflexivity|]. split; [discriminate|].
    intro H. exfalso. now apply H.
  - split; [discriminate|]. split; [|reflexivity].
    intros _. unfold newInternalError, makeChan, newResponse, closeCurrent.
    cbn [c set_c r nextch trace]. rewrite Ec. cbn [set_c r c].
    destruct (r h); reflexivity.
Qed.

Lemma ready_clears (h : rhandler) :
  ready h = Done (hasOutput h)
              {| r := None; c := None; nextch := nextch h;
                 trace := trace h ++ closesOf h |}.
Proof.
  unfold ready, closesOf, hasOutput. destruct h as [hr hc n tr].
  destruct hc as [x|]; destruct hr as [o|]; simpl;
    unfold set_r, set_c, log; simpl;
    rewrite <- ?app_assoc, ?app_nil_r; reflexivity.
Qed.

End MultiplexerFacts.

(** ** The decoder and the process API *)

Module DecoderFacts.
Import Go Proc MultiplexerSpec MultiplexerFacts ProcessSpec.

(** *** The multiplexer under the decoder *)

Ltac dsimpl :=
  cbn [fst snd h proc rch replies with_h with_proc with_rch with_replies
         sendStatus stateOf].

Lemma onHandler_wellFormed (o : outcome unit) (d : decoder) :
  wellFormed (stateOf o) -> wellFormed (h (snd (onHandler o d))).
Proof. intro W. destruct o; exact W. Qed.

Lemma statusSwitch_wellFormed (t : bytes) (fields : list bytes) (d : decoder) :
  wellFormed (h d) -> wellFormed (h (snd (statusSwitch t fields d))).
Proof.
  intro W. unfold statusSwitch.
  destruct (bytes_eqb t TagReady).
  { unfold caseTagReady.
    destruct (parseReady fields) as [[[rdy|] [e|]]|m]; dsimpl; try exact W.
    pose proof (wellFormed_ready W) as W'.
    destruct (ready (h d)) as [[|] h'|m h']; dsimpl; cbn [stateOf] in W';
      try exact W'.
    destruct (makeChannel _) as [k p]. dsimpl.
    destruct (trySend _ _); dsimpl; exact W'. }
  destruct (bytes_eqb t TagInputReceived).
  { unfold caseTagInputReceived. dsimpl.
    destruct (rch d) as [k|]; dsimpl; [|exact W].
    destruct (takeHandshake _ _) as [[o rest]|]; dsimpl; [|exact W].
    pose proof (wellFormed_init o W) as W'.
    destruct (init o (h d)) as [u h'|m h']; dsimpl; cbn [stateOf] in W';
      try exact W'.
    destruct (trySend _ _); dsimpl; exact W'. }
  destruct (bytes_eqb t TagReset); [exact W|].
  destruct (bytes_eqb t TagQuit).
  { unfold caseTagQuit, acknowledge. dsimpl.
    destruct (tryRecv _); dsimpl; exact W. }
  destruct (bytes_eqb t TagInterrupt).
  { unfold caseTagInterrupt, acknowledge. dsimpl.
    destruct (tryRecv _); dsimpl; exact W. }
  destruct (bytes_eqb t TagRun).
  { unfold caseTagRun.
    destruct (parseRun fields) as [[[chk seed] [e|]]|m]; dsimpl; try exact W.
    apply onHandler_wellFormed. dsimpl.
    exact (wellFormed_perform (OpRun chk seed) W). }
  destruct (bytes_eqb t TagErrorParse); [|exact W].
  unfold caseTagErrorParse.
  destruct (parseResponse fields) as [[chk [e|]]|m]; dsimpl; try exact W.
  apply onHandler_wellFormed. dsimpl.
  exact (wellFormed_perform (OpParseError chk) W).
Qed.

Lemma outputSwitch_wellFormed (t : bytes) (fields : list bytes) (data : bytes)
  (d : decoder) :
  wellFormed (h d) -> wellFormed (h (snd (outputSwitch t fields data d))).
Proof.
  intro W. unfold outputSwitch.
  destruct (bytes_eqb t TagErrorHistoryPosition).
  { destruct (parseHistoryPosition fields) as [[pos [e|]]|m]; dsimpl;
      try exact W.
    apply onHandler_wellFormed. exact (wellFormed_perform (OpSend _) W). }
  destruct (isLineTag t).
  { destruct (parseOutput t fields data) as [[[o|] [e|]]|m]; dsimpl;
      try exact W.
    destruct (bytes_eqb t TagErrorInternal).
    - pose proof (wellFormed_perform OpInternalError W) as W'.
      cbn [perform] in W'.
      destruct (internalError (h d)) as [u h'|m h']; cbn [onHandler stateOf] in *.
      + apply onHandler_wellFormed. dsimpl.
        exact (wellFormed_perform (OpSend _) W').
      + dsimpl. exact W'.
    - apply onHandler_wellFormed. exact (wellFormed_perform (OpSend _) W). }
  destruct (bytes_eqb t TagErrorSyntax).
  { apply onHandler_wellFormed. exact (wellFormed_perform (OpSend _) W). }
  destruct (bytes_eqb t TagReadPrompt || bytes_eqb t TagReadIntPrompt);
    [|exact W].
  destruct (makeChannel (proc d)) as [out p].
  destruct (makeChannel p) as [err p']. dsimpl. exact W.
Qed.

Lemma readPromptLine_wellFormed (r : ReadRequest) (output : bytes) (d : decoder) :
  wellFormed (h d) -> wellFormed (h (snd (readPromptLine r output d))).
Proof.
  intro W. unfold readPromptLine.
  destruct (tagName (parseTagLine output)) as [t|]; [|exact W].
  destruct (bytes_eqb t TagReadPrompt || bytes_eqb t TagReadIntPrompt).
  { destruct (index (tagFields (parseTagLine output)) 0); dsimpl; exact W. }
  destruct (bytes_eqb t TagReadInput || bytes_eqb t TagReadIntInput);
    [|exact W].
  pose proof (wellFormed_perform (OpSend (OfReadRequest r)) W) as W'.
  cbn [perform] in W'.
  destruct (send (OfReadRequest r) (h d)) as [u h'|m h']; cbn [stateOf] in W';
    dsimpl; [|exact W'].
  destruct (replies d) as [|[response|e] rest]; dsimpl; try exact W'.
  destruct (tryRecv _) as [x w| |]; dsimpl; try exact W'.
  destruct (Write response _) as [e1 p1].
  destruct (Write newline p1) as [e2 p2].
  destruct (trySend _ _); dsimpl; try exact W'.
  destruct e2; dsimpl; exact W'.
Qed.

Lemma handleLine_wellFormed (m : mode) (output : bytes) (d : decoder) :
  wellFormed (h d) -> wellFormed (h (snd (handleLine m output d))).
Proof.
  intro W. destruct m as [|r]; cbn [handleLine];
    [|now apply readPromptLine_wellFormed].
  destruct (tagName (parseTagLine output)) as [t|]; [|exact W].
  pose proof (@statusSwitch_wellFormed t (tagFields (parseTagLine output)) d W) as W'.
  destruct (statusSwitch t (tagFields (parseTagLine output)) d) as [[] d'];
    cbn [snd] in W'; try exact W'.
  now apply outputSwitch_wellFormed.
Qed.

Lemma decodeLines_wellFormed (lines : list bytes) :
  forall (m : mode) (d : decoder),
    wellFormed (h d) -> wellFormed (h (snd (decodeLines m lines d))).
Proof.
  induction lines as [|l rest IH]; intros m d W; cbn [decodeLines]; [exact W|].
  pose proof (@handleLine_wellFormed m l d W) as W'.
  destruct (handleLine m l d) as [[] d']; cbn [snd] in W'; try exact W'.
  now apply IH.
Qed.

(** The handler of the decoder, wherever the decoder stops. *)
Lemma parseStdoutLines_wellFormed (lines : list bytes) (p : Process)
  (answers : list (bytes + error)) :
  wellFormed (h (snd (parseStdoutLines lines p answers))).
Proof.
  unfold parseStdoutLines. dsimpl.
  destruct (newOutput _ p) as [o p']. dsimpl.
  pose proof (wellFormed_init o wellFormed_newHandler) as W1.
  destruct (init o newHandler) as [u h1|m h1]; cbn [stateOf] in W1; dsimpl;
    [|exact W1].
  destruct (trySend _ _); dsimpl; try exact W1.
  pose proof (wellFormed_perform OpStart W1) as W2. cbn [perform] in W2.
  destruct (start h1) as [u2 h2|m h2]; cbn [stateOf] in W2; dsimpl;
    [|exact W2].
  now apply decodeLines_wellFormed.
Qed.

(** C1.  Whatever operations the decoder performs on its multiplexer, in
    whatever order, and up to a panic if one stops it: the current
    response, if any, is open, and every other response made so far has
    been closed, so at most one response accepts events at any time; no
    event is sent on a response channel after that channel was closed, and
    no channel is closed twice.  This holds after every sequence of the
    operations the decoder has ([init], [start], [run], [parseError],
    [internalError], [send], [ready]), and so for the handler of
    [parseStdoutLines] itself wherever decoding stops, whatever the lines,
    the process and the answers to read requests.  And [start], [run] and
    [parseError], called while a response is open, close it before anything
    else and send nothing on it afterwards. *)
Theorem at_most_one_response_is_current :
  (forall ops : list op,
      let m := stateOf (performAll ops newHandler) in
      currentIsOpen m /\ onlyCurrentIsOpen m
      /\ noSendAfterClose (trace m) /\ noCloseAfterClose (trace m))
  /\ (forall (lines : list bytes) (p : Process) (answers : list (bytes + error)),
         let m := h (snd (parseStdoutLines lines p answers)) in
         currentIsOpen m /\ onlyCurrentIsOpen m
         /\ noSendAfterClose (trace m) /\ noCloseAfterClose (trace m))
  /\ (forall (m : rhandler) (old : responser) (o : op),
         c m = Some old ->
         o = OpStart \/ (exists chk s, o = OpRun chk s)
         \/ (exists chk, o = OpParseError chk) ->
         exists rest,
           trace (stateOf (perform o m)) = trace m ++ CloseResponse (ch old) :: rest
           /\ (forall k t, ~ In (Send k t) rest)).
Proof.
  split; [|split].
  - intros ops m.
    destruct (wellFormed_performAll ops wellFormed_newHandler) as [_ Hc Ho Hs Hd].
    subst m. split; [exact Hc | split; [exact Ho | split; [exact Hs | exact Hd]]].
  - intros lines p answers m.
    destruct (parseStdoutLines_wellFormed lines p answers) as [_ Hc Ho Hs Hd].
    subst m. split; [exact Hc | split; [exact Ho | split; [exact Hs | exact Hd]]].
  - intros m old o Hc Ho.
    destruct Ho as [Ho | [[chk [s Ho]] | [chk Ho]]]; subst o; cbn [perform].
    + unfold start. change (makeChan m) with (nextch m, snd (makeChan m)).
      cbv iota beta. now apply newResponse_closes_first.
    + unfold run. change (makeChan m) with (nextch m, snd (makeChan m)).
      cbv iota beta. now apply newResponse_closes_first.
    + unfold parseError. change (makeChan m) with (nextch m, snd (makeChan m)).
      cbv iota beta. now apply newResponse_closes_first.
Qed.

Lemma parseReady_of_five (f0 f1 f2 f3 f4 : bytes) :
  snd (Atoi f4) = None ->
  parseReady [f0; f1; f2; f3; f4]
  = Ok (Some {| Ident := isOne f0; Frame := isOne f1; Verbose := isOne f2;
                Set_ := isOne f3; Types := fst (Atoi f4) |}, None).
Proof.
  intro H. unfold parseReady.
  change (negb (len [f0; f1; f2; f3; f4] =? 5)%Z) with false. cbv iota.
  change (index [f0; f1; f2; f3; f4] 0) with (Ok f0).
  change (index [f0; f1; f2; f3; f4] 1) with (Ok f1).
  change (index [f0; f1; f2; f3; f4] 2) with (Ok f2).
  change (index [f0; f1; f2; f3; f4] 3) with (Ok f3).
  change (index [f0; f1; f2; f3; f4] 4) with (Ok f4).
  cbn [bind]. destruct (Atoi f4) as [v [e|]]; [discriminate H | reflexivity].
Qed.

(** C3.  The decoder reads a RDY line with five fields of which
    [strconv.Atoi] reads the last.  It sends the [Ready] with the four
    flags and the number on the status channel and calls [ready]: that
    closes the current response and the current Output, if any, in this
    order, leaves the multiplexer with neither, and returns true exactly
    when there was an Output.  When [ready] returned false the decoder makes
    no channel and makes no offer: the handshake queue [p.ready] and [rch]
    are as they were, whatever the queue holds, and the decoder goes on.
    When [ready] returned true it makes a fresh channel, keeps it in [rch]
    and sends it on [p.ready]: with room in the queue the channel is queued
    behind what was there and the decoder goes on; with a full queue the
    decoder is suspended at that send; on a closed queue the send panics. *)
Theorem ready_tag_offers_handshake_iff_output_cleared :
  forall (f0 f1 f2 f3 f4 : bytes) (d : decoder),
    snd (Atoi f4) = None ->
    let fields := [f0; f1; f2; f3; f4] in
    let flow := fst (statusSwitch (str "RDY") fields d) in
    let d' := snd (statusSwitch (str "RDY") fields d) in
    let queue := p_ready (proc d) in
    p_status (proc d')
    = p_status (proc d)
      ++ [OfReady {| Ident := isOne f0; Frame := isOne f1; Verbose := isOne f2;
                     Set_ := isOne f3; Types := fst (Atoi f4) |}]
    /\ ready (h d) = Done (hasOutput (h d)) (h d')
    /\ r (h d') = None /\ c (h d') = None
    /\ trace (h d') = trace (h d) ++ closesOf (h d)
    /\ (hasOutput (h d) = true <-> r (h d) <> None)
    /\ (hasOutput (h d) = false ->
        flow = Next Main /\ p_ready (proc d') = queue /\ rch d' = rch d
        /\ fresh (proc d') = fresh (proc d))
    /\ (hasOutput (h d) = true ->
        rch d' = Some (fresh (proc d))
        /\ fresh (proc d') = S (fresh (proc d))
        /\ (closed queue = false -> length (buf queue) < cap queue ->
            flow = Next Main
            /\ p_ready (proc d')
               = {| buf := buf queue ++ [fresh (proc d)]; cap := cap queue;
                    closed := false |})
        /\ (closed queue = false -> cap queue <= length (buf queue) ->
            flow = Blocked "p.ready <- rch" /\ p_ready (proc d') = queue)
        /\ (closed queue = true ->
            flow = Panics "send on closed channel" /\ p_ready (proc d') = queue)).
Proof.
  intros f0 f1 f2 f3 f4 d Hnum fields flow d' queue.
  assert (E : statusSwitch (str "RDY") fields d = caseTagReady fields d)
    by reflexivity.
  subst flow d' queue. rewrite E. clear E. unfold caseTagReady. subst fields.
  rewrite (@parseReady_of_five f0 f1 f2 f3 f4 Hnum).
  assert (Iff : hasOutput (h d) = true <-> r (h d) <> None).
  { unfold hasOutput. destruct (r (h d)); split; congruence. }
  destruct d as [p hh rc rp]. destruct p.
  destruct p_ready0 as [qb qc qcl]. unfold sendStatus.
  cbn [proc h rch replies with_proc with_status p_status p_ready fresh buf cap closed] in *.
  rewrite (ready_clears hh).
  destruct (hasOutput hh) eqn:Ho.
  - unfold makeChannel, with_h, with_proc, with_rch, with_ready, trySend.
    cbn [proc h rch replies p_ready p_status fresh buf cap closed fst snd].
    destruct qcl.
    + cbn. repeat split; try reflexivity; try discriminate;
        try (apply Iff); try (intros _; exact (proj1 Iff eq_refl)).
    + cbn.
      destruct (match qc with 0 => false | S m' => length qb <=? m' end) eqn:L;
        change (match qc with 0 => false | S m' => length qb <=? m' end)
          with (length qb <? qc) in L;
        [apply Nat.ltb_lt in L | apply Nat.ltb_ge in L]; cbn;
        repeat split; try reflexivity; try discriminate;
          try (apply Iff); try (intros _; exact (proj1 Iff eq_refl));
          try (intros; exfalso; lia).
  - unfold with_h. cbn.
    repeat split; try reflexivity; try (apply Iff); try discriminate.
Qed.

(** The decoder right after its startup (the startup Output bound and
    published, the first response opened) reads the line RDY 1 0 0 1 3: the
    startup Output is cleared and channel 1 is offered on the empty queue.
    It then reads RDY 0 0 0 0 0 with the offer still pending: no Output is
    bound, nothing is closed and no second offer is made. *)
Lemma ready_tag_offers_handshake_witness :
  let first := snd (parseStdoutLines [] launched []) in
  let second := snd (statusSwitch (str "RDY")
                       [str "1"; str "0"; str "0"; str "1"; str "3"] first) in
  let third := snd (statusSwitch (str "RDY")
                      [str "0"; str "0"; str "0"; str "0"; str "0"] second) in
  (hasOutput (h first) = true /\ buf (p_ready (proc first)) = []
   /\ fst (statusSwitch (str "RDY")
             [str "1"; str "0"; str "0"; str "1"; str "3"] first) = Next Main
   /\ buf (p_ready (proc second)) = [1] /\ rch second = Some 1
   /\ trace (h second)
      = [Publish 0 {| kind := PlainResponse; cmd := []; ch := 0 |};
         CloseResponse 0; CloseOutput 0])
  /\ (hasOutput (h second) = false
      /\ fst (statusSwitch (str "RDY")
                [str "0"; str "0"; str "0"; str "0"; str "0"] second) = Next Main
      /\ p_ready (proc third) = p_ready (proc second)
      /\ rch third = Some 1
      /\ trace (h third) = trace (h second)).
Proof.
  intros first second third.
  pose proof (@ready_tag_offers_handshake_iff_output_cleared
                (str "1") (str "0") (str "0") (str "1") (str "3") first eq_refl)
    as H1.
  pose proof (@ready_tag_offers_handshake_iff_output_cleared
                (str "0") (str "0") (str "0") (str "0") (str "0") second eq_refl)
    as H2.
  cbv zeta in H1, H2.
  destruct H1 as [_ [_ [_ [_ [T1 [_ [_ O1]]]]]]].
  destruct (O1 eq_refl) as [R1 [_ [Room _]]].
  destruct (Room eq_refl (le_n 1)) as [F1 Q1].
  destruct H2 as [_ [_ [_ [_ [T2 [_ [N2 _]]]]]]].
  destruct (N2 eq_refl) as [F2 [Q2 [R2 _]]].
  split.
  - split; [reflexivity|]. split; [reflexivity|]. split; [exact F1|].
    split; [subst second; rewrite Q1; reflexivity|].
    split; [exact R1 | exact T1].
  - split; [reflexivity|]. split; [exact F2|]. split; [exact Q2|].
    split; [subst third; rewrite R2; exact R1|].
    subst third. rewrite T2. apply app_nil_r.
Defined.

(** A RDY tag whose fields do not decode stops the decoder with the error
    of the field decoder, before [ready] is called and with no offer made:
    the state is as it was. *)
Lemma ready_tag_undecoded (fields : list bytes) (d : decoder) (e : error)
  (x : option Ready) :
  parseReady fields = Ok (x, Some e) ->
  statusSwitch (str "RDY") fields d = (Return (Some e), d).
Proof.
  intro H. change (statusSwitch (str "RDY") fields d) with (caseTagReady fields d).
  unfold caseTagReady. rewrite H. destruct x; reflexivity.
Qed.

(** C9.  On a running process whose quit queue, of capacity one and open,
    still holds the acknowledgment channel of an earlier [Quit], a call of
    [Quit] returns no channel and the error "Quit() has already been
    called"; it does not reach [Execute]: nothing is written to the
    standard input of the child, no handshake is taken or answered, and the
    queue keeps the pending registration. *)
Theorem second_Quit_returns_error_and_sends_nothing :
  forall (p : Process) (q : chan),
    checkRunning p = None ->
    closed (p_quit p) = false ->
    cap (p_quit p) = 1 ->
    buf (p_quit p) = [q] ->
    exists p',
      Quit p = Returned (None, Some "magma/proc: Quit() has already been called"%string) p'
      /\ stdin p' = stdin p
      /\ p_quit p' = p_quit p
      /\ p_ready p' = p_ready p
      /\ handshakes p' = handshakes p
      /\ p_writer p' = p_writer p.
Proof.
  intros p q Hrun Hopen Hcap Hbuf.
  exists (snd (makeChannel p)).
  unfold Quit. rewrite Hrun.
  change (makeChannel p) with (fresh p, snd (makeChannel p)). cbv iota beta.
  unfold trySend, makeChannel. cbn [snd p_quit].
  rewrite Hopen, Hcap, Hbuf. cbn.
  repeat split; reflexivity.
Qed.

Lemma second_Quit_witness :
  (Quit offered = Suspended "<-p.response" afterFirstQuit
   /\ stdin afterFirstQuit = str "quit;" ++ [runCommandChar]
   /\ buf (p_quit afterFirstQuit) = [0])
  /\ exists p',
      Quit afterFirstQuit
      = Returned (None, Some "magma/proc: Quit() has already been called"%string) p'
      /\ stdin p' = str "quit;" ++ [runCommandChar].
Proof.
  split; [repeat split; reflexivity|].
  destruct (@second_Quit_returns_error_and_sends_nothing afterFirstQuit 0
              eq_refl eq_refl eq_refl eq_refl) as [p' [HQ [Hs _]]].
  exists p'. split; [exact HQ | exact Hs].
Defined.

(** C4.  [parseResponse] does not return on a list of fewer than two
    fields: the error of its length test is assigned and the function goes
    on to slice the list, which panics.  A line ERP without fields, a
    well-formed tag line, brings the decoder down that way, in whatever
    state it is. *)
Theorem parseResponse_panics_on_short_field_lists :
  parseResponse [] = Panic "slice bounds out of range"
  /\ parseResponse [str "12"] = Panic "slice bounds out of range"
  /\ forall d : decoder,
      fst (handleLine Main (newTagChar :: str "ERP") d)
      = Panics "slice bounds out of range".
Proof.
  split; [reflexivity|]. split; [reflexivity|].
  intro d. reflexivity.
Qed.

Lemma parseHistoryPosition_of_two (a b : bytes) :
  parseHistoryPosition [a; b]
  = Ok (match Atoi a with
        | (row, Some e) => ({| Row := row; Column := 0 |}, Some e)
        | (row, None) =>
          let '(col, err) := Atoi b in ({| Row := row; Column := col |}, err)
        end).
Proof.
  unfold parseHistoryPosition.
  change (negb (len [a; b] =? 2)%Z) with false. cbv iota.
  change (index [a; b] 0) with (Ok a). change (index [a; b] 1) with (Ok b).
  cbn [bind]. destruct (Atoi a) as [row [e|]]; [reflexivity|].
  cbn [bind]. destruct (Atoi b) as [col err]. reflexivity.
Qed.

Lemma parseHistoryPosition_of_others (l : list bytes) :
  length l <> 2 ->
  parseHistoryPosition l
  = Ok (zeroPosition, Some "position output not of required form"%string).
Proof.
  intro H. unfold parseHistoryPosition.
  replace (negb (len l =? 2)%Z) with true; [reflexivity|].
  symmetry. apply negb_true_iff. apply Z.eqb_neq. unfold len. lia.
Qed.

(** With two fields or more [parseResponse] does return, and with an error
    unless the fields are four integers. *)
Lemma parseResponse_on_two_or_more (a b : bytes) (rest : list bytes) :
  exists c err,
    parseResponse (a :: b :: rest) = Ok (c, err)
    /\ (err = None <->
        snd (Atoi a) = None /\ snd (Atoi b) = None
        /\ exists x y, rest = [x; y] /\ snd (Atoi x) = None /\ snd (Atoi y) = None).
Proof.
  unfold parseResponse.
  assert (S2 : slice_to (a :: b :: rest) 2 = Ok [a; b]).
  { unfold slice_to, len. cbn [length].
    replace ((2 <? 0)%Z || (Z.of_nat (S (S (length rest))) <? 2)%Z) with false
      by (symmetry; apply orb_false_iff; split; apply Z.ltb_ge; lia).
    reflexivity. }
  assert (S3 : slice_from (a :: b :: rest) 2 = Ok rest).
  { unfold slice_from, len. cbn [length].
    replace ((2 <? 0)%Z || (Z.of_nat (S (S (length rest))) <? 2)%Z) with false
      by (symmetry; apply orb_false_iff; split; apply Z.ltb_ge; lia).
    reflexivity. }
  rewrite S2, S3. cbn [bind]. rewrite parseHistoryPosition_of_two.
  destruct (Atoi a) as [va [ea|]] eqn:Ea; cbn [bind snd].
  - do 2 eexists. split; [reflexivity|]. split; [discriminate|].
    intros [H _]; discriminate H.
  - destruct (Atoi b) as [vb [eb|]] eqn:Eb; cbn [bind snd].
    + do 2 eexists. split; [reflexivity|]. split; [discriminate|].
      intros [_ [H _]]; discriminate H.
    + destruct (Nat.eq_dec (length rest) 2) as [L|L].
      * destruct rest as [|x [|y [|z rest]]]; try discriminate L.
        rewrite parseHistoryPosition_of_two.
        destruct (Atoi x) as [vx [ex|]] eqn:Ex; cbn [bind snd].
        -- do 2 eexists. split; [reflexivity|]. split; [discriminate|].
           intros [_ [_ [x' [y' [H [H1 _]]]]]]. inversion H; subst.
           rewrite Ex in H1. discriminate H1.
        -- destruct (Atoi y) as [vy [ey|]] eqn:Ey; cbn [bind snd].
           ++ do 2 eexists. split; [reflexivity|]. split; [discriminate|].
              intros [_ [_ [x' [y' [H [_ H2]]]]]]. inversion H; subst.
              rewrite Ey in H2. discriminate H2.
           ++ do 2 eexists. split; [reflexivity|]. split; [|reflexivity].
              intros _. repeat split. exists x, y. rewrite Ex, Ey. auto.
      * rewrite parseHistoryPosition_of_others by exact L. cbn [bind].
        do 2 eexists. split; [reflexivity|]. split; [discriminate|].
        intros [_ [_ [x [y [H _]]]]]. subst rest. exfalso. apply L. reflexivity.
Qed.

(** C6.  [get] does not return the span between its two positions.  On one
    row it returns the row from the start column to its end followed by
    the row up to the end column: for the command abcdef and the span from
    (0, 1) to (0, 3) that is bcdefabc where the substring is bc.  Over two
    rows it leaves out the newline before the last row: for the command
    ab, newline, cd and the span from (0, 1) to (1, 1) it returns bc. *)
Theorem get_misses_the_span_of_the_chunk :
  let oneRow := {| start_ := {| Row := 0; Column := 1 |};
                   end_ := {| Row := 0; Column := 3 |} |} in
  let twoRows := {| start_ := {| Row := 0; Column := 1 |};
                    end_ := {| Row := 1; Column := 1 |} |} in
  (get oneRow (str "abcdef") = Ok (str "bcdefabc")
   /\ spanOf oneRow (str "abcdef") = str "bc")
  /\ (get twoRows (str "ab" ++ newline ++ str "cd") = Ok (str "bc")
      /\ spanOf twoRows (str "ab" ++ newline ++ str "cd")
         = str "b" ++ newline ++ str "c").
Proof.
  cbv zeta. split; split; reflexivity.
Qed.

(** What [get] returns for a chunk within one row, in general. *)
Lemma get_on_one_row (input row : bytes) (n : nat) (sc ec : nat) :
  nth_error (Split input newline) n = Some row ->
  sc <= length row -> ec <= length row ->
  get {| start_ := {| Row := Z.of_nat n; Column := Z.of_nat sc |};
         end_ := {| Row := Z.of_nat n; Column := Z.of_nat ec |} |} input
  = Ok (skipn sc row ++ firstn ec row).
Proof.
  intros Hrow Hsc Hec. unfold get. cbn [start_ end_ Row Column].
  assert (Hn : n < length (Split input newline))
    by (apply nth_error_Some; congruence).
  replace (len (Split input newline) <=? Z.of_nat n)%Z with false
    by (symmetry; apply Z.leb_gt; unfold len; lia).
  cbn [orb].
  assert (Hi : index (Split input newline) (Z.of_nat n) = Ok row).
  { unfold index. replace (Z.of_nat n <? 0)%Z with false
      by (symmetry; apply Z.ltb_ge; lia).
    rewrite Nat2Z.id, Hrow. reflexivity. }
  rewrite Hi. cbn [bind].
  unfold slice_from, slice_to, len.
  replace ((Z.of_nat sc <? 0)%Z || (Z.of_nat (length row) <? Z.of_nat sc)%Z)
    with false
    by (symmetry; apply orb_false_iff; split; apply Z.ltb_ge; lia).
  cbn [bind].
  replace (Z.to_nat (Z.of_nat n - (Z.of_nat n + 1))) with 0 by lia.
  cbn [get_loop bind].
  replace ((Z.of_nat ec <? 0)%Z || (Z.of_nat (length row) <? Z.of_nat ec)%Z)
    with false
    by (symmetry; apply orb_false_iff; split; apply Z.ltb_ge; lia).
  rewrite !Nat2Z.id. reflexivity.
Qed.

End DecoderFacts.

(** ** The parsers *)

Module DriverFacts.
Import Go Parse DriverSpec.

Lemma fetchNextLine_linesLeft (c : lineConsumer) :
  if fst (fetchNextLine c)
  then linesLeft (snd (fetchNextLine c)) = linesLeft c
       /\ processed (snd (fetchNextLine c)) = false
  else snd (fetchNextLine c) = c.
Proof.
  unfold fetchNextLine, linesLeft. destruct c as [src l pr].
  cbn [processed source]. destruct pr; [|cbn; split; reflexivity].
  destruct src as [|x rest]; cbn; [reflexivity|]. split; [lia | reflexivity].
Qed.

Lemma consumeLine_linesLeft (c : lineConsumer) :
  processed c = false -> S (linesLeft (consumeLine c)) = linesLeft c.
Proof.
  unfold linesLeft, consumeLine. cbn [source processed]. intros ->. lia.
Qed.

Lemma drive_finishes (St P : Type) (step : St -> P -> moved St P)
  (measure : St -> P -> nat) :
  (forall st p, match step st p with
                | Goto (Some st') p' => measure st' p' < measure st p
                | _ => True
                end) ->
  forall (fuel : nat) (st : St) (p : P),
    measure st p < fuel ->
    forall q, drive step fuel (Some st) p <> Unfinished q.
Proof.
  intro Hstep. induction fuel as [|fuel IH]; intros st p Hm q; [lia|].
  cbn [drive]. specialize (Hstep st p).
  destruct (step st p) as [[st'|] p'|m p']; try discriminate.
  - apply IH. lia.
  - destruct fuel; discriminate.
Qed.

End DriverFacts.

Module TracebackFacts.
Import Go Parse DriverSpec DriverFacts TracebackSpec.

Lemma parseTraceback_passes_over (p : TracebackParser) (x : bytes)
  (rest : list bytes) :
  processed (tb_lines p) = true -> source (tb_lines p) = x :: rest ->
  isHeader x = false ->
  parseTraceback p
  = Goto (Some parseTracebackSt)
      {| tb_lines := {| source := rest; line := TrimSpace x; processed := true |};
         tb_err := tb_err p; tb_current := tb_current p;
         tb_output := tb_output p |}.
Proof.
  intros Hp Hs Hx. destruct p as [[src ln pr] err cur out].
  cbn [tb_lines processed source] in Hp, Hs. subst pr src.
  unfold isHeader in Hx. cbv zeta in Hx.
  unfold parseTraceback, tb_fetch, fetchNextLine.
  cbn [tb_lines processed source tb_with_lines tb_err tb_current tb_output
         negb line].
  rewrite Hx. reflexivity.
Qed.

Lemma parseTraceback_on_bad_level_header (p : TracebackParser) (x : bytes)
  (rest : list bytes) :
  processed (tb_lines p) = true -> source (tb_lines p) = x :: rest ->
  isBadLevelHeader x = true ->
  exists p',
    parseTraceback p = Goto (Some parseTracebackErrorSt) p'
    /\ tb_err p' = tb_err p /\ tb_output p' = tb_output p.
Proof.
  intros Hp Hs Hx. destruct p as [[src ln pr] err cur out].
  cbn [tb_lines processed source] in Hp, Hs. subst pr src.
  unfold isBadLevelHeader in Hx. cbv zeta in Hx.
  apply andb_true_iff in Hx. destruct Hx as [Hx H3].
  apply andb_true_iff in Hx. destruct Hx as [H1 H2].
  unfold parseTraceback, tb_fetch, fetchNextLine.
  cbn [tb_lines processed source tb_with_lines tb_with_current tb_err
         tb_current tb_output negb line].
  rewrite H1. cbn [tb_lines line]. rewrite H2, H3.
  eexists. split; [reflexivity|]. split; reflexivity.
Qed.

Lemma drive_to_the_bad_header (skipped : list bytes) :
  forall (fuel : nat) (p : TracebackParser) (x : bytes) (rest : list bytes),
    processed (tb_lines p) = true ->
    source (tb_lines p) = skipped ++ x :: rest ->
    forallb (fun y => negb (isHeader y)) skipped = true ->
    isBadLevelHeader x = true ->
    tb_err p = None ->
    length skipped + 2 <= fuel ->
    exists p',
      drive tracebackStep fuel (Some parseTracebackSt) p
      = Crashed "parser error triggered but error value not set" p'
      /\ tb_output p' = tb_output p.
Proof.
  induction skipped as [|y skipped IH]; intros fuel p x rest Hp Hs Hskip Hx He Hf.
  - destruct fuel as [|[|fuel]]; [cbn in Hf; lia | cbn in Hf; lia |].
    destruct (parseTraceback_on_bad_level_header p Hp Hs Hx) as [p' [E [E1 E2]]].
    cbn [drive tracebackStep]. rewrite E. cbn [drive tracebackStep].
    unfold parseTracebackError. rewrite E1, He.
    exists p'. split; [reflexivity | exact E2].
  - destruct fuel as [|fuel]; [cbn in Hf; lia|].
    cbn [forallb] in Hskip. apply andb_true_iff in Hskip.
    destruct Hskip as [Hy Hskip]. apply negb_true_iff in Hy.
    cbn [drive tracebackStep].
    rewrite (parseTraceback_passes_over p Hp Hs Hy).
    edestruct (IH fuel) as [p' [E1 E2]];
      [| | exact Hskip | exact Hx | | | exists p'; split; [exact E1 | exact E2]];
      try reflexivity; try assumption.
    cbn [length] in Hf. lia.
Qed.

(** C8.  The traceback parser, started afresh on lines of which the first
    header carries the level mark and does not split in two fields, panics:
    the error made for the case is dropped instead of being kept in
    [p.err], and the error state finds no error to deliver.  Nothing is
    sent on the output channel, which is not closed either. *)
Theorem traceback_header_not_in_two_fields_panics :
  forall (skipped : list bytes) (x : bytes) (rest : list bytes),
    forallb (fun y => negb (isHeader y)) skipped = true ->
    isBadLevelHeader x = true ->
    exists p,
      tracebackRun None (newLineConsumer (skipped ++ x :: rest))
      = Crashed "parser error triggered but error value not set" p
      /\ tb_output p = [].
Proof.
  intros skipped x rest Hskip Hx. unfold tracebackRun.
  apply drive_to_the_bad_header with (skipped := skipped) (x := x) (rest := rest);
    try assumption; try reflexivity.
  unfold transitionBound, newLineConsumer. cbn [source].
  rewrite length_app. cbn [length]. lia.
Qed.

(** A header with an index and no name, after a line that is no header. *)
Lemma traceback_header_not_in_two_fields_witness :
  exists p,
    tracebackRun None
      (newLineConsumer [str "Traceback:"; str "#0("; str "x: 1"; str ")"])
    = Crashed "parser error triggered but error value not set" p
    /\ tb_output p = [].
Proof.
  exact (@traceback_header_not_in_two_fields_panics
           [str "Traceback:"] (str "#0(") [str "x: 1"; str ")"]
           eq_refl eq_refl).
Defined.

Ltac tb_simpl :=
  cbn [tb_lines tb_err tb_current tb_output tb_with_lines tb_with_err
         tb_with_current tb_emit tb_consume fst snd].

(** Every transition of the traceback parser lowers the measure. *)
Lemma tracebackStep_decreases (st : tracebackState) (p : TracebackParser) :
  match tracebackStep st p with
  | Goto (Some st') p' => tracebackMeasure st' p' < tracebackMeasure st p
  | _ => True
  end.
Proof.
  unfold tracebackMeasure.
  pose proof (fetchNextLine_linesLeft (tb_lines p)) as F.
  destruct st; cbn [tracebackStep tracebackWeight].
  - unfold parseTraceback, tb_fetch.
    destruct (fetchNextLine (tb_lines p)) as [ok c']. cbn [fst snd] in F.
    destruct ok; tb_simpl; cbn [negb]; [|exact I]. destruct F as [F1 F2].
    pose proof (consumeLine_linesLeft _ F2) as C.
    repeat match goal with
           | |- context [if ?b then _ else _] => destruct b
           | |- context [match Atoi ?x with _ => _ end] =>
             destruct (Atoi x) as [? [?|]]
           end; tb_simpl; cbn [tracebackWeight]; lia.
  - unfold parseTracebackParam, tb_fetch.
    destruct (fetchNextLine (tb_lines p)) as [ok c']. cbn [fst snd] in F.
    destruct ok; tb_simpl; cbn [negb]; [|exact I]. destruct F as [F1 F2].
    pose proof (consumeLine_linesLeft _ F2) as C.
    destruct (HasPrefix (line c') rightParam); tb_simpl;
      cbn [tracebackWeight]; [lia|].
    destruct (SplitN2 (line c') (str ": ")) as [|f0 [|f1 [|f2 more]]]; tb_simpl;
      cbn [tracebackWeight]; lia.
  - unfold parseTracebackLocation, tb_fetch.
    destruct (fetchNextLine (tb_lines p)) as [ok c']. cbn [fst snd] in F.
    destruct ok; tb_simpl; cbn [negb]; [|exact I]. destruct F as [F1 F2].
    pose proof (consumeLine_linesLeft _ F2) as C.
    destruct (HasPrefix (line c') rightParam); tb_simpl;
      cbn [tracebackWeight]; [|lia].
    destruct (SplitN2 (line c') (str " at ")) as [|f0 [|f1 [|f2 more]]]; tb_simpl;
      cbn [tracebackWeight]; try lia.
    destruct (LastIndex f1 (str ":")) as [i|]; tb_simpl; cbn [tracebackWeight];
      [|lia].
    destruct (Atoi (skipn (i + 1) f1)) as [row [e|]]; tb_simpl;
      cbn [tracebackWeight]; lia.
  - unfold parseTracebackError. destruct (tb_err p); exact I.
Qed.

(** The traceback parser ends by itself: the bound on its transitions is
    never what stops it. *)
Lemma tracebackRun_finishes (err0 : option error) (consumer : lineConsumer)
  (q : TracebackParser) :
  tracebackRun err0 consumer <> Unfinished q.
Proof.
  unfold tracebackRun.
  apply drive_finishes with (measure := tracebackMeasure);
    [exact tracebackStep_decreases|].
  unfold tracebackMeasure, transitionBound, linesLeft. tb_simpl.
  destruct (processed consumer); cbn [tracebackWeight]; lia.
Qed.

End TracebackFacts.

Module ErrorPositionFacts.
Import Go Parse DriverSpec DriverFacts ErrorPositionSpec.

Lemma readTopLevel_fresh (l : bytes) (n : ErrorPosition) :
  readTopLevel l = Ok (Describes n) -> LocatedIn n = None /\ SourceFragment n = [].
Proof.
  unfold readTopLevel.
  destruct (length (TrimPrefix l (str "In eval expression, ")) <? length l).
  - destruct (slice_to _ _) as [arg|]; cbn [bind]; [|discriminate].
    destruct (extractRowColumnFromString arg) as [[[row col] [e|]]|]; cbn [bind];
      intro H; inversion H; subst; split; reflexivity.
  - destruct (length (TrimPrefix l (str "In file ")) <? length l); [|discriminate].
    destruct (extractFileRowColumn _) as [[[[file row] col] [e|]]|]; cbn [bind];
      try discriminate.
    destruct (slice file 1 _); cbn [bind]; intro H; inversion H; subst;
      split; reflexivity.
Qed.

Lemma readLocatedIn_fresh (l : bytes) (n : ErrorPosition) :
  readLocatedIn l = Ok (Describes n) -> LocatedIn n = None /\ SourceFragment n = [].
Proof.
  unfold readLocatedIn.
  destruct (length (TrimPrefix l (str "Located in")) <? length l); [|discriminate].
  set (l1 := TrimPrefix l (str "Located in")).
  destruct (length (TrimPrefix l1 (str " enclosing eval expression, at ")) <? length l1).
  - destruct (slice_to _ _) as [arg|]; cbn [bind]; [|discriminate].
    destruct (extractRowColumnFromString arg) as [[[row col] [e|]]|]; cbn [bind];
      intro H; inversion H; subst; split; reflexivity.
  - destruct (length (TrimPrefix l1 (str " file ")) <? length l1).
    + destruct (slice_to _ _) as [arg|]; cbn [bind]; [|discriminate].
      destruct (extractFileRowColumn arg) as [[[[file row] col] [e|]]|]; cbn [bind];
        try discriminate.
      destruct (slice file 1 _); cbn [bind]; intro H; inversion H; subst;
        split; reflexivity.
    + destruct (bytes_eqb l1 (str ":")); intro H; inversion H; subst;
        split; reflexivity.
Qed.

Lemma update_at_length (H : store) (x : ErrorPosition) (T : store)
  (f : ErrorPosition -> ErrorPosition) :
  update (length H) f (H ++ x :: T) = H ++ f x :: T.
Proof.
  induction H as [|y H IH]; cbn [length app update]; [reflexivity|].
  now rewrite IH.
Qed.

Lemma node_of_fresh (n : ErrorPosition) (f : bytes) :
  LocatedIn n = None -> setSourceFragment f n = node n f None.
Proof.
  intro H. unfold setSourceFragment, node. now rewrite H.
Qed.

Lemma link_node (n : ErrorPosition) (f : bytes) (a : ptr) :
  setLocatedIn (Some a) (node n f None) = node n f (Some a).
Proof. reflexivity. Qed.

Lemma locatedInOf_reads (x : bytes) (n : ErrorPosition) :
  locatedInOf x = Some n -> readLocatedIn (TrimSpace x) = Ok (Describes n).
Proof.
  unfold locatedInOf. destruct (readLocatedIn (TrimSpace x)) as [[| |m]|];
    try discriminate. intro H. now inversion H.
Qed.

Lemma topLevelOf_reads (x : bytes) (n : ErrorPosition) :
  topLevelOf x = Some n -> readTopLevel (TrimSpace x) = Ok (Describes n).
Proof.
  unfold topLevelOf. destruct (readTopLevel (TrimSpace x)) as [[| |m]|];
    try discriminate. intro H. now inversion H.
Qed.

Lemma fragmentOf_reads (x f : bytes) :
  fragmentOf x = Some f ->
  (length (TrimPrefix (TrimSpace x) (str ">> ")) <? length (TrimSpace x)) = true
  /\ f = TrimPrefix (TrimSpace x) (str ">> ").
Proof.
  unfold fragmentOf. cbv zeta.
  destruct (length (TrimPrefix (TrimSpace x) (str ">> ")) <? length (TrimSpace x));
    [|discriminate].
  intro H. inversion H. split; reflexivity.
Qed.

Ltac ep_simpl :=
  cbn [ep_lines ep_err current currentSub ep_output heap ep_with_lines
         ep_with_err ep_with_current ep_with_currentSub ep_with_heap ep_send
         ep_consume consumeLine processed source line negb andb fst snd].

Ltac ep_simpl_in H :=
  cbn [ep_lines ep_err current currentSub ep_output heap ep_with_lines
         ep_with_err ep_with_current ep_with_currentSub ep_with_heap ep_send
         ep_consume consumeLine processed source line negb andb fst snd] in H.

(** A "Located in" line and its source fragment line add one link. *)
Lemma one_link (p : ErrorPositionParser) (H : store) (ln : ErrorPosition)
  (lf loc frag : bytes) (more : list bytes) (n : ErrorPosition) (f : bytes) :
  linking p H (node ln lf None) (loc :: frag :: more) ->
  locatedInOf loc = Some n -> fragmentOf frag = Some f ->
  exists p1 p2,
    parseLocatedInExpression p = Goto (Some parseSourceFragmentSt) p1
    /\ parseSourceFragment p1 = Goto (Some parseLocatedInExpressionSt) p2
    /\ linking p2 (H ++ [node ln lf (Some (S (length H)))]) (node n f None) more.
Proof.
  intros [Hp Hs He Hc Ho Hh Hl Hsub] Hloc Hfrag.
  apply locatedInOf_reads in Hloc.
  destruct (readLocatedIn_fresh _ Hloc) as [Hn _].
  apply fragmentOf_reads in Hfrag. destruct Hfrag as [Hlt Hf].
  destruct p as [[src l0 pr] err cur sub out hp].
  cbn [ep_lines processed source ep_err current currentSub ep_output heap] in *.
  subst pr src err cur out hp.
  assert (Link : exists hp1,
             (match LocatedIn (nth 0 ((H ++ [node ln lf None]) ++ [n]) zeroErrorPosition) with
              | None => Ok (update 0 (setLocatedIn (Some (length (H ++ [node ln lf None]))))
                              ((H ++ [node ln lf None]) ++ [n]))
              | Some _ =>
                match sub with
                | None => Panic "invalid memory address or nil pointer dereference"
                | Some s => Ok (update s (setLocatedIn (Some (length (H ++ [node ln lf None]))))
                                  ((H ++ [node ln lf None]) ++ [n]))
                end
              end) = Ok hp1
             /\ hp1 = (H ++ [node ln lf (Some (S (length H)))]) ++ [n]).
  { rewrite length_app. cbn [length]. rewrite Nat.add_1_r.
    destruct H as [|root H'].
    - cbn. eexists. split; reflexivity.
    - destruct Hsub as [Hroot Hsub']. subst sub.
      cbn [app nth]. destruct (LocatedIn root) eqn:Er; [|now exfalso].
      eexists. split; [reflexivity|].
      change ((root :: H') ++ [node ln lf None]) with ((root :: H') ++ node ln lf None :: []).
      rewrite <- app_assoc. cbn [app].
      rewrite (update_at_length (root :: H') (node ln lf None) [n]).
      rewrite <- app_assoc. reflexivity. }
  destruct Link as [hp1 [Elink Ehp1]].
  unfold parseLocatedInExpression, ep_fetch, fetchNextLine. ep_simpl.
  rewrite Hloc. unfold alloc. ep_simpl.
  rewrite Elink.
  do 2 eexists. split; [reflexivity|].
  unfold parseSourceFragment, ep_fetch, fetchNextLine. ep_simpl.
  rewrite Hlt. ep_simpl.
  split; [reflexivity|].
  constructor; ep_simpl; try reflexivity.
  - subst hp1 f.
    replace (length (H ++ [node ln lf None]))
      with (length (H ++ [node ln lf (Some (S (length H)))]))
      by (rewrite !length_app; reflexivity).
    rewrite update_at_length. rewrite node_of_fresh by exact Hn. reflexivity.
  - destruct H as [|root H']; cbn [app].
    + split; [discriminate|]. reflexivity.
    + destruct Hsub as [Hroot _]. split; [exact Hroot|].
      cbn [length]. rewrite !length_app. reflexivity.
Qed.

Lemma linksOf_cons (loc frag : bytes) (links : list (bytes * bytes))
  (nodes : list (ErrorPosition * bytes)) :
  linksOf ((loc, frag) :: links) = Some nodes ->
  exists n f ns,
    nodes = (n, f) :: ns /\ locatedInOf loc = Some n /\ fragmentOf frag = Some f
    /\ linksOf links = Some ns.
Proof.
  cbn [linksOf].
  destruct (locatedInOf loc) as [n|]; [|discriminate].
  destruct (fragmentOf frag) as [f|]; [|discriminate].
  destruct (linksOf links) as [ns|]; [|discriminate].
  intro H. inversion H. exists n, f, ns. auto.
Qed.

Lemma linksOf_length (links : list (bytes * bytes)) :
  forall nodes, linksOf links = Some nodes -> length nodes = length links.
Proof.
  induction links as [|[loc frag] links IH]; intros nodes H.
  - inversion H. reflexivity.
  - apply linksOf_cons in H. destruct H as [n [f [ns [-> [_ [_ H]]]]]].
    cbn [length]. f_equal. now apply IH.
Qed.

Lemma linksOf_nth (links : list (bytes * bytes)) :
  forall nodes i loc frag,
    linksOf links = Some nodes -> nth_error links i = Some (loc, frag) ->
    exists n f, nth_error nodes i = Some (n, f) /\ locatedInOf loc = Some n.
Proof.
  induction links as [|[loc0 frag0] links IH]; intros nodes i loc frag H Hi.
  - destruct i; discriminate Hi.
  - apply linksOf_cons in H. destruct H as [n [f [ns [-> [Hn [_ H]]]]]].
    destruct i as [|i].
    + inversion Hi; subst. exists n, f. split; [reflexivity | exact Hn].
    + cbn [nth_error] in *. now apply (IH ns i loc frag).
Qed.

Lemma drive_done (St P : Type) (step : St -> P -> moved St P) (fuel : nat)
  (p : P) : drive step fuel None p = Closed p.
Proof. destruct fuel; reflexivity. Qed.

(** A driver that reached the end reaches it with more transitions allowed. *)
Lemma drive_more (St P : Type) (step : St -> P -> moved St P) (fuel : nat) :
  forall (state : option St) (p p' : P) (k : nat),
    drive step fuel state p = Closed p' ->
    drive step (fuel + k) state p = Closed p'.
Proof.
  induction fuel as [|fuel IH]; intros state p p' k H.
  - destruct state; [discriminate H|]. cbn in H. rewrite drive_done. exact H.
  - destruct state as [st|]; [|rewrite drive_done; exact H].
    cbn [drive Nat.add] in *. destruct (step st p) as [next q|m q];
      [|discriminate H]. now apply IH.
Qed.

(** The run of links, from the state after the root and its fragment. *)
Lemma links_loop (links : list (bytes * bytes)) :
  forall (nodes : list (ErrorPosition * bytes)) (H : store) (ln : ErrorPosition)
         (lf : bytes) (p : ErrorPositionParser) (rest : list bytes) (fuel : nat),
    linking p H (node ln lf None) (linesOf links ++ rest) ->
    linksOf links = Some nodes ->
    endsTheChain rest ->
    2 * length links + 1 <= fuel ->
    exists p',
      drive errorPositionStep fuel (Some parseLocatedInExpressionSt) p = Closed p'
      /\ heap p' = H ++ linked (length H) ((ln, lf) :: nodes)
      /\ current p' = Some 0 /\ ep_err p' = None /\ ep_output p' = [].
Proof.
  induction links as [|[loc frag] links IH];
    intros nodes H ln lf p rest fuel L Hnodes Hrest Hfuel.
  - inversion Hnodes; subst nodes. cbn [linesOf app] in L.
    destruct fuel as [|fuel]; [cbn in Hfuel; lia|].
    destruct L as [Hp Hs He Hc Ho Hh Hl Hsub].
    destruct p as [[src l0 pr] err cur sub out hp]. ep_simpl_in Hp.
    ep_simpl_in Hs. ep_simpl_in He. ep_simpl_in Hc. ep_simpl_in Ho.
    ep_simpl_in Hh. subst pr src err cur out hp.
    cbn [drive errorPositionStep].
    unfold parseLocatedInExpression, ep_fetch, fetchNextLine. ep_simpl.
    destruct rest as [|x rest].
    + ep_simpl. rewrite drive_done. eexists. split; [reflexivity|].
      ep_simpl. repeat split; reflexivity.
    + ep_simpl. cbn [endsTheChain] in Hrest. rewrite Hrest. rewrite drive_done.
      eexists. split; [reflexivity|]. ep_simpl. repeat split; reflexivity.
  - apply linksOf_cons in Hnodes.
    destruct Hnodes as [n [f [ns [-> [Hn [Hf Hns]]]]]].
    cbn [linesOf app] in L.
    destruct (one_link L Hn Hf) as [p1 [p2 [E1 [E2 L2]]]].
    destruct fuel as [|[|fuel]]; [cbn in Hfuel; lia | cbn in Hfuel; lia |].
    cbn [drive errorPositionStep]. rewrite E1. cbn [drive errorPositionStep].
    rewrite E2.
    destruct (IH ns _ _ _ _ rest fuel L2 Hns Hrest) as [p' [D [Hh [Hc [He Ho]]]]].
    { cbn [length] in Hfuel. lia. }
    exists p'. split; [exact D|]. split; [|auto].
    rewrite Hh. rewrite length_app. cbn [length]. rewrite Nat.add_1_r.
    rewrite <- app_assoc. reflexivity.
Qed.

(** The addresses along the links of records laid out by [linked]: one
    after the other, to the last record. *)
Lemma chain_of_linked (ns : list (ErrorPosition * bytes)) :
  forall (H : store) (fuel : nat),
    ns <> [] -> length ns < fuel ->
    chain (H ++ linked (length H) ns) fuel (length H) = seq (length H) (length ns).
Proof.
  induction ns as [|[n f] ns IH]; intros H fuel Hne Hfuel; [now exfalso|].
  destruct fuel as [|fuel]; [cbn in Hfuel; lia|].
  cbn [chain linked length seq]. f_equal.
  rewrite nth_error_app2 by lia. rewrite Nat.sub_diag. cbn [nth_error node LocatedIn].
  destruct ns as [|m ns]; [reflexivity|].
  specialize (IH (H ++ [node n f (Some (S (length H)))]) fuel).
  rewrite length_app in IH. cbn [length] in IH. rewrite Nat.add_1_r in IH.
  rewrite <- app_assoc in IH. cbn [app] in IH.
  apply IH; [discriminate|]. cbn [length] in *. lia.
Qed.

Lemma nth_error_linked (ns : list (ErrorPosition * bytes)) :
  forall (a i : nat) (n : ErrorPosition) (f : bytes),
    nth_error ns i = Some (n, f) ->
    exists next, nth_error (linked a ns) i = Some (node n f next).
Proof.
  induction ns as [|[m g] ns IH]; intros a i n f Hi.
  - destruct i; discriminate Hi.
  - destruct i as [|i].
    + inversion Hi; subst. cbn [linked nth_error]. eexists. reflexivity.
    + cbn [linked nth_error] in *. now apply IH.
Qed.

Lemma linesOf_length (links : list (bytes * bytes)) :
  length (linesOf links) = 2 * length links.
Proof.
  induction links as [|[loc frag] links IH]; [reflexivity|].
  cbn [linesOf length]. rewrite IH. lia.
Qed.

(** The root and its fragment, on a parser just made. *)
Lemma root_and_fragment (top frag0 : bytes) (more : list bytes)
  (n0 : ErrorPosition) (f0 : bytes) :
  topLevelOf top = Some n0 -> fragmentOf frag0 = Some f0 ->
  exists p1 p2,
    parseTopLevel (ep_start (newLineConsumer (top :: frag0 :: more))
                     newErrorPositionParser)
    = Goto (Some parseSourceFragmentSt) p1
    /\ parseSourceFragment p1 = Goto (Some parseLocatedInExpressionSt) p2
    /\ linking p2 [] (node n0 f0 None) more.
Proof.
  intros Htop Hfrag. apply topLevelOf_reads in Htop.
  destruct (readTopLevel_fresh _ Htop) as [Hn _].
  apply fragmentOf_reads in Hfrag. destruct Hfrag as [Hlt Hf].
  unfold parseTopLevel, ep_start, newLineConsumer, newErrorPositionParser,
    ep_fetch, fetchNextLine. ep_simpl.
  rewrite Htop. unfold alloc. ep_simpl.
  do 2 eexists. split; [reflexivity|].
  unfold parseSourceFragment, ep_fetch, fetchNextLine. ep_simpl.
  rewrite Hlt. ep_simpl. split; [reflexivity|].
  constructor; ep_simpl; try reflexivity.
  cbn [length app update]. subst f0. rewrite node_of_fresh by exact Hn.
  reflexivity.
Qed.

(** A parser just made is given a stream that starts with a top-level
    position line it reads a record from, then a source fragment line, then
    "Located in" lines it reads records from, each followed by its source
    fragment line, and that ends there or goes on with a line that is not a
    "Located in" line.  It closes its output channel after sending the root
    record; the store holds the records in the order of the lines, each
    linked to the next and the last to nothing. *)
Lemma chain_of_recognized_lines :
  forall (top frag0 : bytes) (links : list (bytes * bytes)) (rest : list bytes)
         (n0 : ErrorPosition) (f0 : bytes) (nodes : list (ErrorPosition * bytes)),
    topLevelOf top = Some n0 ->
    fragmentOf frag0 = Some f0 ->
    linksOf links = Some nodes ->
    endsTheChain rest ->
    exists p,
      ep_run (ep_start (newLineConsumer (top :: frag0 :: linesOf links ++ rest))
                newErrorPositionParser)
      = Closed p
      /\ ep_output p = [inl 0]
      /\ heap p = linked 0 ((n0, f0) :: nodes)
      /\ length (heap p) = S (length links)
      /\ chain (heap p) (S (length (heap p))) 0 = seq 0 (S (length links))
      /\ (forall i loc frag,
             nth_error links i = Some (loc, frag) ->
             TrimSpace loc = str "Located in:" ->
             exists n,
               nth_error (heap p) (S i) = Some n
               /\ File n = [] /\ Eval n = false /\ Row n = 0%Z /\ Column n = 0%Z).
Proof.
  intros top frag0 links rest n0 f0 nodes Htop Hfrag Hlinks Hrest.
  destruct (@root_and_fragment top frag0 (linesOf links ++ rest) n0 f0
              Htop Hfrag) as [p1 [p2 [E1 [E2 L]]]].
  destruct (@links_loop links nodes [] n0 f0 p2 rest
              (2 * length links + 2) L Hlinks Hrest)
    as [p' [D [Hh [Hc [He Ho]]]]]; [lia|].
  cbn [app length] in Hh.
  assert (Hlen : length (heap p') = S (length links)).
  { rewrite Hh. cbn [linked length]. f_equal.
    rewrite <- (linksOf_length _ Hlinks).
    clear. generalize 1. induction nodes as [|[n f] ns IH]; intro a;
      [reflexivity|]. cbn [linked length]. f_equal. apply IH. }
  exists (ep_send (inl 0) p').
  split.
  - unfold ep_run.
    set (p0 := ep_start (newLineConsumer (top :: frag0 :: linesOf links ++ rest))
                 newErrorPositionParser) in *.
    assert (Hfuel : transitionBound (ep_lines p0)
                    = S (S (2 * length links + 2
                            + (2 * length links + 2 * length rest + 6)))).
    { subst p0. unfold transitionBound, ep_start, newLineConsumer. ep_simpl.
      cbn [length]. rewrite length_app, linesOf_length. lia. }
    rewrite Hfuel. cbn [drive errorPositionStep]. rewrite E1.
    cbn [drive errorPositionStep]. rewrite E2.
    erewrite drive_more by exact D. rewrite Hc, He. reflexivity.
  - ep_simpl. rewrite Ho. split; [reflexivity|]. split; [exact Hh|].
    split; [exact Hlen|]. split.
    + rewrite Hlen, Hh.
      rewrite <- (linksOf_length _ Hlinks).
      apply (@chain_of_linked ((n0, f0) :: nodes) []); [discriminate|].
      cbn [length]. lia.
    + intros i loc frag Hi Hloc.
      destruct (@linksOf_nth links nodes i loc frag Hlinks Hi) as [n [f [Hn Hlo]]].
      destruct (@nth_error_linked nodes 1 i n f Hn) as [next Hnext].
      exists (node n f next). rewrite Hh. cbn [linked nth_error].
      split; [exact Hnext|].
      unfold locatedInOf in Hlo. rewrite Hloc in Hlo.
      change (readLocatedIn (str "Located in:"))
        with (Ok (Describes zeroErrorPosition)) in Hlo.
      inversion Hlo; subst n. repeat split; reflexivity.
Qed.

Lemma errorPositionStep_decreases (st : errorPositionState)
  (p : ErrorPositionParser) :
  match errorPositionStep st p with
  | Goto (Some st') p' => errorPositionMeasure st' p' < errorPositionMeasure st p
  | _ => True
  end.
Proof.
  unfold errorPositionMeasure.
  pose proof (fetchNextLine_linesLeft (ep_lines p)) as F.
  destruct st; cbn [errorPositionStep errorPositionWeight].
  - unfold parseTopLevel, ep_fetch.
    destruct (fetchNextLine (ep_lines p)) as [ok c']. cbn [fst snd] in F.
    destruct ok; cbn [negb]; [|exact I]. destruct F as [F1 F2].
    pose proof (consumeLine_linesLeft _ F2) as C.
    cbn [ep_lines ep_with_lines].
    destruct (readTopLevel (line c')) as [[|e|n]|m]; try exact I.
    + cbn [ep_lines ep_with_lines ep_with_err errorPositionWeight]. lia.
    + destruct (alloc n _) as [a m].
      cbn [ep_lines ep_with_lines ep_with_heap ep_with_current ep_consume
             errorPositionWeight]. lia.
  - unfold parseSourceFragment, ep_fetch.
    destruct (fetchNextLine (ep_lines p)) as [ok c']. cbn [fst snd] in F.
    cbn [ep_lines ep_with_lines].
    destruct ok; cbn [andb].
    + destruct F as [F1 F2]. pose proof (consumeLine_linesLeft _ F2) as C.
      destruct (_ <? _).
      * destruct (match currentSub _ with Some a => Some a | None => _ end);
          [|exact I].
        cbn [ep_lines ep_with_lines ep_with_heap ep_consume errorPositionWeight].
        lia.
      * cbn [ep_lines ep_with_lines ep_with_err errorPositionWeight]. lia.
    + subst c'. cbn [ep_lines ep_with_lines ep_with_err errorPositionWeight].
      lia.
  - unfold parseLocatedInExpression, ep_fetch.
    destruct (fetchNextLine (ep_lines p)) as [ok c']. cbn [fst snd] in F.
    destruct ok; cbn [negb]; [|exact I]. destruct F as [F1 F2].
    pose proof (consumeLine_linesLeft _ F2) as C.
    cbn [ep_lines ep_with_lines].
    destruct (readLocatedIn (line c')) as [[|e|n]|m]; try exact I.
    + cbn [ep_lines ep_with_lines ep_with_err errorPositionWeight]. lia.
    + destruct (alloc n _) as [a m].
      cbn [current ep_with_heap ep_with_lines].
      destruct (current p); [|exact I].
      match goal with |- context [match ?x with Ok _ => _ | Panic _ => _ end] =>
                        destruct x end; [|exact I].
      cbn [ep_lines ep_with_lines ep_with_heap ep_with_currentSub ep_consume
             errorPositionWeight]. lia.
  - unfold parseErrorPositionError. destruct (ep_err p); exact I.
Qed.

(** The error position parser ends by itself as well. *)
Lemma ep_run_finishes (p q : ErrorPositionParser) : ep_run p <> Unfinished q.
Proof.
  unfold ep_run.
  pose proof (@drive_finishes _ _ errorPositionStep errorPositionMeasure
                errorPositionStep_decreases (transitionBound (ep_lines p))
                parseTopLevelSt p) as F.
  destruct (drive errorPositionStep (transitionBound (ep_lines p))
              (Some parseTopLevelSt) p) as [p'|m p'|p'].
  - destruct (current p'), (ep_err p'); discriminate.
  - discriminate.
  - exfalso. apply (F ltac:(unfold errorPositionMeasure, transitionBound, linesLeft;
                          destruct (processed (ep_lines p));
                          cbn [errorPositionWeight]; lia) p').
    reflexivity.
Qed.

End ErrorPositionFacts.

(** ** Runes, fields and trimming *)

Module Utf8Facts.
Import Go Utf8Spec.

Lemma byteval_bound (c : ascii) : (byteval c < 256)%N.
Proof. apply N_ascii_bounded. Qed.

(** What [first] says of a leading byte. *)
Lemma first_lead (c : ascii) (sz : nat) (lo hi : N) :
  first (byteval c) = fLead sz lo hi ->
  (sz = 2 \/ sz = 3 \/ sz = 4)
  /\ (forall b, inRange lo hi b = true -> isCont b = true)
  /\ (RuneSelf <= byteval c)%N /\ RuneStart c = true.
Proof.
  destruct c as [b0 b1 b2 b3 b4 b5 b6 b7].
  destruct b0, b1, b2, b3, b4, b5, b6, b7; intro H; vm_compute in H;
    try discriminate H; inversion H; subst;
    (split; [auto|]; split;
     [|split; [vm_compute; discriminate | vm_compute; reflexivity]]);
    intro b; unfold isCont, inRange;
    rewrite !andb_true_iff, !N.leb_le; lia.
Qed.

Lemma first_ascii (c : ascii) :
  first (byteval c) = fASCII <-> (byteval c < RuneSelf)%N.
Proof.
  destruct c as [b0 b1 b2 b3 b4 b5 b6 b7].
  destruct b0, b1, b2, b3, b4, b5, b6, b7; vm_compute; split; intro H;
    try discriminate H; try reflexivity.
Qed.

Lemma cont_not_start (c : ascii) :
  isCont (byteval c) = true -> RuneStart c = false.
Proof.
  destruct c as [b0 b1 b2 b3 b4 b5 b6 b7].
  destruct b0, b1, b2, b3, b4, b5, b6, b7; vm_compute; intro H;
    try discriminate H; reflexivity.
Qed.

Lemma ascii_is_start (c : ascii) :
  (byteval c < RuneSelf)%N -> RuneStart c = true.
Proof.
  destruct c as [b0 b1 b2 b3 b4 b5 b6 b7].
  destruct b0, b1, b2, b3, b4, b5, b6, b7; vm_compute; intro H;
    try discriminate H; reflexivity.
Qed.

(** The three ways [DecodeRune] ends on a non-empty input: an ASCII byte,
    an invalid or cut sequence (width one), or a leading byte and one to
    three continuation bytes that alone decide the rune. *)
Lemma DecodeRune_inv (c0 : ascii) (t : bytes) :
  (first (byteval c0) = fASCII /\ forall t', DecodeRune (c0 :: t') = (byteval c0, 1))
  \/ DecodeRune (c0 :: t) = (RuneError, 1)
  \/ exists pre rest r,
      t = pre ++ rest /\ 1 <= length pre <= 3 /\ Forall isContByte pre
      /\ (RuneSelf <= byteval c0)%N
      /\ forall t', DecodeRune (c0 :: pre ++ t') = (r, S (length pre)).
Proof.
  destruct (first (byteval c0)) as [| |sz lo hi] eqn:F.
  - left. split; [reflexivity|]. intro t'. unfold DecodeRune. now rewrite F.
  - right; left. unfold DecodeRune. now rewrite F.
  - destruct (@first_lead _ _ _ _ F) as [Hsz [Hr [Hself _]]].
    assert (D : forall t',
               DecodeRune (c0 :: t')
               = if length (c0 :: t') <? sz then (RuneError, 1) else
                 match t' with
                 | [] => (RuneError, 1)
                 | c1 :: t1 =>
                   if negb (inRange lo hi (byteval c1)) then (RuneError, 1) else
                   if sz <=? 2
                   then (N.lor (N.shiftl (N.land (byteval c0) 0x1F) 6)
                           (N.land (byteval c1) 0x3F), 2) else
                   match t1 with
                   | [] => (RuneError, 1)
                   | c2 :: t2 =>
                     if negb (isCont (byteval c2)) then (RuneError, 1) else
                     if sz <=? 3
                     then (N.lor (N.shiftl (N.land (byteval c0) 0x0F) 12)
                             (N.lor (N.shiftl (N.land (byteval c1) 0x3F) 6)
                                (N.land (byteval c2) 0x3F)), 3) else
                     match t2 with
                     | [] => (RuneError, 1)
                     | c3 :: _ =>
                       if negb (isCont (byteval c3)) then (RuneError, 1) else
                       (N.lor (N.shiftl (N.land (byteval c0) 0x07) 18)
                          (N.lor (N.shiftl (N.land (byteval c1) 0x3F) 12)
                             (N.lor (N.shiftl (N.land (byteval c2) 0x3F) 6)
                                (N.land (byteval c3) 0x3F))), 4)
                     end
                   end
                 end).
    { intro t'. unfold DecodeRune. rewrite F. reflexivity. }
    destruct t as [|c1 t1].
    { right; left. rewrite D. destruct (length [c0] <? sz); reflexivity. }
    destruct (inRange lo hi (byteval c1)) eqn:R1.
    2:{ right; left. rewrite D, R1.
        destruct (length (c0 :: c1 :: t1) <? sz); reflexivity. }
    pose proof (Hr _ R1) as C1.
    destruct Hsz as [Hsz|[Hsz|Hsz]]; subst sz.
    + right; right. exists [c1], t1. eexists. split; [reflexivity|].
      split; [cbn; lia|]. split; [repeat constructor; exact C1|].
      split; [exact Hself|]. intro t'. rewrite D. cbn [app]. rewrite R1.
      reflexivity.
    + destruct t1 as [|c2 t2].
      { right; left. rewrite D. reflexivity. }
      destruct (isCont (byteval c2)) eqn:C2.
      2:{ right; left. rewrite D, R1, C2.
          destruct (length (c0 :: c1 :: c2 :: t2) <? _); reflexivity. }
      right; right. exists [c1; c2], t2. eexists. split; [reflexivity|].
      split; [cbn; lia|]. split; [repeat constructor; assumption|].
      split; [exact Hself|]. intro t'. rewrite D. cbn [app]. rewrite R1, C2.
      reflexivity.
    + destruct t1 as [|c2 t2].
      { right; left. rewrite D. reflexivity. }
      destruct (isCont (byteval c2)) eqn:C2.
      2:{ right; left. rewrite D, R1, C2.
          destruct (length (c0 :: c1 :: c2 :: t2) <? _); reflexivity. }
      destruct t2 as [|c3 t3].
      { right; left. rewrite D. reflexivity. }
      destruct (isCont (byteval c3)) eqn:C3.
      2:{ right; left. rewrite D, R1, C2, C3. reflexivity. }
      right; right. exists [c1; c2; c3], t3. eexists. split; [reflexivity|].
      split; [cbn; lia|]. split; [repeat constructor; assumption|].
      split; [exact Hself|]. intro t'. rewrite D. cbn [app].
      rewrite R1, C2, C3. reflexivity.
Qed.

Lemma DecodeRune_width (s : bytes) :
  s <> [] -> 1 <= snd (DecodeRune s) <= length s.
Proof.
  destruct s as [|c0 t]; [congruence|]. intros _.
  destruct (DecodeRune_inv c0 t) as [[_ H]|[H|[pre [rest [r [-> [Hl [_ [_ H]]]]]]]]].
  - rewrite H. cbn. lia.
  - rewrite H. cbn. lia.
  - rewrite H. cbn [snd length]. rewrite length_app. lia.
Qed.

(** Bytes after the rune decoded do not matter, as long as the rune fits. *)
Lemma DecodeRune_prefix (u t : bytes) :
  u <> [] -> snd (DecodeRune (u ++ t)) <= length u ->
  DecodeRune u = DecodeRune (u ++ t).
Proof.
  destruct u as [|c0 u]; [congruence|]. intros _ Hn. cbn [app] in *.
  destruct (DecodeRune_inv c0 (u ++ t)) as [[_ H]|[H|[pre [rest [r [E [Hl [_ [_ H]]]]]]]]].
  - now rewrite !H.
  - destruct (DecodeRune_inv c0 u) as [[_ H']|[H'|[pre [rest [r [-> [Hl [_ [_ H']]]]]]]]].
    + now rewrite !H'.
    + now rewrite H, H'.
    + rewrite <- app_assoc. now rewrite !H'.
  - rewrite E, H in Hn. cbn [snd length] in Hn.
    assert (P : u = pre ++ skipn (length pre) u).
    { rewrite <- (firstn_skipn (length pre) u) at 1. f_equal.
      assert (E' : firstn (length pre) (u ++ t) = firstn (length pre) (pre ++ rest))
        by now rewrite E.
      rewrite firstn_app in E'. replace (length pre - length u) with 0 in E' by lia.
      rewrite firstn_O, app_nil_r in E'. rewrite E'.
      rewrite firstn_app, Nat.sub_diag, firstn_O, app_nil_r. apply firstn_all. }
    rewrite E. rewrite P. now rewrite !H.
Qed.

(** A rune of width above one is a leading byte and continuation bytes. *)
Lemma DecodeRune_continuation (s : bytes) (j : nat) :
  0 < j < snd (DecodeRune s) -> RuneStart (nth j s zero) = false.
Proof.
  destruct s as [|c0 t]; [cbn; lia|]. intro Hj.
  destruct (DecodeRune_inv c0 t) as [[_ H]|[H|[pre [rest [r [-> [Hl [Hc [_ H]]]]]]]]].
  - rewrite H in Hj. cbn in Hj. lia.
  - rewrite H in Hj. cbn in Hj. lia.
  - rewrite H in Hj. cbn [snd] in Hj.
    destruct j as [|j]; [lia|]. cbn [nth].
    rewrite app_nth1 by lia. apply cont_not_start.
    rewrite Forall_forall in Hc. apply Hc. apply nth_In. lia.
Qed.

Lemma DecodeRune_ascii (c : ascii) (t : bytes) :
  (byteval c < RuneSelf)%N -> DecodeRune (c :: t) = (byteval c, 1).
Proof.
  intro H. apply first_ascii in H. unfold DecodeRune. now rewrite H.
Qed.

Lemma DecodeRune_width4 (s : bytes) : snd (DecodeRune s) <= 4.
Proof.
  destruct s as [|c0 t]; [cbn; lia|].
  destruct (DecodeRune_inv c0 t) as [[_ H]|[H|[pre [rest [r [-> [Hl [_ [_ H]]]]]]]]];
    rewrite H; cbn [snd]; lia.
Qed.

Lemma wholeRunes_cut (f : rune -> bool) (c t : bytes) :
  wholeRunes f c t -> wholeRunes f c [].
Proof.
  induction 1 as [t|c t Hc Hn Hf _ IH]; [constructor|].
  assert (E : DecodeRune (c ++ []) = DecodeRune (c ++ t)).
  { rewrite app_nil_r. now apply DecodeRune_prefix. }
  apply wr_cons; rewrite ?E; assumption.
Qed.

Lemma wholeRunes_extend (f : rune -> bool) (c e t : bytes) :
  wholeRunes f c (e ++ t) ->
  e <> [] -> snd (DecodeRune (e ++ t)) = length e ->
  f (fst (DecodeRune (e ++ t))) = false ->
  wholeRunes f (c ++ e) t.
Proof.
  intros W He Hn Hf. remember (e ++ t) as t0 eqn:Et.
  induction W as [t0|c t0 Hc Hle Hfc _ IH].
  - subst t0. cbn [app]. apply wr_cons; try assumption; [lia|].
    rewrite Hn. rewrite skipn_all. constructor.
  - specialize (IH Et Hn Hf). subst t0.
    assert (A : (c ++ e) ++ t = c ++ e ++ t) by now rewrite app_assoc.
    apply wr_cons; rewrite ?A.
    + destruct c; [congruence | discriminate].
    + rewrite length_app. lia.
    + exact Hfc.
    + rewrite skipn_app.
      replace (snd (DecodeRune (c ++ e ++ t)) - length c) with 0 by lia.
      exact IH.
Qed.

(** Where a rune may start, a rune of the run does start. *)
Lemma wholeRunes_boundary (f : rune -> bool) (c t : bytes) :
  wholeRunes f c t ->
  forall j, j < length c -> j = 0 \/ RuneStart (nth j c zero) = true ->
            f (fst (DecodeRune (skipn j c ++ t))) = false.
Proof.
  induction 1 as [t|c t Hc Hle Hf _ IH]; intros j Hj Hs; [cbn in Hj; lia|].
  set (n := snd (DecodeRune (c ++ t))) in *.
  assert (Hn : 1 <= n).
  { apply DecodeRune_width. destruct c; [congruence | discriminate]. }
  destruct (Nat.eq_dec j 0) as [->|Hj0]; [exact Hf|].
  destruct Hs as [Hs|Hs]; [contradiction|].
  destruct (Nat.lt_ge_cases j n) as [Hlt|Hge].
  - exfalso. assert (C : RuneStart (nth j (c ++ t) zero) = false)
      by (apply DecodeRune_continuation; fold n; lia).
    rewrite app_nth1 in C by exact Hj. congruence.
  - specialize (IH (j - n)).
    rewrite length_skipn in IH. rewrite nth_skipn in IH.
    rewrite skipn_skipn in IH.
    replace (j - n + n) with j in IH by lia.
    replace (n + (j - n)) with j in IH by lia.
    apply IH; [lia | now right].
Qed.

Lemma rangeFrom_skip (s : bytes) :
  forall k, rangeFrom k s = rangeFrom 0 (skipn k s).
Proof.
  induction s as [|c t IH]; intro k.
  - destruct k; reflexivity.
  - destruct k as [|k]; [reflexivity|]. cbn [rangeFrom skipn]. apply IH.
Qed.

Lemma rangeString_unfold (s : bytes) :
  s <> [] ->
  rangeFrom 0 s
  = (fst (DecodeRune s), firstn (snd (DecodeRune s)) s)
      :: rangeFrom 0 (skipn (snd (DecodeRune s)) s).
Proof.
  intro Hs. pose proof (DecodeRune_width Hs) as Hw.
  destruct s as [|c t]; [congruence|]. cbn [rangeFrom].
  destruct (DecodeRune (c :: t)) as [r n]. cbn [fst snd] in *.
  f_equal. rewrite rangeFrom_skip. destruct n as [|n]; [lia|].
  replace (S n - 1) with n by lia. reflexivity.
Qed.

Lemma fieldsOf_whole (f : rune -> bool) (n : nat) :
  forall (s : bytes) (cur : option bytes),
    length s <= n ->
    match cur with
    | None => True
    | Some c => c <> [] /\ wholeRunes f c s
    end ->
    Forall (wholeField f) (fieldsOf f (rangeFrom 0 s) cur).
Proof.
  induction n as [|n IH]; intros s cur Hlen Hcur.
  - destruct s; [|cbn in Hlen; lia]. cbn.
    destruct cur as [c|]; [|constructor].
    constructor; [|constructor]. exact Hcur.
  - destruct s as [|c0 t] eqn:Es.
    { cbn. destruct cur as [c|]; [|constructor].
      constructor; [|constructor]. exact Hcur. }
    rewrite <- Es in *. assert (Hs : s <> []) by (subst s; discriminate).
    rewrite (rangeString_unfold Hs).
    pose proof (DecodeRune_width Hs) as Hw.
    set (r := fst (DecodeRune s)) in *. set (k := snd (DecodeRune s)) in *.
    assert (Hsplit : s = firstn k s ++ skipn k s) by now rewrite firstn_skipn.
    assert (Hless : length (skipn k s) <= n).
    { rewrite length_skipn. subst s. cbn [length] in *. lia. }
    cbn [fieldsOf]. destruct (f r) eqn:Fr.
    + destruct cur as [c|].
      * constructor.
        -- destruct Hcur as [Hc W]. split; [exact Hc|].
           now apply wholeRunes_cut with (t := s).
        -- now apply IH.
      * now apply IH.
    + assert (He : firstn k s <> []).
      { intro E. apply (f_equal (@length ascii)) in E.
        rewrite length_firstn in E. cbn [length] in E. lia. }
      assert (Hk : snd (DecodeRune (firstn k s ++ skipn k s)) = length (firstn k s)).
      { rewrite <- Hsplit. rewrite length_firstn. fold k. lia. }
      assert (Hf : f (fst (DecodeRune (firstn k s ++ skipn k s))) = false)
        by now rewrite <- Hsplit.
      apply IH; [exact Hless|].
      destruct cur as [c|].
      * destruct Hcur as [Hc W]. split.
        -- destruct c; [congruence | discriminate].
        -- apply wholeRunes_extend; try assumption. now rewrite <- Hsplit.
      * split; [exact He|].
        apply (@wholeRunes_extend f [] (firstn k s) (skipn k s));
          try assumption. constructor.
Qed.

Lemma Fields_whole (s w : bytes) : In w (Fields s) -> wholeField IsSpace w.
Proof.
  intro H. unfold Fields, FieldsFunc, rangeString in H.
  pose proof (@fieldsOf_whole IsSpace (length s) s None (le_n _) I) as F.
  rewrite Forall_forall in F. now apply F.
Qed.

Lemma TrimLeftFunc_whole (f : rune -> bool) (w : bytes) :
  wholeField f w -> TrimLeftFunc w f = w.
Proof.
  intros [Hw W]. inversion W as [t E|c t Hc Hn Hf _ E1 E2]; [congruence|].
  subst c t. rewrite app_nil_r in Hf.
  unfold TrimLeftFunc, indexFunc. destruct w as [|c0 t]; [congruence|].
  cbn [indexFuncFrom]. destruct (DecodeRune (c0 :: t)) as [r n].
  cbn [fst] in Hf. rewrite Hf. reflexivity.
Qed.

Lemma skipn_last (w : bytes) :
  w <> [] -> skipn (length w - 1) w = [nth (length w - 1) w zero].
Proof.
  intro Hw. destruct (exists_last Hw) as [l [x E]]. subst w.
  rewrite length_app. cbn [length]. replace (length l + 1 - 1) with (length l) by lia.
  rewrite skipn_app, Nat.sub_diag, skipn_all. cbn [skipn app].
  now rewrite nth_middle.
Qed.

Lemma skipn_cons_nth (w : bytes) :
  forall k, k < length w -> skipn k w = nth k w zero :: skipn (S k) w.
Proof.
  induction w as [|c w IH]; intros k H; [cbn in H; lia|].
  destruct k as [|k]; [reflexivity|].
  cbn [skipn nth]. apply IH. cbn [length] in H. lia.
Qed.

(** The scan stops on a byte that can start a rune, or below the limit. *)
Lemma lastRuneScan_spec (p : bytes) (lim : Z) (fuel : nat) :
  forall s : Z,
    let s' := lastRuneScan p lim s fuel in
    (s' <= s)%Z
    /\ ((s' < lim)%Z
        \/ ((lim <= s')%Z /\ RuneStart (nth (Z.to_nat s') p zero) = true)
        \/ s' = (s - Z.of_nat fuel)%Z).
Proof.
  induction fuel as [|fuel IH]; intro s; cbn [lastRuneScan].
  - cbv zeta. split; [lia|]. right; right. cbn. lia.
  - cbv zeta. destruct (s <? lim)%Z eqn:E1.
    + apply Z.ltb_lt in E1. split; [lia|]. now left.
    + apply Z.ltb_ge in E1.
      destruct (RuneStart (nth (Z.to_nat s) p zero)) eqn:E2.
      * split; [lia|]. right; left. split; assumption.
      * specialize (IH (s - 1)%Z). cbv zeta in IH.
        destruct IH as [H1 H2]. split; [lia|].
        destruct H2 as [H2|[H2|H2]]; [now left | now (right; left) |].
        right; right. rewrite H2. lia.
Qed.

(** The last rune of a field, as [DecodeLastRune] finds it, is a rune that
    does not satisfy [f], and it is found where [TrimRightFunc] expects the
    field to end. *)
Lemma DecodeLastRune_whole (f : rune -> bool) (w : bytes) :
  wholeField f w -> f RuneError = false ->
  f (fst (DecodeLastRune w)) = false
  /\ 1 <= snd (DecodeLastRune w) <= length w
  /\ (let i := length w - snd (DecodeLastRune w) in
      if (RuneSelf <=? byteval (nth i w zero))%N
      then length w <= i + snd (DecodeRune (skipn i w))
      else length w <= i + 1).
Proof.
  intros [Hw W] Herr.
  assert (HL : 1 <= length w) by (destruct w; [congruence | cbn; lia]).
  pose proof (skipn_last Hw) as Hlast.
  assert (Hwidth1 : 1 <= snd (DecodeRune (skipn (length w - 1) w))).
  { apply DecodeRune_width. rewrite Hlast. discriminate. }
  unfold DecodeLastRune, len.
  replace (Z.of_nat (length w) =? 0)%Z with false
    by (symmetry; apply Z.eqb_neq; lia).
  replace (Z.to_nat (Z.of_nat (length w) - 1)) with (length w - 1) by lia.
  set (b := nth (length w - 1) w zero) in *.
  destruct (byteval b <? RuneSelf)%N eqn:Eb.
  - apply N.ltb_lt in Eb. cbn [fst snd].
    split.
    + pose proof (@wholeRunes_boundary f w [] W (length w - 1)) as B.
      rewrite Hlast in B. cbn [app] in B.
      rewrite DecodeRune_ascii in B by exact Eb. cbn [fst] in B.
      apply B; [lia|]. right. now apply ascii_is_start.
    + split; [lia|]. cbv zeta. fold b.
      replace (RuneSelf <=? byteval b)%N with false
        by (symmetry; apply N.leb_gt; exact Eb).
      lia.
  - apply N.ltb_ge in Eb.
    set (lim := Z.max 0 (Z.of_nat (length w) - UTFMax)).
    set (s0 := lastRuneScan w lim (Z.of_nat (length w) - 1 - 1) 4).
    pose proof (lastRuneScan_spec w lim 4 (Z.of_nat (length w) - 1 - 1)) as S.
    cbv zeta in S. fold s0 in S. destruct S as [S1 S2].
    set (start := Z.max 0 s0).
    destruct (DecodeRune (skipn (Z.to_nat start) w)) as [r size] eqn:ED.
    destruct (start + Z.of_nat size =? Z.of_nat (length w))%Z eqn:EM.
    + apply Z.eqb_eq in EM. cbn [fst snd].
      pose proof (DecodeRune_width4 (skipn (Z.to_nat start) w)) as W4.
      rewrite ED in W4. cbn [snd] in W4.
      assert (Hstart : (0 <= start)%Z) by (subst start; lia).
      assert (Hlt : Z.to_nat start < length w) by (subst start; lia).
      assert (Hne : skipn (Z.to_nat start) w <> []).
      { intro E. apply (f_equal (@length ascii)) in E.
        rewrite length_skipn in E. cbn [length] in E. lia. }
      assert (Hsz : 1 <= size).
      { pose proof (DecodeRune_width Hne) as Hw1. rewrite ED in Hw1.
        cbn [snd] in Hw1. lia. }
      assert (Hi : length w - size = Z.to_nat start) by lia.
      assert (Hbound : Z.to_nat start = 0
                       \/ RuneStart (nth (Z.to_nat start) w zero) = true).
      { unfold UTFMax in lim.
        destruct S2 as [S2|[[S2 S3]|S2]].
        - destruct (Z.eq_dec lim 0) as [L0|L0]; [left; subst start; lia|].
          exfalso. subst start lim. lia.
        - right. subst start. replace (Z.max 0 s0) with s0 by (subst lim; lia).
          exact S3.
        - destruct (Z.eq_dec lim 0) as [L0|L0]; [left; subst start lim; lia|].
          exfalso. subst start lim. lia. }
      split.
      * pose proof (@wholeRunes_boundary f w [] W (Z.to_nat start)) as B.
        rewrite app_nil_r, ED in B. cbn [fst] in B. apply B; [lia | exact Hbound].
      * split; [lia|]. cbv zeta. rewrite Hi, ED. cbn [snd].
        destruct (RuneSelf <=? byteval (nth (Z.to_nat start) w zero))%N eqn:ES;
          [lia|].
        apply N.leb_gt in ES.
        pose proof (@skipn_cons_nth w (Z.to_nat start) Hlt) as Hsk.
        rewrite Hsk in ED. rewrite DecodeRune_ascii in ED by exact ES.
        inversion ED. lia.
    + cbn [fst snd]. split; [exact Herr|]. split; [lia|]. cbv zeta.
      fold b. replace (RuneSelf <=? byteval b)%N with true
        by (symmetry; apply N.leb_le; exact Eb).
      lia.
Qed.

Lemma TrimRightFunc_whole (f : rune -> bool) (w : bytes) :
  wholeField f w -> f RuneError = false -> TrimRightFunc w f = w.
Proof.
  intros Hw Herr.
  destruct (DecodeLastRune_whole Hw Herr) as [Hf [Hsz Hend]].
  destruct Hw as [Hne _].
  unfold TrimRightFunc, lastIndexFunc.
  destruct (length w) as [|n] eqn:L; [destruct w; [congruence | discriminate]|].
  cbn [lastIndexLoop Nat.eqb].
  replace (firstn (S n) w) with w by (rewrite <- L; symmetry; apply firstn_all).
  destruct (DecodeLastRune w) as [r size]. cbn [fst snd] in *.
  rewrite Hf. cbn [Bool.eqb]. cbv zeta in Hend.
  destruct (RuneSelf <=? byteval (nth (S n - size) w zero))%N;
    apply firstn_all2; rewrite L; exact Hend.
Qed.

(** A field of [Fields] has no space to trim at either end. *)
Lemma TrimSpace_of_field (s w : bytes) :
  In w (Fields s) -> TrimSpace w = w.
Proof.
  intro H. apply Fields_whole in H. unfold TrimSpace, TrimFunc.
  rewrite (TrimLeftFunc_whole H). now apply TrimRightFunc_whole.
Qed.

End Utf8Facts.

(** ** ASCII texts: ranging, fields, trimming, decimal numerals *)

Module TextFacts.
Import Go TextSpec Utf8Facts.

Lemma digitChar_digit (d : Z) :
  (0 <= d < 10)%Z ->
  isDigit (digitChar d) = true /\ (Z.of_N (byteval (digitChar d)) - 48 = d)%Z.
Proof.
  intro H.
  assert (C : (d = 0 \/ d = 1 \/ d = 2 \/ d = 3 \/ d = 4 \/ d = 5 \/ d = 6
               \/ d = 7 \/ d = 8 \/ d = 9)%Z) by lia.
  repeat (destruct C as [C|C]; [subst d; split; reflexivity|]).
  subst d; split; reflexivity.
Qed.

Lemma digitsOf_digits (fuel : nat) :
  forall n, (0 <= n)%Z -> Forall (fun c => isDigit c = true) (digitsOf fuel n).
Proof.
  induction fuel as [|k IH]; intros n Hn; [constructor|].
  cbn [digitsOf]. apply Forall_app. split.
  - destruct (n <? 10)%Z; [constructor|]. apply IH. apply Z.div_pos; lia.
  - constructor; [|constructor]. apply digitChar_digit. apply Z.mod_pos_bound. lia.
Qed.

Lemma digitsOf_nonempty (fuel : nat) (n : Z) : digitsOf (S fuel) n <> [].
Proof. cbn [digitsOf]. intro H. apply app_eq_nil in H. destruct H as [_ H]. discriminate H. Qed.

Lemma valueOf_app (a b : bytes) (n : Z) :
  valueOf (a ++ b) n = valueOf b (valueOf a n).
Proof. unfold valueOf. apply fold_left_app. Qed.

Lemma digitsOf_value (fuel : nat) :
  forall n, (0 <= n < 10 ^ Z.of_nat fuel)%Z -> valueOf (digitsOf fuel n) 0 = n.
Proof.
  induction fuel as [|k IH]; intros n Hn.
  - cbn in Hn. assert (n = 0%Z) by lia. subst. reflexivity.
  - cbn [digitsOf]. rewrite valueOf_app.
    assert (Hd := @digitChar_digit (n mod 10) (Z.mod_pos_bound n 10 eq_refl)).
    destruct Hd as [_ Hd].
    destruct (n <? 10)%Z eqn:E.
    + apply Z.ltb_lt in E. cbn [valueOf fold_left]. rewrite Hd.
      rewrite Z.mod_small by lia. lia.
    + apply Z.ltb_ge in E. rewrite IH.
      * cbn [valueOf fold_left]. rewrite Hd.
        pose proof (Z.div_mod n 10). lia.
      * rewrite Nat2Z.inj_succ, Z.pow_succ_r in Hn by lia.
        split; [apply Z.div_pos; lia|].
        apply Z.div_lt_upper_bound; lia.
Qed.

Lemma valueOf_grows (ds : bytes) :
  forall n, (0 <= n)%Z -> Forall (fun c => isDigit c = true) ds ->
    (n <= valueOf ds n)%Z.
Proof.
  induction ds as [|c t IH]; intros n Hn F; [cbn; lia|].
  inversion F as [|? ? Hc Ht]; subst. cbn [valueOf fold_left].
  assert (0 <= Z.of_N (byteval c) - 48)%Z.
  { unfold isDigit, inRange in Hc. apply andb_true_iff in Hc. destruct Hc as [Hc _].
    apply N.leb_le in Hc. lia. }
  pose proof (IH (n * 10 + (Z.of_N (byteval c) - 48))%Z ltac:(lia) Ht) as G.
  unfold valueOf in G. lia.
Qed.

Lemma parseUint_digits (ds : bytes) :
  forall n, (0 <= n)%Z -> Forall (fun c => isDigit c = true) ds ->
    (valueOf ds n <= maxUint64)%Z ->
    parseUint ds n = (valueOf ds n, None).
Proof.
  induction ds as [|c t IH]; intros n Hn F Hv; [reflexivity|].
  inversion F as [|? ? Hc Ht]; subst. cbn [parseUint]. rewrite Hc. cbn [negb].
  assert (Hd : (0 <= Z.of_N (byteval c) - 48)%Z).
  { unfold isDigit, inRange in Hc. apply andb_true_iff in Hc. destruct Hc as [Hc _].
    apply N.leb_le in Hc. lia. }
  cbn [valueOf fold_left] in Hv.
  pose proof (@valueOf_grows t (n * 10 + (Z.of_N (byteval c) - 48))%Z
                ltac:(lia) Ht) as G.
  unfold valueOf in G, Hv.
  assert (B : (n * 10 + (Z.of_N (byteval c) - 48) <= maxUint64)%Z) by lia.
  replace (maxUint64 / 10 + 1 <=? n)%Z with false.
  2:{ symmetry. apply Z.leb_gt. change (maxUint64 / 10 + 1)%Z with 1844674407370955162%Z.
      unfold maxUint64 in B. lia. }
  cbv zeta.
  replace (maxUint64 <? n * 10 + (Z.of_N (byteval c) - 48))%Z with false
    by (symmetry; apply Z.ltb_ge; exact B).
  rewrite IH; [reflexivity | lia | exact Ht | exact Hv].
Qed.

Lemma digit_not_sign (c : ascii) :
  isDigit c = true -> Ascii.eqb c "-" = false /\ Ascii.eqb c "+" = false.
Proof.
  destruct c as [b0 b1 b2 b3 b4 b5 b6 b7].
  destruct b0, b1, b2, b3, b4, b5, b6, b7; vm_compute; intro H;
    try discriminate H; split; reflexivity.
Qed.

Lemma Atoi_digits (ds : bytes) :
  ds <> [] -> Forall (fun c => isDigit c = true) ds ->
  (valueOf ds 0 <= maxInt)%Z ->
  Atoi ds = (valueOf ds 0, None).
Proof.
  intros Hne F Hv. destruct ds as [|c t]; [congruence|]. unfold Atoi.
  inversion F as [|? ? Hc Ht]; subst.
  destruct (digit_not_sign _ Hc) as [S1 S2]. rewrite S1, S2. cbn [orb negb andb].
  unfold ParseUint. rewrite parseUint_digits; [|lia | exact F |].
  2:{ unfold maxInt, maxUint64 in *. lia. }
  replace (2 ^ 63 <=? valueOf (c :: t) 0)%Z with false; [reflexivity|].
  symmetry. apply Z.leb_gt. unfold maxInt in Hv. lia.
Qed.

Lemma decimal_digits (i : Z) :
  (0 <= i)%Z -> decimal i <> [] /\ Forall (fun c => isDigit c = true) (decimal i).
Proof.
  intro H. unfold decimal. replace (i <? 0)%Z with false by (symmetry; apply Z.ltb_ge; lia).
  split; [apply digitsOf_nonempty | now apply digitsOf_digits].
Qed.

(** X?.  Round trip *)
Lemma Atoi_decimal (i : Z) :
  (0 <= i <= maxInt)%Z -> Atoi (decimal i) = (i, None).
Proof.
  intro H. destruct (decimal_digits (proj1 H)) as [Hne F].
  assert (V : valueOf (decimal i) 0 = i).
  { unfold decimal. replace (i <? 0)%Z with false by (symmetry; apply Z.ltb_ge; lia).
    apply digitsOf_value. unfold maxInt in H. cbn. lia. }
  rewrite Atoi_digits; [now rewrite V | exact Hne | exact F | rewrite V; lia].
Qed.

Lemma rangeFrom_ascii (a : bytes) :
  Forall ascii7 a ->
  forall b, rangeFrom 0 (a ++ b) = map asRune a ++ rangeFrom 0 b.
Proof.
  induction 1 as [|c a Hc Ha IH]; intro b; [reflexivity|].
  cbn [app rangeFrom map]. rewrite (@DecodeRune_ascii c (a ++ b) Hc).
  cbn [firstn Nat.sub]. rewrite IH. reflexivity.
Qed.

Lemma rangeString_ascii (a : bytes) :
  Forall ascii7 a -> rangeString a = map asRune a.
Proof.
  intro H. unfold rangeString. rewrite <- (app_nil_r a) at 1.
  rewrite (@rangeFrom_ascii a H). cbn [rangeFrom]. apply app_nil_r.
Qed.

Lemma fieldsOf_plain (f : rune -> bool) (a : bytes) :
  Forall (plain f) a ->
  forall (rest : list (rune * bytes)) (w : bytes),
    fieldsOf f (map asRune a ++ rest) (Some w) = fieldsOf f rest (Some (w ++ a)).
Proof.
  induction 1 as [|c a [_ Hc] Ha IH]; intros rest w.
  - cbn. now rewrite app_nil_r.
  - cbn [map app fieldsOf asRune]. rewrite Hc. fold (asRune). 
    change (fieldsOf f (map asRune a ++ rest) (Some (w ++ [c]))
            = fieldsOf f rest (Some (w ++ c :: a))).
    rewrite IH. now rewrite <- app_assoc.
Qed.

Lemma fieldsOf_piece (f : rune -> bool) (a : bytes) :
  piece f a ->
  forall (rest : list (rune * bytes)),
    fieldsOf f (map asRune a ++ rest) None = fieldsOf f rest (Some a).
Proof.
  intros [Hne F] rest. destruct a as [|c a]; [congruence|].
  inversion F as [|? ? [_ Hc] Ha]; subst.
  cbn [map app fieldsOf asRune]. rewrite Hc.
  change (fieldsOf f (map asRune a ++ rest) (Some [c]) = fieldsOf f rest (Some (c :: a))).
  now rewrite (@fieldsOf_plain f a Ha).
Qed.

Lemma fieldsOf_joined (f : rune -> bool) (sep : ascii) (ps : list bytes) :
  f (byteval sep) = true ->
  Forall (piece f) ps ->
  forall cur,
    fieldsOf f (map asRune (joined sep ps)) cur
    = match cur with Some w => w :: ps | None => ps end.
Proof.
  intros Hs. induction 1 as [|p ps Hp Hps IH]; intro cur.
  - destruct cur; reflexivity.
  - unfold joined. cbn [map concat app]. fold (joined sep ps).
    rewrite map_app. cbn [fieldsOf asRune]. rewrite Hs.
    assert (E : fieldsOf f (map asRune p ++ map asRune (joined sep ps)) None = p :: ps).
    { rewrite (@fieldsOf_piece f p Hp). apply (IH (Some p)). }
    destruct cur; now rewrite E.
Qed.

Lemma joined_ascii (f : rune -> bool) (sep : ascii) (ps : list bytes) :
  ascii7 sep -> Forall (piece f) ps -> Forall ascii7 (joined sep ps).
Proof.
  intros Hs. induction 1 as [|p ps [_ Hp] Hps IH]; [constructor|].
  unfold joined. cbn [map concat]. constructor; [exact Hs|].
  apply Forall_app. split; [|exact IH].
  eapply Forall_impl; [|exact Hp]. intros c [H _]. exact H.
Qed.

Lemma FieldsFunc_joined (f : rune -> bool) (sep : ascii) (ps : list bytes) :
  ascii7 sep -> f (byteval sep) = true -> Forall (piece f) ps ->
  FieldsFunc (joined sep ps) f = ps.
Proof.
  intros Ha Hs Hps. unfold FieldsFunc.
  rewrite (@rangeString_ascii _ (@joined_ascii f sep ps Ha Hps)).
  exact (@fieldsOf_joined f sep ps Hs Hps None).
Qed.

Lemma FieldsFunc_lead (f : rune -> bool) (sep : ascii) (p0 : bytes) (ps : list bytes) :
  ascii7 sep -> f (byteval sep) = true -> piece f p0 -> Forall (piece f) ps ->
  FieldsFunc (p0 ++ joined sep ps) f = p0 :: ps.
Proof.
  intros Ha Hs Hp0 Hps. unfold FieldsFunc.
  assert (A0 : Forall ascii7 p0).
  { destruct Hp0 as [_ H]. eapply Forall_impl; [|exact H]. intros c [X _]. exact X. }
  unfold rangeString. rewrite (@rangeFrom_ascii p0 A0).
  change (rangeFrom 0 (joined sep ps)) with (rangeString (joined sep ps)).
  rewrite (@rangeString_ascii _ (@joined_ascii f sep ps Ha Hps)).
  rewrite (@fieldsOf_piece f p0 Hp0). exact (@fieldsOf_joined f sep ps Hs Hps (Some p0)).
Qed.

Lemma TrimLeft_visible (c : ascii) (t : bytes) :
  visible c -> TrimLeftFunc (c :: t) IsSpace = c :: t.
Proof.
  intros [Ha Hs]. unfold TrimLeftFunc, indexFunc. cbn [indexFuncFrom].
  rewrite (@DecodeRune_ascii c t Ha). rewrite Hs. reflexivity.
Qed.

Lemma nth_last (A : Type) (m : list A) (l d : A) :
  nth (length m) (m ++ [l]) d = l.
Proof. induction m as [|x m IH]; [reflexivity | exact IH]. Qed.

Lemma TrimRight_visible (m : bytes) (l : ascii) :
  visible l -> TrimRightFunc (m ++ [l]) IsSpace = m ++ [l].
Proof.
  intros [Ha Hs]. unfold TrimRightFunc, lastIndexFunc.
  assert (L : length (m ++ [l]) = S (length m)) by (rewrite length_app; cbn; lia).
  rewrite L. cbn [lastIndexLoop Nat.eqb].
  rewrite <- L at 1. rewrite firstn_all.
  assert (D : DecodeLastRune (m ++ [l]) = (byteval l, 1)).
  { unfold DecodeLastRune, len. rewrite L.
    replace (Z.of_nat (S (length m)) =? 0)%Z with false
      by (symmetry; apply Z.eqb_neq; lia).
    replace (Z.to_nat (Z.of_nat (S (length m)) - 1)) with (length m) by lia.
    rewrite nth_last. unfold ascii7 in Ha. apply N.ltb_lt in Ha. now rewrite Ha. }
  rewrite D. rewrite Hs. cbn [Bool.eqb].
  replace (S (length m) - 1) with (length m) by lia.
  rewrite nth_last.
  replace (RuneSelf <=? byteval l)%N with false
    by (symmetry; apply N.leb_gt; exact Ha).
  replace (length m + 1) with (length (m ++ [l])) by lia.
  apply firstn_all.
Qed.

Lemma TrimSpace_visible (c l : ascii) (m : bytes) :
  visible c -> visible l -> TrimSpace (c :: m ++ [l]) = c :: m ++ [l].
Proof.
  intros Hc Hl. unfold TrimSpace, TrimFunc. rewrite (@TrimLeft_visible c _ Hc).
  exact (@TrimRight_visible (c :: m) l Hl).
Qed.

Lemma HasPrefix_spec (s p : bytes) :
  HasPrefix s p = true <-> exists t, s = p ++ t.
Proof.
  unfold HasPrefix. split.
  - intro H. apply andb_true_iff in H. destruct H as [_ H].
    apply bytes_eqb_true in H. exists (skipn (length p) s).
    rewrite <- H at 1. symmetry. apply firstn_skipn.
  - intros [t ->]. apply andb_true_iff. split.
    + apply Nat.leb_le. rewrite length_app. lia.
    + apply bytes_eqb_true. rewrite firstn_app, firstn_all, Nat.sub_diag.
      cbn. apply app_nil_r.
Qed.

Lemma TrimPrefix_app (p t : bytes) : TrimPrefix (p ++ t) p = t.
Proof.
  unfold TrimPrefix.
  replace (HasPrefix (p ++ t) p) with true
    by (symmetry; apply HasPrefix_spec; now exists t).
  rewrite skipn_app, skipn_all, Nat.sub_diag. reflexivity.
Qed.

Lemma TrimPrefix_other (s p : bytes) :
  HasPrefix s p = false -> TrimPrefix s p = s.
Proof. unfold TrimPrefix. now intros ->. Qed.

Lemma slice_to_last (A : Type) (b : list A) (x : A) :
  slice_to (b ++ [x]) (len (b ++ [x]) - 1) = Ok b.
Proof.
  unfold slice_to, len. rewrite length_app. cbn [length].
  replace ((Z.of_nat (length b + 1) - 1 <? 0)%Z
           || (Z.of_nat (length b + 1) <? Z.of_nat (length b + 1) - 1)%Z) with false
    by (symmetry; apply orb_false_iff; split; apply Z.ltb_ge; lia).
  replace (Z.to_nat (Z.of_nat (length b + 1) - 1)) with (length b) by lia.
  rewrite firstn_app, firstn_all, Nat.sub_diag. cbn. now rewrite app_nil_r.
Qed.

Lemma slice_inner (A : Type) (x y : A) (b : list A) :
  slice (x :: b ++ [y]) 1 (len (x :: b ++ [y]) - 1) = Ok b.
Proof.
  unfold slice, len. cbn [length]. rewrite length_app. cbn [length].
  replace ((1 <? 0)%Z || (Z.of_nat (S (length b + 1)) - 1 <? 1)%Z
           || (Z.of_nat (S (length b + 1)) <? Z.of_nat (S (length b + 1)) - 1)%Z)
    with false.
  2:{ symmetry. apply orb_false_iff. split; [apply orb_false_iff; split|];
      apply Z.ltb_ge; lia. }
  replace (Z.to_nat (Z.of_nat (S (length b + 1)) - 1) - Z.to_nat 1) with (length b) by lia.
  change (Z.to_nat 1) with 1. cbn [skipn].
  rewrite firstn_app, firstn_all, Nat.sub_diag. cbn. now rewrite app_nil_r.
Qed.

(** Digits are plain for white space and for the comma. *)
Lemma digit_plain (c : ascii) :
  isDigit c = true ->
  plain IsSpace c /\ plain Parse.matchCommaRune c.
Proof.
  destruct c as [b0 b1 b2 b3 b4 b5 b6 b7].
  destruct b0, b1, b2, b3, b4, b5, b6, b7; vm_compute; intro H;
    try discriminate H; repeat split; reflexivity.
Qed.

End TextFacts.

(** ** The lines of an error position, and the chain read from them *)

Module PlaceFacts.
Import Go Parse TextSpec TextFacts ErrorPositionSpec ErrorPositionFacts PlaceSpec.

Lemma space_sep : ascii7 " "%char /\ IsSpace (byteval " "%char) = true.
Proof. split; reflexivity. Qed.

Lemma comma_sep : ascii7 ","%char /\ matchCommaRune (byteval ","%char) = true.
Proof. split; reflexivity. Qed.

Lemma decimal_piece (i : Z) :
  (0 <= i)%Z -> piece IsSpace (decimal i) /\ piece matchCommaRune (decimal i).
Proof.
  intro H. destruct (@decimal_digits i H) as [Hne F].
  split; (split; [exact Hne|]); eapply Forall_impl; try exact F;
    intros c Hc; apply (digit_plain c Hc).
Qed.

Ltac plain_text :=
  repeat (apply Forall_cons; [split; reflexivity|]).

(** The pieces of "line R" and of " column C". *)
Lemma Fields_line (pre : list bytes) (r : Z) :
  (0 <= r)%Z -> Forall (piece IsSpace) pre ->
  Fields (joined " "%char (pre ++ [decimal r])) = pre ++ [decimal r].
Proof.
  intros Hr Hpre. unfold Fields. apply FieldsFunc_joined; try reflexivity.
  apply Forall_app. split; [exact Hpre|]. constructor; [|constructor].
  apply (decimal_piece Hr).
Qed.


Lemma text_piece (f : rune -> bool) (a b : bytes) :
  a <> [] -> Forall (plain f) a -> Forall (plain f) b -> piece f (a ++ b).
Proof.
  intros Hne Ha Hb. split.
  - destruct a; [congruence | discriminate].
  - apply Forall_app. now split.
Qed.

Lemma index_last (A : Type) (ws : list A) (x : A) :
  index (ws ++ [x]) (len (ws ++ [x]) - 1) = Ok x.
Proof.
  unfold index, len. rewrite length_app. cbn [length].
  replace (Z.of_nat (length ws + 1) - 1 <? 0)%Z with false
    by (symmetry; apply Z.ltb_ge; lia).
  replace (Z.to_nat (Z.of_nat (length ws + 1) - 1)) with (length ws) by lia.
  rewrite nth_error_app2 by lia. rewrite Nat.sub_diag. reflexivity.
Qed.

Lemma parseUint_stops (ds : bytes) (x : ascii) (t : bytes) :
  isDigit x = false ->
  forall n, (0 <= n)%Z -> Forall (fun c => isDigit c = true) ds ->
    (valueOf ds n <= maxUint64)%Z ->
    parseUint (ds ++ x :: t) n = (0%Z, Some ErrSyntax).
Proof.
  intro Hx. induction ds as [|c ds IH]; intros n Hn F Hv.
  - cbn [app parseUint]. now rewrite Hx.
  - inversion F as [|? ? Hc Ht]; subst. cbn [app parseUint]. rewrite Hc. cbn [negb].
    assert (Hd : (0 <= Z.of_N (byteval c) - 48)%Z).
    { unfold isDigit, inRange in Hc. apply andb_true_iff in Hc. destruct Hc as [Hc _].
      apply N.leb_le in Hc. lia. }
    cbn [valueOf fold_left] in Hv.
    pose proof (@valueOf_grows ds (n * 10 + (Z.of_N (byteval c) - 48))%Z
                  ltac:(lia) Ht) as G.
    unfold valueOf in G, Hv.
    assert (B : (n * 10 + (Z.of_N (byteval c) - 48) <= maxUint64)%Z) by lia.
    replace (maxUint64 / 10 + 1 <=? n)%Z with false.
    2:{ symmetry. apply Z.leb_gt.
        change (maxUint64 / 10 + 1)%Z with 1844674407370955162%Z.
        unfold maxUint64 in B. lia. }
    cbv zeta.
    replace (maxUint64 <? n * 10 + (Z.of_N (byteval c) - 48))%Z with false
      by (symmetry; apply Z.ltb_ge; exact B).
    apply IH; [lia | exact Ht | exact Hv].
Qed.

(** A number with a colon after it is no number for [Atoi]. *)
Lemma Atoi_decimal_colon (i : Z) :
  natural i -> Atoi (decimal i ++ str ":") = (0%Z, Some "strconv.Atoi: invalid syntax"%string).
Proof.
  intro H. destruct (@decimal_digits i (proj1 H)) as [Hne F].
  assert (V : valueOf (decimal i) 0 = i).
  { unfold decimal. replace (i <? 0)%Z with false by (symmetry; apply Z.ltb_ge; destruct H; lia).
    apply digitsOf_value. unfold natural, maxInt in H. cbn. lia. }
  assert (B : (valueOf (decimal i) 0 <= maxUint64)%Z)
    by (rewrite V; unfold natural, maxInt, maxUint64 in *; lia).
  clear V. revert Hne F B. generalize (decimal i) as ds. intros ds Hne F B.
  destruct ds as [|c t]; [congruence|].
  pose proof (Forall_inv F) as Hc.
  unfold Atoi. cbn [app].
  destruct (@digit_not_sign c Hc) as [S1 S2]. rewrite S1, S2. cbn [orb].
  unfold ParseUint.
  change (c :: t ++ str ":") with ((c :: t) ++ ":"%char :: []).
  rewrite parseUint_stops; [reflexivity | reflexivity | lia | exact F | exact B].
Qed.

(** The row and the column of a pair of pieces, the first ending with the
    row, the second " column C". *)
Lemma rowColumn_of_pieces (p0 : bytes) (ws : list bytes) (r c : Z) :
  natural r -> natural c ->
  Fields p0 = ws ++ [decimal r] ->
  extractRowColumnFromFieldsSplit [p0; joined " "%char [str "column"; decimal c]]
  = Ok (r, c, None).
Proof.
  intros Hr Hc F1. unfold extractRowColumnFromFieldsSplit.
  match goal with |- context [negb (len ?l =? 2)%Z] =>
    change (negb (len l =? 2)%Z) with false end.
  cbv iota.
  match goal with |- context [index ?l 0] =>
    match l with [?a; ?b] => change (index l 0) with (Ok a) end end.
  cbn [bind]. rewrite F1, index_last. cbn [bind]. rewrite (Atoi_decimal Hr).
  match goal with |- context [index ?l 1] =>
    match l with [?a; ?b] => change (index l 1) with (Ok b) end end.
  cbn [bind].
  assert (F2 : Fields (joined " "%char [str "column"; decimal c]) = [str "column"; decimal c]).
  { unfold Fields. apply FieldsFunc_joined; try reflexivity.
    constructor; [|constructor; [|constructor]].
    - split; [discriminate | plain_text; constructor].
    - apply (decimal_piece (proj1 Hc)). }
  rewrite F2. change (index [str "column"; decimal c] 1) with (Ok (decimal c)).
  cbn [bind]. rewrite (Atoi_decimal Hc). reflexivity.
Qed.

(** The same when the column keeps a colon: the row is read, the column is
    not. *)
Lemma rowColumn_with_colon (p0 : bytes) (ws : list bytes) (r c : Z) :
  natural r -> natural c ->
  Fields p0 = ws ++ [decimal r] ->
  extractRowColumnFromFieldsSplit
    [p0; joined " "%char [str "column"; decimal c ++ str ":"]]
  = Ok (r, 0%Z, Some "strconv.Atoi: invalid syntax"%string).
Proof.
  intros Hr Hc F1. unfold extractRowColumnFromFieldsSplit.
  match goal with |- context [negb (len ?l =? 2)%Z] =>
    change (negb (len l =? 2)%Z) with false end.
  cbv iota.
  match goal with |- context [index ?l 0] =>
    match l with [?a; ?b] => change (index l 0) with (Ok a) end end.
  cbn [bind]. rewrite F1, index_last. cbn [bind]. rewrite (Atoi_decimal Hr).
  match goal with |- context [index ?l 1] =>
    match l with [?a; ?b] => change (index l 1) with (Ok b) end end.
  cbn [bind].
  assert (F2 : Fields (joined " "%char [str "column"; decimal c ++ str ":"])
               = [str "column"; decimal c ++ str ":"]).
  { unfold Fields. apply FieldsFunc_joined; try reflexivity.
    constructor; [|constructor; [|constructor]].
    - split; [discriminate | plain_text; constructor].
    - destruct (decimal_piece (proj1 Hc)) as [[Hne F] _]. split.
      + destruct (decimal c); [congruence | discriminate].
      + apply Forall_app. split; [exact F | plain_text; constructor]. }
  rewrite F2. change (index [str "column"; decimal c ++ str ":"] 1)
    with (Ok (decimal c ++ str ":")).
  cbn [bind]. rewrite (Atoi_decimal_colon Hc). reflexivity.
Qed.

Lemma Fields_words (w : bytes) (pre : list bytes) (r : Z) :
  (0 <= r)%Z -> piece IsSpace w -> Forall (piece IsSpace) pre ->
  Fields (w ++ joined " "%char (pre ++ [decimal r])) = (w :: pre) ++ [decimal r].
Proof.
  intros Hr Hw Hpre. unfold Fields. apply FieldsFunc_lead; try reflexivity; [exact Hw|].
  apply Forall_app. split; [exact Hpre|]. constructor; [|constructor].
  apply (decimal_piece Hr).
Qed.

Lemma extract_lineColumn (r c : Z) :
  natural r -> natural c ->
  extractRowColumnFromString (lineColumn r c) = Ok (r, c, None).
Proof.
  intros Hr Hc. unfold extractRowColumnFromString.
  assert (E : lineColumn r c
              = (str "line" ++ joined " "%char ([] ++ [decimal r]))
                  ++ joined ","%char [joined " "%char [str "column"; decimal c]]).
  { unfold lineColumn, joined. cbn. rewrite ?app_nil_r, <- ?app_assoc. reflexivity. }
  rewrite E.
  rewrite FieldsFunc_lead; try reflexivity.
  - apply (@rowColumn_of_pieces _ [str "line"] r c Hr Hc).
    apply (@Fields_words (str "line") [] r (proj1 Hr)); [|constructor].
    split; [discriminate | plain_text; constructor].
  - unfold joined. cbn [map concat app]. rewrite app_nil_r.
    apply text_piece; [discriminate | plain_text; constructor |].
    constructor; [split; reflexivity|].
    apply (proj2 (proj2 (decimal_piece (proj1 Hr)))).
  - constructor; [|constructor]. unfold joined. cbn [map concat app].
    rewrite app_nil_r.
    change (" "%char :: str "column" ++ " "%char :: decimal c)
      with (str " column " ++ decimal c).
    apply text_piece; [discriminate | plain_text; constructor |].
    apply (proj2 (proj2 (decimal_piece (proj1 Hc)))).
Qed.

Lemma quoted_piece (f : bytes) :
  fileName f -> piece matchCommaRune (quoted f).
Proof.
  intro H. split; [discriminate|]. unfold quoted.
  constructor; [split; reflexivity|]. apply Forall_app. split; [exact H|].
  constructor; [split; reflexivity | constructor].
Qed.

Lemma column_piece (c : Z) (tail : bytes) :
  natural c -> Forall (plain matchCommaRune) tail ->
  piece matchCommaRune (joined " "%char [str "column"; decimal c ++ tail]).
Proof.
  intros Hc Ht. split; [discriminate|].
  unfold joined. cbn [map concat app]. rewrite app_nil_r.
  change (" "%char :: str "column" ++ " "%char :: decimal c ++ tail)
    with (str " column " ++ decimal c ++ tail).
  apply Forall_app. split; [plain_text; constructor|].
  apply Forall_app. split; [|exact Ht].
  apply (proj2 (proj2 (decimal_piece (proj1 Hc)))).
Qed.

Lemma row_piece (pre : list bytes) (r : Z) :
  natural r -> Forall (piece matchCommaRune) pre -> pre <> [] \/ True ->
  piece matchCommaRune (joined " "%char (pre ++ [decimal r])).
Proof.
  intros Hr Hpre _. split.
  - unfold joined. destruct pre; discriminate.
  - unfold joined. induction Hpre as [|p pre [_ Hp] Hps IH].
    + cbn [app map concat]. rewrite app_nil_r.
      constructor; [split; reflexivity|].
      apply (proj2 (proj2 (decimal_piece (proj1 Hr)))).
    + cbn [app map concat]. constructor; [split; reflexivity|].
      apply Forall_app. split; [exact Hp | exact IH].
Qed.

Lemma extractFile_located (f : bytes) (r c : Z) :
  fileName f -> natural r -> natural c ->
  extractFileRowColumn (quoted f ++ str ", at " ++ lineColumn r c)
  = Ok (quoted f, r, c, None).
Proof.
  intros Hf Hr Hc. unfold extractFileRowColumn.
  assert (E : quoted f ++ str ", at " ++ lineColumn r c
              = quoted f
                  ++ joined ","%char
                       [joined " "%char ([str "at"; str "line"] ++ [decimal r]);
                        joined " "%char [str "column"; decimal c ++ []]]).
  { unfold lineColumn, joined. cbn. rewrite ?app_nil_r, <- ?app_assoc. reflexivity. }
  rewrite E. clear E.
  rewrite FieldsFunc_lead; try reflexivity; [|exact (quoted_piece Hf)|].
  2:{ constructor; [|constructor; [|constructor]].
      - apply row_piece; [exact Hr | | now left].
        constructor; [|constructor; [|constructor]];
          (split; [discriminate | plain_text; constructor]).
      - apply column_piece; [exact Hc | constructor]. }
  cbv zeta.
  match goal with |- context [index ?l 0] =>
    match l with ?a :: _ => change (index l 0) with (Ok a) end end.
  cbn [bind].
  match goal with |- context [slice ?l (len ?l - 2) (len ?l)] =>
    match l with [?a; ?b; ?d] =>
      change (slice l (len l - 2) (len l)) with (Ok [b; d]) end end.
  cbn [bind]. rewrite app_nil_r.
  rewrite (@rowColumn_of_pieces _ [str "at"; str "line"] r c Hr Hc); [reflexivity|].
  unfold Fields. apply FieldsFunc_joined; try reflexivity.
  constructor; [|constructor; [|constructor; [|constructor]]];
    try (split; [discriminate | plain_text; constructor]).
  apply (decimal_piece (proj1 Hr)).
Qed.

Lemma extractFile_top (f : bytes) (r c : Z) :
  fileName f -> natural r -> natural c ->
  extractFileRowColumn (quoted f ++ str ", " ++ lineColumn r c ++ str ":")
  = Ok (quoted f, r, 0%Z, Some "strconv.Atoi: invalid syntax"%string).
Proof.
  intros Hf Hr Hc. unfold extractFileRowColumn.
  assert (E : quoted f ++ str ", " ++ lineColumn r c ++ str ":"
              = quoted f
                  ++ joined ","%char
                       [joined " "%char ([str "line"] ++ [decimal r]);
                        joined " "%char [str "column"; decimal c ++ str ":"]]).
  { unfold lineColumn, joined. cbn. rewrite ?app_nil_r, <- ?app_assoc. reflexivity. }
  rewrite E. clear E.
  rewrite FieldsFunc_lead; try reflexivity; [|exact (quoted_piece Hf)|].
  2:{ constructor; [|constructor; [|constructor]].
      - apply row_piece; [exact Hr | | now left].
        constructor; [|constructor];
          (split; [discriminate | plain_text; constructor]).
      - apply column_piece; [exact Hc | plain_text; constructor]. }
  cbv zeta.
  match goal with |- context [index ?l 0] =>
    match l with ?a :: _ => change (index l 0) with (Ok a) end end.
  cbn [bind].
  match goal with |- context [slice ?l (len ?l - 2) (len ?l)] =>
    match l with [?a; ?b; ?d] =>
      change (slice l (len l - 2) (len l)) with (Ok [b; d]) end end.
  cbn [bind].
  rewrite (@rowColumn_with_colon _ [str "line"] r c Hr Hc); [reflexivity|].
  unfold Fields. apply FieldsFunc_joined; try reflexivity.
  constructor; [|constructor; [|constructor]];
    try (split; [discriminate | plain_text; constructor]).
  apply (decimal_piece (proj1 Hr)).
Qed.

Lemma shorter (p t : bytes) : p <> [] -> (length t <? length (p ++ t)) = true.
Proof.
  intro H. apply Nat.ltb_lt. rewrite length_app.
  destruct p; [congruence | cbn; lia].
Qed.

Lemma readTopLevel_eval (r c : Z) :
  natural r -> natural c ->
  readTopLevel (topLine (EvalAt r c)) = Ok (Describes (evalPosition r c)).
Proof.
  intros Hr Hc. unfold readTopLevel, topLine. cbv zeta.
  rewrite TrimPrefix_app. rewrite shorter by discriminate.
  change (str ":") with [":"%char].
  rewrite (@slice_to_last _ (lineColumn r c) ":"%char). cbn [bind].
  rewrite (extract_lineColumn Hr Hc). reflexivity.
Qed.

Lemma readTopLevel_file (f : bytes) (r c : Z) :
  fileName f -> natural r -> natural c ->
  readTopLevel (topLine (FileAt f r c))
  = Ok (Fails "strconv.Atoi: invalid syntax"%string).
Proof.
  intros Hf Hr Hc. unfold readTopLevel, topLine. cbv zeta.
  rewrite (@TrimPrefix_other _ (str "In eval expression, ")).
  2:{ apply not_true_is_false. intro H. apply HasPrefix_spec in H.
      destruct H as [t H]. discriminate H. }
  rewrite Nat.ltb_irrefl.
  rewrite TrimPrefix_app. rewrite shorter by discriminate.
  rewrite (extractFile_top Hf Hr Hc). reflexivity.
Qed.

Lemma readLocatedIn_eval (r c : Z) :
  natural r -> natural c ->
  readLocatedIn (locatedLine (Some (EvalAt r c))) = Ok (Describes (evalPosition r c)).
Proof.
  intros Hr Hc. unfold readLocatedIn, locatedLine. cbv zeta.
  change (str "Located in enclosing eval expression, at " ++ lineColumn r c ++ str ":")
    with (str "Located in"
            ++ str " enclosing eval expression, at " ++ lineColumn r c ++ str ":").
  rewrite TrimPrefix_app. rewrite shorter by discriminate.
  rewrite TrimPrefix_app. rewrite shorter by discriminate.
  change (str ":") with [":"%char].
  rewrite (@slice_to_last _ (lineColumn r c) ":"%char). cbn [bind].
  rewrite (extract_lineColumn Hr Hc). reflexivity.
Qed.

Lemma readLocatedIn_file (f : bytes) (r c : Z) :
  fileName f -> natural r -> natural c ->
  readLocatedIn (locatedLine (Some (FileAt f r c)))
  = Ok (Describes (filePosition f r c)).
Proof.
  intros Hf Hr Hc. unfold readLocatedIn, locatedLine. cbv zeta.
  change (str "Located in file " ++ quoted f ++ str ", at " ++ lineColumn r c ++ str ":")
    with (str "Located in"
            ++ str " file " ++ quoted f ++ str ", at " ++ lineColumn r c ++ str ":").
  rewrite TrimPrefix_app. rewrite shorter by discriminate.
  rewrite (@TrimPrefix_other _ (str " enclosing eval expression, at ")).
  2:{ apply not_true_is_false. intro H. apply HasPrefix_spec in H.
      destruct H as [t H]. discriminate H. }
  rewrite Nat.ltb_irrefl.
  rewrite TrimPrefix_app. rewrite shorter by discriminate.
  replace (quoted f ++ str ", at " ++ lineColumn r c ++ str ":")
    with ((quoted f ++ str ", at " ++ lineColumn r c) ++ [":"%char])
    by (rewrite <- !app_assoc; reflexivity).
  rewrite slice_to_last. cbn [bind].
  rewrite (extractFile_located Hf Hr Hc). cbn [bind].
  unfold quoted. rewrite slice_inner. reflexivity.
Qed.

Lemma readLocatedIn_nowhere :
  readLocatedIn (locatedLine None) = Ok (Describes zeroErrorPosition).
Proof. reflexivity. Qed.

Lemma visible_letter (c : ascii) :
  In c (str "IL>:") -> visible c.
Proof.
  intros [H|[H|[H|[H|[]]]]]; subst c; split; reflexivity.
Qed.

Lemma TrimSpace_framed (c l : ascii) (m body : bytes) :
  visible c -> visible l ->
  TrimSpace ((c :: m) ++ body ++ [l]) = (c :: m) ++ body ++ [l].
Proof.
  intros Hc Hl.
  replace ((c :: m) ++ body ++ [l]) with (c :: (m ++ body) ++ [l])
    by (cbn; now rewrite <- app_assoc).
  now apply TrimSpace_visible.
Qed.

Lemma TrimSpace_topLine (p : position) : TrimSpace (topLine p) = topLine p.
Proof.
  destruct p as [r c|f r c]; unfold topLine.
  - apply (@TrimSpace_framed "I"%char ":"%char (str "n eval expression, ")
             (lineColumn r c)); apply visible_letter; cbn; tauto.
  - replace (str "In file " ++ quoted f ++ str ", " ++ lineColumn r c ++ str ":")
      with ((str "In file ") ++ (quoted f ++ str ", " ++ lineColumn r c) ++ [":"%char])
      by (rewrite <- !app_assoc; reflexivity).
    apply (@TrimSpace_framed "I"%char ":"%char (str "n file "));
      apply visible_letter; cbn; tauto.
Qed.

Lemma TrimSpace_locatedLine (p : option position) :
  TrimSpace (locatedLine p) = locatedLine p.
Proof.
  destruct p as [[r c|f r c]|]; unfold locatedLine.
  - apply (@TrimSpace_framed "L"%char ":"%char
             (str "ocated in enclosing eval expression, at ") (lineColumn r c));
      apply visible_letter; cbn; tauto.
  - replace (str "Located in file " ++ quoted f ++ str ", at " ++ lineColumn r c ++ str ":")
      with ((str "Located in file ")
              ++ (quoted f ++ str ", at " ++ lineColumn r c) ++ [":"%char])
      by (rewrite <- !app_assoc; reflexivity).
    apply (@TrimSpace_framed "L"%char ":"%char (str "ocated in file "));
      apply visible_letter; cbn; tauto.
  - reflexivity.
Qed.

Lemma TrimSpace_fragmentLine (f : bytes) :
  endsVisibly f -> TrimSpace (fragmentLine f) = fragmentLine f.
Proof.
  intros [m [l [-> Hl]]]. unfold fragmentLine.
  apply (@TrimSpace_framed ">"%char l (str "> ") m); [|exact Hl].
  apply visible_letter; cbn; tauto.
Qed.

Lemma fragmentOf_fragmentLine (f : bytes) :
  endsVisibly f -> fragmentOf (fragmentLine f) = Some f.
Proof.
  intro H. unfold fragmentOf. cbv zeta. rewrite (TrimSpace_fragmentLine H).
  unfold fragmentLine. rewrite TrimPrefix_app. now rewrite shorter by discriminate.
Qed.

Lemma topLevelOf_eval (r c : Z) :
  natural r -> natural c ->
  topLevelOf (topLine (EvalAt r c)) = Some (evalPosition r c).
Proof.
  intros Hr Hc. unfold topLevelOf. rewrite TrimSpace_topLine.
  now rewrite (readTopLevel_eval Hr Hc).
Qed.

Lemma locatedInOf_line (p : option position) :
  match p with Some q => wellPlaced q | None => True end ->
  locatedInOf (locatedLine p) = Some (positionRecord p).
Proof.
  intro H. unfold locatedInOf. rewrite TrimSpace_locatedLine.
  destruct p as [[r c|f r c]|]; cbn [wellPlaced] in H.
  - destruct H as [Hr Hc]. now rewrite (readLocatedIn_eval Hr Hc).
  - destruct H as [Hf [Hr Hc]]. now rewrite (readLocatedIn_file Hf Hr Hc).
  - reflexivity.
Qed.

Lemma linksOf_lines (links : list link) :
  Forall wellLinked links ->
  linksOf (map (fun l => (locatedLine (fst l), fragmentLine (snd l))) links)
  = Some (linkRecords links)
  /\ linesOf (map (fun l => (locatedLine (fst l), fragmentLine (snd l))) links)
     = linkLines links.
Proof.
  induction 1 as [|[p f] links [Hp Hf] Hl [IH1 IH2]]; [split; reflexivity|].
  cbn [map linksOf linesOf fst snd linkLines flat_map linkRecords app] in *.
  rewrite (locatedInOf_line p Hp), (fragmentOf_fragmentLine Hf), IH1.
  split; [reflexivity|]. now rewrite IH2.
Qed.

Lemma staysOut_ends (rest : list bytes) : staysOut rest -> endsTheChain rest.
Proof.
  destruct rest as [|x rest]; [trivial|]. unfold staysOut, endsTheChain. intro H.
  unfold readLocatedIn. cbv zeta. rewrite (TrimPrefix_other _ _ H).
  now rewrite Nat.ltb_irrefl.
Qed.

Lemma drive_step (St P : Type) (step : St -> P -> moved St P) (k : nat)
  (st : St) (p : P) :
  drive step (S k) (Some st) p
  = match step st p with
    | Goto next p' => drive step k next p'
    | Panicking m p' => Crashed m p'
    end.
Proof. reflexivity. Qed.

(** A top-level line for a file: the parser sends the error of the column
    and no record. *)
Lemma file_on_top (f : bytes) (r c : Z) (rest : list bytes) :
  fileName f -> natural r -> natural c ->
  exists p,
    ep_run (ep_start (newLineConsumer (topLine (FileAt f r c) :: rest))
              newErrorPositionParser)
    = Closed p
    /\ ep_output p = [inr "strconv.Atoi: invalid syntax"%string]
    /\ heap p = [].
Proof.
  intros Hf Hr Hc.
  unfold ep_run, ep_start, newErrorPositionParser, newLineConsumer, transitionBound.
  ep_simpl. cbn [length].
  replace (2 * S (length rest) + 6) with (S (S (2 * length rest + 6))) by lia.
  rewrite drive_step. cbn [errorPositionStep].
  unfold parseTopLevel, ep_fetch, fetchNextLine. ep_simpl.
  rewrite TrimSpace_topLine, (readTopLevel_file Hf Hr Hc). ep_simpl.
  rewrite drive_step. cbn [errorPositionStep].
  unfold parseErrorPositionError. ep_simpl. rewrite drive_done. ep_simpl.
  eexists. split; [reflexivity|]. split; reflexivity.
Qed.


Lemma readTopLevel_other (x : bytes) :
  opensNothing x -> readTopLevel (TrimSpace x) = Ok NotMine.
Proof.
  intros [H1 H2]. unfold readTopLevel. cbv zeta.
  rewrite (TrimPrefix_other _ _ H1), (TrimPrefix_other _ _ H2).
  now rewrite Nat.ltb_irrefl.
Qed.

(** A stream that starts with another line: the parser ends at once and
    sends nothing. *)
Lemma other_line_on_top (x : bytes) (rest : list bytes) :
  opensNothing x ->
  exists p,
    ep_run (ep_start (newLineConsumer (x :: rest)) newErrorPositionParser)
    = Closed p
    /\ ep_output p = [] /\ heap p = [].
Proof.
  intro Hx.
  unfold ep_run, ep_start, newErrorPositionParser, newLineConsumer, transitionBound.
  ep_simpl. cbn [length].
  replace (2 * S (length rest) + 6) with (S (2 * length rest + 7)) by lia.
  rewrite drive_step. cbn [errorPositionStep].
  unfold parseTopLevel, ep_fetch, fetchNextLine. ep_simpl.
  rewrite (readTopLevel_other Hx). rewrite drive_done. ep_simpl.
  eexists. split; [reflexivity|]. split; reflexivity.
Qed.

(** C7.  A parser just made is given a stream of the lines Magma writes for
    an error position: a top-level line, "In eval expression, line R,
    column C:" or "In file "F", line R, column C:"; the line ">> " with the
    source fragment; then for each of N links a line "Located in enclosing
    eval expression, at line R, column C:", "Located in file "F", at line R,
    column C:" or "Located in:", and the line of its source fragment; then
    nothing, or a line that does not begin with "Located in".  Rows and
    columns are decimal numerals of numbers an [int] holds, file names are
    ASCII without a comma, fragments end with a byte that is not white
    space.

    When the top-level line is the one of an eval expression, the parser
    closes its output channel after sending one value, the root record.
    The store then holds N + 1 records: the root at address 0 and one per
    link at addresses 1 to N, in the order of the lines, each with the
    position of its line (the file name without its quotes) and the
    fragment of the line after, each linked to the next and the last to
    nothing; so the chain from the root visits the addresses 0, 1, ..., N
    once each and stops.  The record of a line "Located in:" has an empty
    file, a false eval flag, and row and column 0.

    When the top-level line is the one of a file, [parseTopLevel] hands it
    to [extractFileRowColumn] with its colon, the column does not parse, and
    the parser sends the error of [strconv.Atoi] and no record; the store
    stays empty.

    The top-level line has to come first: with any line before it that
    opens no error position, the parser ends at once and sends nothing. *)
Theorem error_position_chain_follows_the_lines :
  forall (top : position) (f0 : bytes) (links : list link) (rest : list bytes),
    wellPlaced top -> endsVisibly f0 -> Forall wellLinked links -> staysOut rest ->
    let stream := topLine top :: fragmentLine f0 :: linkLines links ++ rest in
    let fresh := fun lines => ep_start (newLineConsumer lines) newErrorPositionParser in
    (exists p,
      ep_run (fresh stream) = Closed p
      /\ match top with
         | EvalAt r c =>
           ep_output p = [inl 0]
           /\ heap p = linked 0 ((evalPosition r c, f0) :: linkRecords links)
           /\ length (heap p) = S (length links)
           /\ chain (heap p) (S (length (heap p))) 0 = seq 0 (S (length links))
           /\ (forall i f,
                 nth_error links i = Some (None, f) ->
                 exists n,
                   nth_error (heap p) (S i) = Some n
                   /\ File n = [] /\ Eval n = false /\ Row n = 0%Z /\ Column n = 0%Z
                   /\ SourceFragment n = f)
         | FileAt f r c =>
           ep_output p = [inr "strconv.Atoi: invalid syntax"%string]
           /\ heap p = []
         end)
    /\ (forall x,
          opensNothing x ->
          exists q,
            ep_run (fresh (x :: stream)) = Closed q
            /\ ep_output q = [] /\ heap q = []).
Proof.
  intros top f0 links rest Htop Hf0 Hlinks Hrest stream fresh.
  split; [|intros x Hx; exact (other_line_on_top stream Hx)].
  subst stream fresh.
  destruct top as [r c|f r c]; cbn [wellPlaced] in Htop.
  - destruct Htop as [Hr Hc].
    destruct (linksOf_lines Hlinks) as [L1 L2].
    destruct (@chain_of_recognized_lines
                (topLine (EvalAt r c)) (fragmentLine f0)
                (map (fun l => (locatedLine (fst l), fragmentLine (snd l))) links)
                rest (evalPosition r c) f0 (linkRecords links)
                (topLevelOf_eval Hr Hc) (fragmentOf_fragmentLine Hf0) L1
                (staysOut_ends rest Hrest))
      as [p [Hrun [Hout [Hheap [Hlen [Hchain _]]]]]].
    rewrite L2 in Hrun. rewrite length_map in Hlen, Hchain.
    exists p. split; [exact Hrun|]. repeat (split; [assumption|]).
    intros i f Hi.
    assert (Hn : nth_error (linkRecords links) i = Some (zeroErrorPosition, f)).
    { unfold linkRecords. rewrite nth_error_map.
      change link with (option position * bytes)%type in *. rewrite Hi. reflexivity. }
    destruct (@nth_error_linked (linkRecords links) 1 i zeroErrorPosition f Hn)
      as [next Hnext].
    exists (node zeroErrorPosition f next). rewrite Hheap. cbn [linked nth_error].
    split; [exact Hnext|]. repeat split; reflexivity.
  - destruct Htop as [Hf [Hr Hc]].
    destruct (@file_on_top f r c (fragmentLine f0 :: linkLines links ++ rest) Hf Hr Hc)
      as [p [Hrun [Hout Hheap]]].
    exists p. split; [exact Hrun|]. split; assumption.
Qed.

(** The stream of the repository's own test with a link to a file put in
    and a line after the chain: four records, linked in the order of the
    lines; with a line before it, nothing.  Then the top-level line of a
    file in the documented form: the error and no record. *)
Lemma error_position_chain_witness :
  let lines :=
    [str "In eval expression, line 1, column 3:";
     str ">> 3 mod 0;";
     str "Located in enclosing eval expression, at line 1, column 1:";
     str ">> eval 3 mod 0;";
     str "Located in file " ++ [quote] ++ str "/tmp/2.m" ++ [quote]
       ++ str ", at line 2, column 5:";
     str ">> load x;";
     str "Located in:";
     str ">> eval eval 3 mod 0;";
     str "Runtime error"] in
  let fresh := fun lines => ep_start (newLineConsumer lines) newErrorPositionParser in
  (exists p,
    ep_run (fresh lines) = Closed p
    /\ ep_output p = [inl 0]
    /\ heap p
       = [node (evalPosition 1 3) (str "3 mod 0;") (Some 1);
          node (evalPosition 1 1) (str "eval 3 mod 0;") (Some 2);
          node (filePosition (str "/tmp/2.m") 2 5) (str "load x;") (Some 3);
          node zeroErrorPosition (str "eval eval 3 mod 0;") None]
    /\ chain (heap p) (S (length (heap p))) 0 = [0; 1; 2; 3]
    /\ exists n,
         nth_error (heap p) 3 = Some n
         /\ File n = [] /\ Eval n = false /\ Row n = 0%Z /\ Column n = 0%Z)
  /\ (exists q,
        ep_run (fresh (str "Magma V2.19" :: lines)) = Closed q /\ ep_output q = [])
  /\ (exists p,
        ep_run (fresh [str "In file " ++ [quote] ++ str "/tmp/2.m" ++ [quote]
                         ++ str ", line 2, column 5:";
                       str ">> 3 mod 0;"]) = Closed p
        /\ ep_output p = [inr "strconv.Atoi: invalid syntax"%string]
        /\ heap p = []).
Proof.
  assert (N : forall i, (0 <= i <= 9)%Z -> natural i).
  { intros i H. unfold natural, maxInt. lia. }
  assert (V : forall m, endsVisibly (m ++ str ";")).
  { intro m. exists m, ";"%char. split; [reflexivity | split; reflexivity]. }
  assert (F : fileName (str "/tmp/2.m")).
  { repeat (constructor; [split; reflexivity|]). constructor. }
  assert (L : Forall wellLinked
                [(Some (EvalAt 1 1), str "eval 3 mod 0;");
                 (Some (FileAt (str "/tmp/2.m") 2 5), str "load x;");
                 (None, str "eval eval 3 mod 0;")]).
  { repeat (apply Forall_cons; [split; cbn [fst snd wellPlaced]|]);
      try apply Forall_nil;
      try exact (V (str "eval 3 mod 0")); try exact (V (str "load x"));
      try exact (V (str "eval eval 3 mod 0")); try exact I;
      repeat split; try exact F; apply N; lia. }
  cbv zeta.
  destruct (@error_position_chain_follows_the_lines
              (EvalAt 1 3) (str "3 mod 0;")
              [(Some (EvalAt 1 1), str "eval 3 mod 0;");
               (Some (FileAt (str "/tmp/2.m") 2 5), str "load x;");
               (None, str "eval eval 3 mod 0;")]
              [str "Runtime error"]
              (conj (N 1%Z ltac:(lia)) (N 3%Z ltac:(lia)))
              (V (str "3 mod 0")) L eq_refl)
    as [[p [Hrun [Hout [Hheap [_ [Hchain Hzero]]]]]] Hother].
  destruct (@error_position_chain_follows_the_lines
              (FileAt (str "/tmp/2.m") 2 5) (str "3 mod 0;") [] []
              (conj F (conj (N 2%Z ltac:(lia)) (N 5%Z ltac:(lia))))
              (V (str "3 mod 0")) (Forall_nil _) I)
    as [[p' [Hrun' [Hout' Hheap']]] _].
  split; [|split].
  - exists p. split; [exact Hrun|]. split; [exact Hout|].
    split; [exact Hheap|]. split; [exact Hchain|].
    destruct (Hzero 2 (str "eval eval 3 mod 0;") eq_refl)
      as [n [Hn [H1 [H2 [H3 [H4 _]]]]]].
    exists n. repeat split; assumption.
  - destruct (Hother (str "Magma V2.19") (conj eq_refl eq_refl)) as [q [Hq [Ho _]]].
    exists q. split; [exact Hq | exact Ho].
  - exists p'. split; [exact Hrun'|]. split; [exact Hout' | exact Hheap'].
Defined.

End PlaceFacts.

(** ** The tag framer *)

Module FramerFacts.
Import Go Proc Utf8Facts.

Lemma IndexFrom_sentinel (s : bytes) :
  forall i,
    match splitAtSentinel s with
    | (header, Some d) =>
      IndexFrom i s newTagSlice = Some (i + length header)
      /\ s = header ++ newTagChar :: d
    | (header, None) => IndexFrom i s newTagSlice = None /\ s = header
    end.
Proof.
  induction s as [|x t IH]; intro i.
  - cbn. split; reflexivity.
  - cbn [splitAtSentinel IndexFrom].
    assert (HP : HasPrefix (x :: t) newTagSlice = Ascii.eqb x newTagChar).
    { unfold HasPrefix, newTagSlice. cbn [length firstn Nat.leb andb].
      destruct (Ascii.eqb x newTagChar) eqn:E.
      - apply Ascii.eqb_eq in E. subst x. apply bytes_eqb_refl.
      - apply bytes_eqb_false. intro H. inversion H. subst x.
        rewrite Ascii.eqb_refl in E. discriminate E. }
    rewrite HP. destruct (Ascii.eqb x newTagChar) eqn:E.
    + apply Ascii.eqb_eq in E. subst x. split; [f_equal; cbn; lia | reflexivity].
    + specialize (IH (S i)). destruct (splitAtSentinel t) as [header [d|]].
      * destruct IH as [I1 I2]. split; [rewrite I1; f_equal; cbn; lia|].
        now rewrite I2 at 1.
      * destruct IH as [I1 I2]. split; [exact I1 | now rewrite I2 at 1].
Qed.

(** [bytes.SplitN(s, newTagSlice, 2)] cuts at the first sentinel. *)
Lemma SplitN2_sentinel (s : bytes) :
  SplitN2 s newTagSlice
  = match splitAtSentinel s with
    | (header, Some d) => [header; d]
    | (header, None) => [header]
    end.
Proof.
  unfold SplitN2, genSplit, Index. pose proof (IndexFrom_sentinel s 0) as H.
  destruct (splitAtSentinel s) as [header [d|]]; destruct H as [H1 H2];
    rewrite H1; [|now rewrite <- H2].
  cbn [Nat.add]. rewrite H2 at 1 2.
  rewrite firstn_app, Nat.sub_diag, firstn_O, app_nil_r, firstn_all.
  rewrite skipn_app.
  replace (length header + length newTagSlice - length header) with 1
    by (cbn [length newTagSlice]; lia).
  rewrite skipn_all2 by (cbn [length newTagSlice]; lia).
  reflexivity.
Qed.

(** C2.  The framer [parseTagLine] is the function [frame] of the design
    document.  A line that does not begin with the sentinel byte (the empty
    line included) has no tag: the tag name is nil.  Otherwise the rest of
    the line is cut at the next sentinel into a header and, when there is
    such a sentinel, a data segment; the header is tokenized on white space
    by [bytes.Fields]; the first token is the tag name, as it stands, the
    remaining tokens are the auxiliary fields in their order, the data is
    the data segment trimmed; a header without a token has no tag.  Being
    a Rocq function of the line alone, [parseTagLine] is deterministic and
    has no effect. *)
Theorem parseTagLine_frames_the_line :
  forall line : bytes, parseTagLine line = frame line.
Proof.
  intro line. unfold parseTagLine, frame.
  destruct line as [|l0 rest]; [reflexivity|].
  destruct (Ascii.eqb l0 newTagChar) eqn:E; [|now rewrite andb_false_r].
  rewrite andb_true_r. destruct rest as [|x t]; [reflexivity|].
  cbn [length Nat.ltb Nat.leb]. rewrite SplitN2_sentinel.
  destruct (splitAtSentinel (x :: t)) as [header [d|]]; cbn [hd];
    destruct (Fields header) as [|name aux] eqn:F; try reflexivity;
    rewrite (@TrimSpace_of_field header name)
      by (rewrite F; now left);
    reflexivity.
Qed.

(** A line without the sentinel in front carries no tag. *)
Lemma parseTagLine_without_sentinel (line : bytes) :
  hd_error line <> Some newTagChar -> parseTagLine line = noTag.
Proof.
  intro H. unfold parseTagLine.
  destruct line as [|l0 rest]; [reflexivity|].
  destruct (Ascii.eqb l0 newTagChar) eqn:E; [|now rewrite andb_false_r].
  apply Ascii.eqb_eq in E. subst l0. exfalso. now apply H.
Qed.

End FramerFacts.
